(** * The worker-pool load balancer of [core/vm/contracts.go]

    A shallow embedding of the [balancer] fragment (Task, Worker, Pool,
    Balancer, New, Push, balance, dispatch, completed) together with the
    part of Go's [container/heap] it calls, and the properties of the
    fragment that can be stated over it; then the precompiled contracts
    of the same file whose bodies are arithmetic on byte slices (the
    [RequiredGas] methods priced by the word, and [bigModexp]) with the
    part of Go's [math/big] they call.

    Conventions of the embedding:
    - a Go [int] is a [Z]; the arithmetic the fragment itself performs on
      counters ([pending++], [pending--], [poolSize*10]) wraps at 64 bits;
    - a [*Worker] is an address into a store of [Worker] structs, so that
      the Pool (a slice of pointers) and the struct fields it updates
      through those pointers are modelled with their aliasing;
    - a runtime panic, a goroutine that stays where it is (parked on a
      send or receive that cannot proceed, or inside a call of a task
      function that never returns) and an exhausted loop budget are the
      three ways a call does not return;
    - goroutines interleave at their channel operations: a worker is
      either at the head of its loop or in its body with the task it
      received, where it stays until the task's function has returned
      and the task's return channel has taken the value;
    - the runtime refuses to make a channel or a slice beyond its
      allocation ceiling; an allocation below the ceiling that the
      machine cannot satisfy ends the program, so what is proved of the
      result of [New] is proved of a call of [New] that returned;
    - a [[]byte] is a backing array and a length, a [*big.Int] a [Z];
      constants and helpers of other packages of the repository
      ([params], [common/math]) are parameters of the functions that
      use them. *)

From Stdlib Require Import ZArith Lia String.
From Stdlib.Strings Require Byte.
From stdpp Require Import base tactics option list relations.

Open Scope Z_scope.

(** * The program *)

(** ** Results of calls *)

Inductive result (A : Type) : Type :=
| Ok (a : A)      (* the call returns *)
| Panic           (* run-time panic: index out of range, negative size *)
| Blocked         (* the goroutine stays here: a channel operation that
                     cannot proceed, a call that never returns *)
| OutOfFuel.      (* loop budget of the embedding exhausted *)
Arguments Ok {A} a.
Arguments Panic {A}.
Arguments Blocked {A}.
Arguments OutOfFuel {A}.

#[global] Instance result_ret : MRet result := λ A a, Ok a.
#[global] Instance result_bind : MBind result := λ A B f r,
  match r with
  | Ok a => f a
  | Panic => Panic
  | Blocked => Blocked
  | OutOfFuel => OutOfFuel
  end.

(** ** Go's [int] *)

Definition int_max : Z := 2 ^ 63 - 1.
Definition int_min : Z := - 2 ^ 63.

(** Two's-complement wrap-around of a 64-bit signed integer. *)
Definition wrap (z : Z) : Z := (z + 2 ^ 63) mod 2 ^ 64 - 2 ^ 63.

(** ** Channels

    A buffered channel is its buffer and its capacity. The fragment only
    ever reaches a channel through the struct field that holds it, so the
    channel is stored in that field. *)

Record chan (A : Type) : Type := Chan { buf : list A; cap : Z }.
Arguments Chan {A} buf cap.
Arguments buf {A} c.
Arguments cap {A} c.

(** The ceiling of Go's runtime on one allocation and the size of the
    header of a channel, at their values on a 64-bit platform. *)
Definition maxAlloc : Z := 2 ^ 48.
Definition hchanSize : Z := 96.

(** [make(chan T, size)] for a [T] of [elem] bytes: the runtime panics on
    a negative size and on a buffer that, with the header, is beyond its
    ceiling ([makechan: size out of range]). *)
Definition make_chan {A : Type} (elem size : Z) : result (chan A) :=
  if (size <? 0) || (maxAlloc - hchanSize <? elem * size) then Panic
  else Ok (Chan [] size).

(** The sizes of a [*Worker] and of a [Task] (a function value and a
    channel), in bytes. *)
Definition sizeof_ptr : Z := 8.
Definition sizeof_Task : Z := 16.

(** [ch <- x] with no receiver waiting: proceeds when the buffer has room. *)
Definition send {A : Type} (ch : chan A) (x : A) : result (chan A) :=
  if Z.of_nat (length (buf ch)) <? cap ch
  then Ok (Chan (buf ch ++ [x]) (cap ch))
  else Blocked.

(** [<-ch]: takes the oldest buffered value. *)
Definition recv {A : Type} (ch : chan A) : result (A * chan A) :=
  match buf ch with
  | [] => Blocked
  | x :: rest => Ok (x, Chan rest (cap ch))
  end.

(** ** Task and Worker *)

(** A Go [error]: [None] is [nil]. *)
Definition error : Type := option string.

(** The return channel of a task belongs to the submitter, who makes it,
    receives from it and may close it; a task names it. What the fragment
    meets of it is whether a send on it proceeds: [Open k] is a channel
    that can take [k] more values (free places of its buffer, receivers
    waiting on it) before a sender parks, [Closed] a closed channel. A
    name that stands for no channel is the [nil] channel. *)
Abbreviation chan_id := nat.

Inductive ReturnChan : Type :=
| Open (room : nat)
| Closed.

(** [fn] is represented by what calling it yields: [Some e] when it
    returns [e], [None] when it never returns. *)
Record Task : Type := NewTask { fn : option error; c : chan_id }.

Record Worker : Type := MkWorker {
  id : Z;             (* worker id *)
  tasks : chan Task;  (* tasks to do (buffered) *)
  pending : Z;        (* count of pending work *)
  index : Z           (* index in the heap *)
}.

Abbreviation addr := nat.
Abbreviation Mem := (list Worker).
Abbreviation Pool := (list addr).

Definition set_tasks (w : Worker) (ch : chan Task) : Worker :=
  MkWorker (id w) ch (pending w) (index w).
Definition set_pending (w : Worker) (n : Z) : Worker :=
  MkWorker (id w) (tasks w) n (index w).
Definition set_index (w : Worker) (k : Z) : Worker :=
  MkWorker (id w) (tasks w) (pending w) k.

(** [*a] *)
Definition deref (m : Mem) (a : addr) : result Worker :=
  match m !! a with
  | Some w => Ok w
  | None => Panic
  end.

(** [p[i]] on a slice, with the bounds check. *)
Definition at_ {A : Type} (p : list A) (i : Z) : result A :=
  if i <? 0 then Panic
  else match p !! Z.to_nat i with
       | Some x => Ok x
       | None => Panic
       end.

(** [&Worker{...}] *)
Definition alloc (m : Mem) (w : Worker) : addr * Mem := (length m, m ++ [w]).

(** ** Pool: the methods behind [heap.Interface] *)

Module Pool.

Definition Len (p : Pool) : Z := Z.of_nat (length p).

Definition Less (m : Mem) (p : Pool) (i j : Z) : result bool :=
  ai ← at_ p i;
  wi ← deref m ai;
  aj ← at_ p j;
  wj ← deref m aj;
  Ok (pending wi <? pending wj).

(** [p[i].index = j; p[j].index = i; p[i], p[j] = p[j], p[i]] *)
Definition Swap (m : Mem) (p : Pool) (i j : Z) : result (Mem * Pool) :=
  ai ← at_ p i;
  wi ← deref m ai;
  let m1 := <[ai := set_index wi j]> m in
  aj ← at_ p j;
  wj ← deref m1 aj;
  let m2 := <[aj := set_index wj i]> m1 in
  Ok (m2, <[Z.to_nat j := ai]> (<[Z.to_nat i := aj]> p)).

(** [w.index = len( *p ); *p = append( *p, w)] *)
Definition Push (m : Mem) (p : Pool) (x : addr) : result (Mem * Pool) :=
  w ← deref m x;
  Ok (<[x := set_index w (Len p)]> m, p ++ [x]).

(** [x := old[n-1]; *p = old[0 : n-1]] *)
Definition Pop (p : Pool) : result (addr * Pool) :=
  let n := Len p in
  x ← at_ p (n - 1);
  Ok (x, take (Z.to_nat (n - 1)) p).

End Pool.

(** ** [container/heap]

    The functions of Go's standard library that the fragment calls, over
    the Pool methods above. Indices stay below the length of a slice of
    pointers, so the index arithmetic does not wrap; the library's own
    guard against it ([j1 < 0]) is kept. Division is Go's, truncating. *)

Module heap.

Fixpoint up_loop (fuel : nat) (m : Mem) (p : Pool) (j : Z) : result (Mem * Pool) :=
  match fuel with
  | O => OutOfFuel
  | S fuel =>
      let i := (j - 1) ÷ 2 in (* parent *)
      if i =? j then Ok (m, p)
      else
        lt ← Pool.Less m p j i;
        if negb lt then Ok (m, p)
        else
          '(m', p') ← Pool.Swap m p i j;
          up_loop fuel m' p' i
  end.

Definition up (m : Mem) (p : Pool) (j : Z) : result (Mem * Pool) :=
  up_loop (S (Z.to_nat j)) m p j.

Fixpoint down_loop (fuel : nat) (m : Mem) (p : Pool) (i0 i n : Z)
  : result (Mem * Pool * bool) :=
  match fuel with
  | O => OutOfFuel
  | S fuel =>
      let j1 := 2 * i + 1 in
      if (n <=? j1) || (j1 <? 0) then Ok (m, p, i0 <? i)
      else
        rless ← (if j1 + 1 <? n then Pool.Less m p (j1 + 1) j1 else Ok false);
        let j := if (rless : bool) then j1 + 1 else j1 in
        lt ← Pool.Less m p j i;
        if negb lt then Ok (m, p, i0 <? i)
        else
          '(m', p') ← Pool.Swap m p i j;
          down_loop fuel m' p' i0 j n
  end.

Definition down (m : Mem) (p : Pool) (i0 n : Z) : result (Mem * Pool * bool) :=
  down_loop (S (Z.to_nat n)) m p i0 i0 n.

(** [for i := n/2 - 1; i >= 0; i-- { down(h, i, n) }] *)
Fixpoint Init_loop (k : nat) (m : Mem) (p : Pool) (n : Z) : result (Mem * Pool) :=
  match k with
  | O => Ok (m, p)
  | S k =>
      '(m', p', moved) ← down m p (Z.of_nat k) n;
      Init_loop k m' p' n
  end.

Definition Init (m : Mem) (p : Pool) : result (Mem * Pool) :=
  let n := Pool.Len p in
  Init_loop (Z.to_nat (n ÷ 2)) m p n.

Definition Push (m : Mem) (p : Pool) (x : addr) : result (Mem * Pool) :=
  '(m1, p1) ← Pool.Push m p x;
  up m1 p1 (Pool.Len p1 - 1).

Definition Pop (m : Mem) (p : Pool) : result (addr * Mem * Pool) :=
  let n := Pool.Len p - 1 in
  '(m1, p1) ← Pool.Swap m p 0 n;
  '(m2, p2, moved) ← down m1 p1 0 n;
  '(x, p3) ← Pool.Pop p2;
  Ok (x, m2, p3).

Definition Remove (m : Mem) (p : Pool) (i : Z) : result (addr * Mem * Pool) :=
  let n := Pool.Len p - 1 in
  '(m1, p1) ← (if n =? i then Ok (m, p)
               else
                 '(m1, p1) ← Pool.Swap m p i n;
                 '(m2, p2, moved) ← down m1 p1 i n;
                 if (moved : bool) then Ok (m2, p2) else up m2 p2 i);
  '(x, p2) ← Pool.Pop p1;
  Ok (x, m1, p2).

End heap.

(** ** Balancer *)

Record Balancer : Type := MkBalancer {
  pool : Pool;
  done : chan addr;
  work : chan Task
}.

(** The channel a goroutine was started on: the balancer's [work] channel
    or the [tasks] channel of a worker. *)
Inductive chan_ref : Type :=
| BalancerWork
| WorkerTasks (w : addr).

(** A goroutine started by a [go] statement of the fragment. A worker is
    at the head of its loop, about to receive ([None]), or in the body of
    the loop with the task it received ([Some task]). *)
Inductive Goroutine : Type :=
| GoWork (w : addr) (tasks : chan_ref) (task : option Task)  (* go w.work(tasks) *)
| GoBalance (work : chan_ref).                               (* go b.balance(work) *)

(** The balancer, the Worker structs its pool points to, the goroutines
    started so far, the values the return channels have taken so far,
    and the return channels by their names. *)
Record World : Type := MkWorld {
  mem : Mem;
  bal : Balancer;
  goroutines : list Goroutine;
  delivered : list (chan_id * error);
  returns : list ReturnChan
}.

Definition set_heap (s : World) (m : Mem) (p : Pool) : World :=
  MkWorld m (MkBalancer p (done (bal s)) (work (bal s))) (goroutines s) (delivered s)
          (returns s).
Definition set_mem (s : World) (m : Mem) : World :=
  MkWorld m (bal s) (goroutines s) (delivered s) (returns s).
Definition set_work (s : World) (ch : chan Task) : World :=
  MkWorld (mem s) (MkBalancer (pool (bal s)) (done (bal s)) ch) (goroutines s) (delivered s)
          (returns s).
Definition set_done (s : World) (ch : chan addr) : World :=
  MkWorld (mem s) (MkBalancer (pool (bal s)) ch (work (bal s))) (goroutines s) (delivered s)
          (returns s).
Definition spawn (s : World) (g : Goroutine) : World :=
  MkWorld (mem s) (bal s) (goroutines s ++ [g]) (delivered s) (returns s).
Definition set_goroutine (s : World) (k : nat) (g : Goroutine) : World :=
  MkWorld (mem s) (bal s) (<[k := g]> (goroutines s)) (delivered s) (returns s).
Definition set_returns (s : World) (rs : list ReturnChan) : World :=
  MkWorld (mem s) (bal s) (goroutines s) (delivered s) rs.

(** The return channel [ch] has taken the value [e] and can take [k]
    more. *)
Definition deliver (s : World) (ch : chan_id) (e : error) (k : nat) : World :=
  MkWorld (mem s) (bal s) (goroutines s) (delivered s ++ [(ch, e)])
          (<[ch := Open k]> (returns s)).

(** [ch <- e] on a return channel: the sender parks while the channel
    cannot take the value, for ever on a [nil] channel; a send on a
    closed channel panics. *)
Definition send_return (ch : chan_id) (e : error) (s : World) : result World :=
  match returns s !! ch with
  | Some (Open (S k)) => Ok (deliver s ch e k)
  | Some (Open O) => Blocked
  | Some Closed => Panic
  | None => Blocked
  end.

(** [make(Pool, 0, size)]: the runtime panics on a negative capacity and
    on one beyond its ceiling ([makeslice: cap out of range]). *)
Definition make_pool (size : Z) : result Pool :=
  if (size <? 0) || (maxAlloc <? sizeof_ptr * size) then Panic else Ok [].

(** The body of the loop of [New], for worker number [i]. The line that
    would start the worker on its own [tasks] channel does not exist: the
    worker is started on [balancer.work]. *)
Definition New_body (i : Z) (s : World) : result World :=
  tch ← make_chan sizeof_Task 5000;
  let '(worker, m1) := alloc (mem s) (MkWorker i tch 0 0) in
  '(m2, p2) ← heap.Push m1 (pool (bal s)) worker;
  Ok (spawn (set_heap s m2 p2) (GoWork worker BalancerWork None)).

(** [for i := 0; i < poolSize; i++ { ... }], by its trip count. *)
Fixpoint New_loop (k : nat) (i : Z) (s : World) : result World :=
  match k with
  | O => Ok s
  | S k => s' ← New_body i s; New_loop k (i + 1) s'
  end.

(** [New]. The statement [go balancer.balance(balancer.work)] is commented
    out in the source, so no [GoBalance] is spawned. *)
Definition New (poolSize : Z) : result World :=
  d ← make_chan sizeof_ptr poolSize;
  w ← make_chan sizeof_Task (wrap (poolSize * 10));
  p ← make_pool poolSize;
  '(m0, p0) ← heap.Init [] p;
  New_loop (Z.to_nat poolSize) 0 (MkWorld m0 (MkBalancer p0 d w) [] [] []).

(** [Balancer.Push]: [b.work <- work] *)
Definition Push (t : Task) (s : World) : result World :=
  ch ← send (work (bal s)) t;
  Ok (set_work s ch).

(** [Balancer.dispatch] *)
Definition dispatch (task : Task) (s : World) : result World :=
  (* w := heap.Pop(&b.pool).( *Worker ) *)
  '(w, m1, p1) ← heap.Pop (mem s) (pool (bal s));
  (* w.tasks <- task *)
  ww ← deref m1 w;
  ch ← send (tasks ww) task;
  let m2 := <[w := set_tasks ww ch]> m1 in
  (* w.pending++ *)
  ww ← deref m2 w;
  let m3 := <[w := set_pending ww (wrap (pending ww + 1))]> m2 in
  (* heap.Push(&b.pool, w) *)
  '(m4, p4) ← heap.Push m3 p1 w;
  Ok (set_heap s m4 p4).

(** [Balancer.completed] *)
Definition completed (w : addr) (s : World) : result World :=
  (* w.pending-- *)
  ww ← deref (mem s) w;
  let m1 := <[w := set_pending ww (wrap (pending ww - 1))]> (mem s) in
  (* heap.Remove(&b.pool, w.index) *)
  ww ← deref m1 w;
  '(x, m2, p2) ← heap.Remove m1 (pool (bal s)) (index ww);
  (* heap.Push(&b.pool, w) *)
  '(m3, p3) ← heap.Push m2 p2 w;
  Ok (set_heap s m3 p3).

(** Receiving from the channel a worker was started on. *)
Definition recv_from (r : chan_ref) (s : World) : result (Task * World) :=
  match r with
  | BalancerWork =>
      '(task, ch) ← recv (work (bal s));
      Ok (task, set_work s ch)
  | WorkerTasks a =>
      ww ← deref (mem s) a;
      '(task, ch) ← recv (tasks ww);
      Ok (task, set_mem s (<[a := set_tasks ww ch]> (mem s)))
  end.

(** One turn of the loop of [Balancer.balance], started on the channel
    [r]; [from_work] names the case the [select] takes. *)
Definition balance (r : chan_ref) (from_work : bool) (s : World) : result World :=
  if from_work then
    '(task, s1) ← recv_from r s;
    dispatch task s1
  else
    '(w, ch) ← recv (done (bal s));
    completed w (set_done s ch).

(** The body of the loop of [Worker.work]: [task.c <- task.fn()], the
    call and then the send of what it returned. The line [done <- w] that
    follows it is commented out in the source. *)
Definition Worker_body (task : Task) (s : World) : result World :=
  match fn task with
  | Some e => send_return (c task) e s
  | None => Blocked
  end.

(** One turn of the loop of [Worker.work], started on the channel [r]:
    [for task := range tasks { task.c <- task.fn() }]. *)
Definition Worker_work (r : chan_ref) (s : World) : result World :=
  '(task, s1) ← recv_from r s;
  Worker_body task s1.

(** The interleaving of the goroutines. A worker at the head of its loop
    may receive a task; a worker in the body of its loop may finish it,
    once the call has returned and the return channel takes the value;
    the dispatcher may take a turn of its loop. *)
Inductive sched (s : World) : World → Prop :=
| sched_range k w r task s1 :
    goroutines s !! k = Some (GoWork w r None) →
    recv_from r s = Ok (task, s1) →
    sched s (set_goroutine s1 k (GoWork w r (Some task)))
| sched_body k w r task s1 :
    goroutines s !! k = Some (GoWork w r (Some task)) →
    Worker_body task s = Ok s1 →
    sched s (set_goroutine s1 k (GoWork w r None))
| sched_balance k r from_work s1 :
    goroutines s !! k = Some (GoBalance r) →
    balance r from_work s = Ok s1 →
    sched s s1.

(** The balancer in use: between the steps of its goroutines a submitter
    may hand a task to [Push], and the submitters do with their return
    channels what they please (make one, receive from one, close one). *)
Inductive in_use (s : World) : World → Prop :=
| use_sched s' : sched s s' → in_use s s'
| use_Push t s' : Push t s = Ok s' → in_use s s'
| use_returns rs : in_use s (set_returns s rs).

(** * The precompiled contracts of the same file *)

(** ** Byte slices

    A [[]byte] is its backing array, from the first element of the slice
    to its capacity, and its length. Slice expressions are checked
    against the capacity, as Go checks them, and [append] writes in
    place while the capacity lasts. *)

Record slice : Type := Slice { arr : list Byte.byte; len : Z }.

(** [cap(s)] *)
Definition cap_of (s : slice) : Z := Z.of_nat (length (arr s)).

(** The elements [s[0] .. s[len(s)-1]]. *)
Definition visible (s : slice) : list Byte.byte := take (Z.to_nat (len s)) (arr s).

(** A slice with no spare capacity. *)
Definition slice_of (bs : list Byte.byte) : slice := Slice bs (Z.of_nat (length bs)).

(** [s[lo:hi]] *)
Definition reslice (s : slice) (lo hi : Z) : result slice :=
  if (0 <=? lo) && (lo <=? hi) && (hi <=? cap_of s)
  then Ok (Slice (drop (Z.to_nat lo) (arr s)) (hi - lo))
  else Panic.

(** [make([]byte, n)]. A length that is no Go int panics; the memory
    ceiling of the runtime below that is not part of the model. *)
Definition make_bytes (n : Z) : result slice :=
  if (n <? 0) || (int_max <? n) then Panic
  else Ok (Slice (replicate (Z.to_nat n) Byte.x00) n).

(** [append(s, t...)]. When the capacity of [s] does not suffice, the
    runtime allocates an array of a capacity of its choosing,
    [growslice (cap s) needed], zeroed past the elements appended. *)
Definition append (growslice : Z → Z → Z) (s t : slice) : slice :=
  let needed := len s + len t in
  if needed <=? cap_of s
  then Slice (visible s ++ visible t ++ drop (Z.to_nat needed) (arr s)) needed
  else Slice (visible s ++ visible t
                ++ replicate (Z.to_nat (growslice (cap_of s) needed - needed)) Byte.x00)
             needed.

(** ** [math/big]

    A [*big.Int] is a [Z]. The functions of Go's standard library that
    the contracts call, on the values the contracts give them. *)

Definition byte_val (b : Byte.byte) : Z := Z.of_N (Byte.to_N b).

(** The byte of the low 8 bits. *)
Definition byte_of (z : Z) : Byte.byte :=
  default Byte.x00 (Byte.of_N (Z.to_N (z mod 256))).

(** [SetBytes]: the big-endian unsigned integer of a byte slice. *)
Definition SetBytes (buf : list Byte.byte) : Z :=
  fold_left (λ acc b, acc * 256 + byte_val b) buf 0.

Fixpoint Bytes_loop (fuel : nat) (x : Z) (acc : list Byte.byte) : list Byte.byte :=
  match fuel with
  | O => acc
  | S fuel => if x =? 0 then acc else Bytes_loop fuel (x / 256) (byte_of x :: acc)
  end.

(** [Bytes]: the absolute value as a big-endian byte slice, without
    leading zero bytes. *)
Definition Bytes (x : Z) : list Byte.byte :=
  Bytes_loop (S (Z.to_nat (Z.log2 (Z.abs x)))) (Z.abs x) [].

(** [Uint64]: the low 64 bits of the absolute value. *)
Definition Uint64 (x : Z) : Z := Z.abs x mod 2 ^ 64.

(** [Exp(x, y, m)] for [y >= 0]: [x**y mod |m|], and for [m] 0 the power
    [x**y] itself. A modulus bounds the numbers the call works on; the
    power itself the call can hold, and [Bytes] return, only when its
    bytes are no more than a slice has room for. *)
Definition Exp (x y m : Z) : result Z :=
  if m =? 0
  then (if Z.log2 (Z.abs (x ^ y)) <? 8 * int_max then Ok (x ^ y) else Panic)
  else Ok (x ^ y mod Z.abs m).

(** [Div(x, y)] for [y >= 0]: Euclidean division; panics on a zero
    divisor. *)
Definition Div (x y : Z) : result Z :=
  if y =? 0 then Panic else Ok (x / y).

(** ** Gas by the word *)

(** Go's [uint64] arithmetic wraps at 64 bits. *)
Definition uint64 (z : Z) : Z := z mod 2 ^ 64.

(** [uint64(len(input)+31)/32*wordGas + baseGas], the body shared by the
    [RequiredGas] methods of [sha256hash], [ripemd160hash] and
    [dataCopy]; the two constants come from the [params] package. *)
Definition words_gas (wordGas baseGas : Z) (input : slice) : Z :=
  uint64 (uint64 (uint64 (wrap (len input + 31)) / 32 * wordGas) + baseGas).

Module sha256hash.
Definition RequiredGas (Sha256WordGas Sha256Gas : Z) (input : slice) : Z :=
  words_gas Sha256WordGas Sha256Gas input.
End sha256hash.

Module ripemd160hash.
Definition RequiredGas (Ripemd160WordGas Ripemd160Gas : Z) (input : slice) : Z :=
  words_gas Ripemd160WordGas Ripemd160Gas input.
End ripemd160hash.

Module dataCopy.
Definition RequiredGas (IdentityWordGas IdentityGas : Z) (input : slice) : Z :=
  words_gas IdentityWordGas IdentityGas input.

Definition Run (input : slice) : slice * error := (input, None).
End dataCopy.

(** ** [bigModexp] *)

Module bigModexp.

(** [if len(input) < 3*32 { input = append(input, make([]byte, 3*32-len(input))...) }] *)
Definition pad_to (growslice : Z → Z → Z) (input : slice) (n : Z) : result slice :=
  if len input <? n
  then pad ← make_bytes (n - len input); Ok (append growslice input pad)
  else Ok input.

(** [RequiredGas]. [BigMax] is [math.BigMax] of the repository's
    [common/math] package and [QuadCoeffDiv] the constant of its
    [params] package. *)
Definition RequiredGas (growslice : Z → Z → Z) (BigMax : Z → Z → Z) (QuadCoeffDiv : Z)
    (input : slice) : result Z :=
  input ← pad_to growslice input (3 * 32);
  w ← reslice input 0 31;
  let baseLen := SetBytes (visible w) in
  w ← reslice input 32 64;
  let expLen := BigMax (SetBytes (visible w)) 1 in
  w ← reslice input 65 97;
  let modLen := SetBytes (visible w) in
  let x := BigMax baseLen modLen in
  let x := x * x in
  let x := x * expLen in
  x ← Div x (uint64 QuadCoeffDiv);
  Ok (Uint64 x).

(** [Run]. The lengths are [uint64]s; [uint64(len(input)) < baseLen]
    compares them as such. *)
Definition Run (growslice : Z → Z → Z) (input : slice)
  : result (list Byte.byte * error) :=
  input ← pad_to growslice input (3 * 32);
  w ← reslice input 0 32;
  let baseLen := Uint64 (SetBytes (visible w)) in
  w ← reslice input 32 64;
  let expLen := Uint64 (SetBytes (visible w)) in
  w ← reslice input 64 96;
  let modLen := Uint64 (SetBytes (visible w)) in
  input ← reslice input 96 (len input);
  input ← pad_to growslice input baseLen;
  w ← reslice input 0 baseLen;
  let base := SetBytes (visible w) in
  input ← reslice input baseLen (len input);
  input ← pad_to growslice input expLen;
  w ← reslice input 0 expLen;
  let exp := SetBytes (visible w) in
  input ← reslice input expLen (len input);
  input ← pad_to growslice input modLen;
  w ← reslice input 0 modLen;
  let mod_ := SetBytes (visible w) in
  z ← Exp base exp mod_;
  Ok (Bytes z, None).

End bigModexp.

(** * The vocabulary of the properties *)

(** ** Positions of the heap as a tree *)

Definition parent (k : Z) : Z := (k - 1) ÷ 2.

(** Exchange of two positions. *)
Definition transp (i j k : Z) : Z :=
  if k =? i then j else if k =? j then i else k.

(** ** Heap order on a key function

    [K k] stands for the pending count of the worker at position [k]. *)

Section HeapOrder.


Variable K : Z → Z.
Variable n : Z.

Definition ordered : Prop :=
  ∀ k, 0 < k < n → K (parent k) ≤ K k.

(** Order everywhere except around position [i]: the edges into and
    out of [i] are not required, but the parent of [i] is below the
    children of [i]. *)
Definition ordered_around (i : Z) : Prop :=
  (∀ k, 0 < k < n → k ≠ i → parent k ≠ i → K (parent k) ≤ K k) ∧
  (∀ k, 0 < k < n → parent k = i → 0 < i → K (parent i) ≤ K k).

Definition below_children (i : Z) : Prop :=
  ∀ k, 0 < k < n → parent k = i → K i ≤ K k.

End HeapOrder.

(** ** Heap order below a position

    What [heap.Init] has built when its loop has come down to [i]: every
    position whose parent is [i] or later is in order with its parent. *)

Definition ordered_from (K : Z → Z) (n i : Z) : Prop :=
  ∀ k, 0 < k < n → i ≤ parent k → K (parent k) ≤ K k.

(** The same, except around position [j] of the part from [i0] on. *)
Definition around_from (K : Z → Z) (n i0 j : Z) : Prop :=
  (∀ k, 0 < k < n → i0 ≤ parent k → k ≠ j → parent k ≠ j → K (parent k) ≤ K k) ∧
  (∀ k, 0 < k < n → parent k = j → i0 < j → K (parent j) ≤ K k).

(** ** The Pool as the heap sees it *)

(** What a heap operation must leave alone in a Worker. *)
Definition load (w : Worker) : Z * chan Task * Z := (id w, tasks w, pending w).

(** The pointer at a position of the backing array. *)
Definition ptr (p : Pool) (k : Z) : option addr :=
  if k <? 0 then None else p !! Z.to_nat k.

(** The pending count behind a pointer, and at a position. *)
Definition key (m : Mem) (a : addr) : Z := from_option pending 0 (m !! a).
Definition key_at (m : Mem) (p : Pool) (k : Z) : Z := from_option (key m) 0 (ptr p k).

(** Index consistency: the worker at position [k] has [index = k]. *)
Definition index_ok (m : Mem) (p : Pool) : Prop :=
  ∀ (k : nat) (a : addr), p !! k = Some a →
    ∃ w, m !! a = Some w ∧ index w = Z.of_nat k.

(** Heap order: the pending count at the parent of a non-root position is
    at most the pending count at that position. *)
Definition heap_ordered (m : Mem) (p : Pool) : Prop :=
  ordered (key_at m p) (Pool.Len p).

(** ** The balancer's view of its pool *)

Definition index_consistent (s : World) : Prop := index_ok (mem s) (pool (bal s)).
Definition heap_order (s : World) : Prop := heap_ordered (mem s) (pool (bal s)).

(** The pending count of the worker at an address. *)
Definition pending_of (s : World) (a : addr) : Z := key (mem s) a.

(** ** What [New] builds *)

(** Worker number [i] as [New] leaves it. *)
Definition fresh_worker (i : nat) : Worker :=
  MkWorker (Z.of_nat i) (Chan [] 5000) 0 (Z.of_nat i).

(** The world after [n] turns of the loop of [New]. *)
Definition fresh_world (n : nat) (d : chan addr) (wk : chan Task) : World :=
  MkWorld (fresh_worker <$> seq 0 n)
          (MkBalancer (seq 0 n) d wk)
          ((λ a, GoWork a BalancerWork None) <$> seq 0 n)
          [] [].

(** ** Checking the invariants on a concrete world *)

Fixpoint index_okb_from (m : Mem) (k : nat) (p : Pool) : bool :=
  match p with
  | [] => true
  | a :: p' =>
      match m !! a with
      | Some w => index w =? Z.of_nat k
      | None => false
      end && index_okb_from m (S k) p'
  end.

Definition index_okb (m : Mem) (p : Pool) : bool := index_okb_from m 0 p.

Definition heap_orderedb (m : Mem) (p : Pool) : bool :=
  forallb (λ k : nat, key_at m p (parent (Z.of_nat k)) <=? key_at m p (Z.of_nat k))
          (seq 1 (length p - 1)).

(** ** Loads as the dispatcher counts them *)

(** The pending count recorded at an address of a list of loads. *)
Definition pend (L : list (Z * chan Task * Z)) (a : addr) : Z :=
  from_option snd 0 (L !! a).

(** The sum of the pending counts over a pool. *)
Definition total (L : list (Z * chan Task * Z)) (p : Pool) : Z :=
  foldr (λ a acc, pend L a + acc) 0 p.

(** Ceiling of [a / b] for a positive [b]. *)
Definition ceil_div (a b : Z) : Z := (a + b - 1) / b.

(** All pending counts of the pool within one of each other. *)
Definition balanced (L : list (Z * chan Task * Z)) (p : Pool) : Prop :=
  ∃ q, ∀ a, a ∈ p → q ≤ pend L a ≤ q + 1.

(** ** Dispatching without completions *)

(** [dispatch] applied to the tasks of [ts] in turn. *)
Fixpoint dispatch_all (ts : list Task) (s : World) : result World :=
  match ts with
  | [] => Ok s
  | t :: ts' => s' ← dispatch t s; dispatch_all ts' s'
  end.

(** No worker of the pool has more pending than tasks in its channel, and
    channel capacities are Go ints. *)
Definition queued (L : list (Z * chan Task * Z)) (p : Pool) : Prop :=
  ∀ a i ch pe, a ∈ p → L !! a = Some (i, ch, pe) →
    0 ≤ pe ≤ Z.of_nat (length (buf ch)) ∧ cap ch ≤ int_max.

(** Every worker of the pool has room in its channel for as many more
    tasks as it is below [B] pending. *)
Definition roomy (B : Z) (L : list (Z * chan Task * Z)) (p : Pool) : Prop :=
  ∀ a i ch pe, a ∈ p → L !! a = Some (i, ch, pe) →
    Z.of_nat (length (buf ch)) + (B - pe) ≤ cap ch.

(** ** States the dispatcher can reach *)

(** From [s0], by dispatch steps and completion steps for workers of the
    balancer, each step taken to its end. *)
Inductive reachable (s0 : World) : World → Prop :=
| reach_start : reachable s0 s0
| reach_dispatch s t s' :
    reachable s0 s → dispatch t s = Ok s' → reachable s0 s'
| reach_completed s w s' :
    reachable s0 s → (w < length (mem s))%nat → completed w s = Ok s' →
    reachable s0 s'.

(** Between steps every worker is in the pool, once each. *)
Definition all_pooled (s : World) : Prop :=
  pool (bal s) ≡ₚ seq 0 (length (mem s)).

(** ** The goroutines of the workers *)

(** What a task writes on its return channel when its function is called:
    nothing when the call never returns. *)
Definition outcome (t : Task) : option (chan_id * error) :=
  (λ e, (c t, e)) <$> fn t.

Definition outcomes (q : list Task) : list (chan_id * error) := omap outcome q.

(** The values written so far on one return channel. *)
Definition written_on (ch : chan_id) (log : list (chan_id * error)) : list error :=
  snd <$> filter (λ x, x.1 = ch) log.

(** The task a goroutine is in the middle of. *)
Definition running (g : Goroutine) : option Task :=
  match g with
  | GoWork _ _ task => task
  | GoBalance _ => None
  end.


(** Every goroutine is a worker started on [balancer.work]. *)
Definition on_work_queue (s : World) : Prop :=
  ∀ g, g ∈ goroutines s → ∃ w task, g = GoWork w BalancerWork task.

(** The values a return channel can take before a sender parks: none
    when it is closed or [nil]. *)
Definition room_of (rs : list ReturnChan) (ch : chan_id) : nat :=
  match rs !! ch with
  | Some (Open k) => k
  | _ => 0%nat
  end.

Definition room_at (s : World) (ch : chan_id) : nat := room_of (returns s) ch.

(** How many values the tasks of [q] will write on the channel [ch]: one
    for each task that names it and whose function returns. *)
Definition due (ch : chan_id) (q : list Task) : nat :=
  length (written_on ch (outcomes q)).

(** The return channels can take what the tasks of [q] will write. *)
Definition takes_all (s : World) (q : list Task) : Prop :=
  ∀ ch, (due ch q ≤ room_at s ch)%nat.

(** A task that cannot keep the worker that takes it, when the tasks of
    [q] are those that may write before it has written: its function
    returns, and its return channel has room for all the values the
    tasks of [q] are to write on it. *)
Definition sure (s : World) (q : list Task) (u : Task) : Prop :=
  is_Some (fn u) ∧ (due (c u) q ≤ room_at s (c u))%nat.

#[global] Instance sure_dec (s : World) (q : list Task) (u : Task) : Decision (sure s q u).
Proof. unfold sure. apply _. Defined.

(** A goroutine that is not kept, [P] telling the tasks that cannot keep
    a worker: it holds no task, or one of those. *)
Definition not_kept (P : Task → Prop) (g : Goroutine) : Prop :=
  from_option P True (running g).

#[global] Instance not_kept_dec (P : Task → Prop) `{∀ u, Decision (P u)} (g : Goroutine) :
  Decision (not_kept P g).
Proof. unfold not_kept. destruct (running g); apply _. Defined.




(** ** Sequences of operations *)

(** [Push] applied to the tasks of [ts] in turn, no goroutine running in
    between. *)
Fixpoint push_all (ts : list Task) (s : World) : result World :=
  match ts with
  | [] => Ok s
  | t :: ts' => s' ← Push t s; push_all ts' s'
  end.

(** Turns of the loop of [Balancer.balance], one after the other: the
    [k]-th turn takes the [work] case of the [select] when the [k]-th
    element of [fws] is [true], the [done] case otherwise. *)
Fixpoint balance_all (r : chan_ref) (fws : list bool) (s : World) : result World :=
  match fws with
  | [] => Ok s
  | fw :: fws' => s' ← balance r fw s; balance_all r fws' s'
  end.

(** How many turns of [fws] took the case [b]. *)
Definition turns_of (b : bool) (fws : list bool) : nat :=
  length (filter (λ x, x = b) fws).

(** The pending counts of the pool, summed. *)
Definition total_pending (s : World) : Z := total (load <$> mem s) (pool (bal s)).

(** The tasks waiting on the channel a goroutine was started on. *)
Definition queue_of (r : chan_ref) (s : World) : option (list Task) :=
  match r with
  | BalancerWork => Some (buf (work (bal s)))
  | WorkerTasks a => (buf ∘ tasks) <$> (mem s !! a)
  end.

(** [k] turns of the loop of [Worker.work] on the channel [r], by one
    worker. *)
Fixpoint work_turns (r : chan_ref) (k : nat) (s : World) : result World :=
  match k with
  | O => Ok s
  | S k => s' ← Worker_work r s; work_turns r k s'
  end.

(** The tasks of [ts] that went to the worker [a], when the [k]-th task
    went to the [k]-th worker of [ws]. *)
Definition assigned (ts : list Task) (ws : list addr) (a : addr) : list Task :=
  fst <$> filter (λ x, x.2 = a) (zip ts ws).

(** ** The input of [bigModexp] *)

(** [n] zero bytes. *)
Definition zeros (n : nat) : list Byte.byte := replicate n Byte.x00.

(** A byte string extended with zero bytes to [n] bytes, when shorter. *)
Definition padded (n : nat) (v : list Byte.byte) : list Byte.byte :=
  v ++ zeros (n - length v).

(** A length as the 32-byte big-endian word of the input's header. *)
Definition word32 (n : Z) : list Byte.byte :=
  zeros (32 - length (Bytes n)) ++ Bytes n.

(** A slice whose length is within its capacity. *)
Definition slice_ok (s : slice) : Prop := 0 ≤ len s ≤ cap_of s.

(** The operand of declared length [n] as [Run] reads it off the
    remaining input [v]: the next [n] bytes, zero bytes standing in for
    those the input lacks, and what remains after them. Nothing when the
    bytes lacking are more than a slice can hold. *)
Definition read_operand (n : Z) (v : list Byte.byte)
  : option (list Byte.byte * list Byte.byte) :=
  if int_max <? n - Z.of_nat (length v) then None
  else
    let p := padded (Z.to_nat n) v in
    Some (take (Z.to_nat n) p, drop (Z.to_nat n) p).

(** The three operands of [Run]: base, exponent and modulus. *)
Definition operands (v : list Byte.byte)
  : option (list Byte.byte * list Byte.byte * list Byte.byte) :=
  let h := padded 96 v in
  let baseLen := Uint64 (SetBytes (take 32 h)) in
  let expLen := Uint64 (SetBytes (take 32 (drop 32 h))) in
  let modLen := Uint64 (SetBytes (take 32 (drop 64 h))) in
  '(B, d) ← read_operand baseLen (drop 96 h);
  '(E, d) ← read_operand expLen d;
  '(M, d) ← read_operand modLen d;
  Some (B, E, M).

(** The input that declares the lengths of [B], [E] and [M] and carries
    them, followed by the bytes [T]. *)
Definition modexp_input (B E M T : list Byte.byte) : list Byte.byte :=
  word32 (Z.of_nat (length B)) ++ word32 (Z.of_nat (length E))
    ++ word32 (Z.of_nat (length M)) ++ B ++ E ++ M ++ T.

(** ** Sample worlds *)

(** A task whose function returns an error, and one whose function never
    returns. *)
Definition failing_task : Task := NewTask (Some (Some "boom"%string)) 7%nat.
Definition endless_task : Task := NewTask None 8%nat.

(** A task whose function returns [nil]. *)
Definition quick_task : Task := NewTask (Some None) 9%nat.

(** What [New 3] returns. *)
Definition three_workers : World := fresh_world 3 (Chan [] 3) (Chan [] 30).

(** [three_workers] after four dispatches. *)
Definition busy_workers : World :=
  Eval vm_compute in
    match dispatch_all [failing_task; failing_task; endless_task; failing_task] three_workers with
    | Ok s => s
    | _ => three_workers
    end.

(** [three_workers] after one dispatch. *)
Definition one_dispatched : World :=
  Eval vm_compute in
    match dispatch failing_task three_workers with
    | Ok s => s
    | _ => three_workers
    end.

(** Seven tasks. *)
Definition seven_tasks : list Task :=
  [failing_task; failing_task; endless_task; failing_task;
   endless_task; failing_task; failing_task].

(** [three_workers] after the seven tasks have been dispatched. *)
Definition seven_dispatched : World :=
  Eval vm_compute in
    match dispatch_all seven_tasks three_workers with
    | Ok s => s
    | _ => three_workers
    end.

(** Return channels for the sample tasks: those of the names 7, 8 and 9
    can take one value each, those of the names below 7 none. *)
Definition sample_returns : list ReturnChan :=
  replicate 7 (Open 0) ++ [Open 1; Open 1; Open 1].

(** A balancer of one worker after three dispatches: a task that returns
    [nil], one that fails and one that never returns are in the worker's
    own channel; the submitters' channels are ready. *)
Definition one_worker_loaded : World :=
  Eval vm_compute in
    match s0 ← New 1;
          dispatch_all [quick_task; failing_task; endless_task]
                       (set_returns s0 sample_returns) with
    | Ok s => s
    | _ => three_workers
    end.

(** What [New 0] returns. *)
Definition no_workers : World :=
  MkWorld [] (MkBalancer [] (Chan [] 0) (Chan [] 0)) [] [] [].

(** A worker in the store of a balancer whose pool is empty. *)
Definition stray_worker : World :=
  MkWorld [fresh_worker 0] (MkBalancer [] (Chan [] 0) (Chan [] 0)) [] [] [].

(** A balancer of two workers, and a third worker that is not in its
    pool, with 1 in its [index] field. *)
Definition third_wheel : World :=
  MkWorld [fresh_worker 0; fresh_worker 1; MkWorker 2 (Chan [] 5000) 0 1]
          (MkBalancer [0%nat; 1%nat] (Chan [] 2) (Chan [] 20)) [] [] [].

(** A balancer of three workers with a dispatcher, two tasks on [work]
    and worker 1 on [done]. *)
Definition dispatcher_world : World :=
  MkWorld (mem three_workers)
          (MkBalancer (pool (bal three_workers)) (Chan [1%nat] 3)
                      (Chan [quick_task; failing_task] 30))
          [GoBalance BalancerWork] [] [].

(** [dispatcher_world] after a dispatch, a completion and a dispatch. *)
Definition dispatcher_after : World :=
  Eval vm_compute in
    match balance_all BalancerWork [true; false; true] dispatcher_world with
    | Ok s => s
    | _ => dispatcher_world
    end.

(** A balancer of two workers with one failing task pushed, the
    submitters' channels ready. *)
Definition one_failure_queued : World :=
  Eval vm_compute in
    match s0 ← New 2; Push failing_task (set_returns s0 sample_returns) with
    | Ok s => s
    | _ => no_workers
    end.

(** [one_failure_queued] after a worker's turn. *)
Definition one_failure_done : World :=
  Eval vm_compute in
    match Worker_work BalancerWork one_failure_queued with
    | Ok s => s
    | _ => no_workers
    end.




(** ** Sample inputs of [bigModexp] *)

(** Bytes from their values. *)
Definition bytes_of (l : list Z) : list Byte.byte := byte_of <$> l.

(** The operands 3, 5 and 7, one byte each, and a byte that follows. *)
Definition sample_base : list Byte.byte := bytes_of [3].
Definition sample_exp : list Byte.byte := bytes_of [5].
Definition sample_mod : list Byte.byte := bytes_of [7].
Definition sample_tail : list Byte.byte := bytes_of [9].

(** The input for [3^5 mod 7], in a slice without spare capacity. *)
Definition modexp_3_5_7 : slice :=
  slice_of (modexp_input sample_base sample_exp sample_mod sample_tail).

(** The input for [3^5 mod 1792], the modulus in the two bytes 7 and 0,
    whole and with its last byte cut off. *)
Definition modexp_whole : slice :=
  slice_of (modexp_input sample_base sample_exp (bytes_of [7; 0]) []).
Definition modexp_cut_short : slice :=
  slice_of (take 99 (modexp_input sample_base sample_exp (bytes_of [7; 0]) [])).

(** A header declaring three lengths of 1 and nothing after it, in a
    slice without spare capacity. *)
Definition modexp_header_only : slice :=
  slice_of (word32 1 ++ word32 1 ++ word32 1).

(** The same header in an array of 97 bytes whose last byte, outside the
    slice, is 200. *)
Definition modexp_header_reused : slice :=
  Slice (word32 1 ++ word32 1 ++ word32 1 ++ bytes_of [200]) 96.

(** Five workers with the pending counts 5, 3, 4, 1 and 2, in a pool
    that is not in heap order. *)
Definition unordered_mem : Mem :=
  [MkWorker 0 (Chan [] 5000) 5 0; MkWorker 1 (Chan [] 5000) 3 1;
   MkWorker 2 (Chan [] 5000) 4 2; MkWorker 3 (Chan [] 5000) 1 3;
   MkWorker 4 (Chan [] 5000) 2 4].
Definition unordered_pool : Pool := [0; 1; 2; 3; 4]%nat.

(** * Proofs *)

(** ** Results and integers *)

Lemma bind_Ok {A B : Type} (r : result A) (f : A → result B) (b : B) :
  r ≫= f = Ok b → ∃ a, r = Ok a ∧ f a = Ok b.
Proof. destruct r; cbn; intros; try discriminate. eauto. Qed.

Lemma bind_Ok_l {A B : Type} (a : A) (f : A → result B) : Ok a ≫= f = f a.
Proof. reflexivity. Qed.

Ltac ok_bind := rewrite ?bind_Ok_l; cbv beta iota.

Lemma wrap_id (z : Z) : int_min ≤ z ≤ int_max → wrap z = z.
Proof.
  unfold int_min, int_max, wrap. intros H.
  rewrite Z.mod_small; lia.
Qed.

Lemma wrap_range (z : Z) : int_min ≤ wrap z ≤ int_max.
Proof.
  unfold int_min, int_max, wrap.
  pose proof (Z.mod_pos_bound (z + 2 ^ 63) (2 ^ 64)). lia.
Qed.

(** ** Positions and heap order *)

Lemma parent_spec (k q : Z) : 0 < k → parent k = q ↔ 2 * q + 1 ≤ k ≤ 2 * q + 2.
Proof.
  intros Hk. unfold parent.
  rewrite Z.quot_div_nonneg by lia.
  split; intros H.
  - subst q. pose proof (Z.div_mod (k - 1) 2). pose proof (Z.mod_pos_bound (k - 1) 2). lia.
  - symmetry. apply (Z.div_unique _ _ _ (k - 1 - 2 * q)); lia.
Qed.

Lemma parent_0 : parent 0 = 0.
Proof. reflexivity. Qed.

Lemma parent_lt (k : Z) : 0 < k → 0 ≤ parent k < k.
Proof.
  intros Hk. destruct (parent_spec k (parent k) Hk) as [H _].
  specialize (H eq_refl). lia.
Qed.

Section HeapOrderFacts.

Variable K : Z → Z.
Variable n : Z.

Lemma ordered_ordered_around (i : Z) : ordered K n → ordered_around K n i.
Proof.
  intros H. split; intros k Hk.
  - intros _ _. by apply H.
  - intros <- Hi. etrans; [apply H | apply H]; [|done].
    pose proof (parent_lt k). lia.
Qed.

Lemma ordered_around_ordered (i : Z) :
  ordered_around K n i → below_children K n i →
  (0 < i < n → K (parent i) ≤ K i) → ordered K n.
Proof.
  intros [H1 H2] Hc Hp k Hk.
  destruct (decide (k = i)) as [->|Hki]; [by apply Hp|].
  destruct (decide (parent k = i)) as [<-|Hpi]; [by apply Hc|].
  by apply H1.
Qed.

(** The root is a minimum. *)
Lemma ordered_root_min : ordered K n → ∀ k, 0 ≤ k < n → K 0 ≤ K k.
Proof.
  intros H k Hk.
  assert (Hgen : ∀ b : nat, ∀ k, 0 ≤ k < n → k ≤ Z.of_nat b → K 0 ≤ K k).
  { clear k Hk. induction b as [|b IH]; intros k Hk Hb.
    - assert (k = 0) as -> by lia. done.
    - destruct (decide (k = 0)) as [->|Hk0]; [done|].
      etrans; [|apply H; lia].
      pose proof (parent_lt k). apply IH; lia. }
  apply (Hgen (Z.to_nat k)); lia.
Qed.

End HeapOrderFacts.

(** One step of [up]: the element at [j] is smaller than its parent and is
    exchanged with it. *)
Lemma ordered_around_up (K : Z → Z) (n j : Z) :
  0 < j < n →
  ordered_around K n j → below_children K n j →
  K j < K (parent j) →
  ordered_around (λ k, K (transp (parent j) j k)) n (parent j) ∧
  below_children (λ k, K (transp (parent j) j k)) n (parent j).
Proof.
  intros Hj [H1 H2] Hc Hlt.
  pose proof (parent_lt j ltac:(lia)) as Hpj.
  assert (Ht : ∀ k, k ≠ j → k ≠ parent j → transp (parent j) j k = k).
  { intros k ? ?. unfold transp.
    destruct (Z.eqb_spec k (parent j)); [done|]. destruct (Z.eqb_spec k j); done. }
  assert (Hti : transp (parent j) j (parent j) = j).
  { unfold transp. by rewrite Z.eqb_refl. }
  assert (Htj : transp (parent j) j j = parent j).
  { unfold transp. destruct (Z.eqb_spec j (parent j)); [lia|]. by rewrite Z.eqb_refl. }
  split; [split|].
  - intros k Hk Hki Hpki.
    destruct (decide (k = j)) as [->|Hkj]; [done|].
    rewrite (Ht k) by done.
    destruct (decide (parent k = j)) as [Hpk|Hpk].
    + rewrite Hpk, Htj. apply H2; [done..|lia].
    + rewrite Ht by done. by apply H1.
  - intros k Hk Hpk Hi.
    pose proof (parent_lt (parent j) Hi).
    rewrite (Ht (parent (parent j))) by lia.
    destruct (decide (k = j)) as [->|Hkj].
    + rewrite Htj. apply H1; lia.
    + rewrite (Ht k) by (pose proof (parent_lt k); lia).
      pose proof (H1 (parent j) ltac:(lia) ltac:(lia) ltac:(lia)).
      pose proof (H1 k Hk Hkj ltac:(lia)) as Hs. rewrite Hpk in Hs. lia.
  - intros k Hk Hpk. rewrite Hti.
    destruct (decide (k = j)) as [->|Hkj].
    + rewrite Htj. lia.
    + rewrite (Ht k) by (pose proof (parent_lt k); lia).
      pose proof (H1 k Hk Hkj ltac:(lia)) as Hs. rewrite Hpk in Hs. lia.
Qed.

(** One step of [down]: the smaller child [j] of [i] is smaller than the
    element at [i] and is exchanged with it. *)
Lemma ordered_around_down (K : Z → Z) (n i j : Z) :
  0 ≤ i → 0 < j < n → parent j = i →
  ordered_around K n i →
  (∀ k, 0 < k < n → parent k = i → K j ≤ K k) →
  K j < K i →
  ordered_around (λ k, K (transp i j k)) n j ∧
  K (transp i j (parent j)) ≤ K (transp i j j).
Proof.
  intros Hi Hj Hpj [H1 H2] Hmin Hlt.
  pose proof (parent_lt j ltac:(lia)) as Hpj'. rewrite Hpj in *.
  assert (Ht : ∀ k, k ≠ j → k ≠ i → transp i j k = k).
  { intros k ? ?. unfold transp.
    destruct (Z.eqb_spec k i); [done|]. destruct (Z.eqb_spec k j); done. }
  assert (Hti : transp i j i = j).
  { unfold transp. by rewrite Z.eqb_refl. }
  assert (Htj : transp i j j = i).
  { unfold transp. destruct (Z.eqb_spec j i); [lia|]. by rewrite Z.eqb_refl. }
  split; [split|].
  - intros k Hk Hkj Hpkj.
    destruct (decide (k = i)) as [->|Hki].
    + rewrite Hti.
      pose proof (parent_lt i ltac:(lia)).
      rewrite Ht by lia. apply H2; [done..|lia].
    + rewrite (Ht k) by done.
      destruct (decide (parent k = i)) as [Hpk|Hpk].
      * rewrite Hpk, Hti. by apply Hmin.
      * rewrite Ht by done. by apply H1.
  - intros k Hk Hpk _. rewrite Hpj, Hti.
    pose proof (parent_lt k ltac:(lia)).
    rewrite Ht by lia.
    pose proof (H1 k Hk ltac:(lia) ltac:(lia)) as Hs. by rewrite Hpk in Hs.
  - rewrite Hti, Htj. lia.
Qed.

(** ** Pointers and positions of the pool *)

Lemma ptr_Some (p : Pool) (k : Z) (a : addr) :
  ptr p k = Some a ↔ 0 ≤ k ∧ p !! Z.to_nat k = Some a.
Proof.
  unfold ptr. destruct (Z.ltb_spec k 0); split; intros H'; try done; try lia.
  by destruct H'.
Qed.

Lemma ptr_is_Some (p : Pool) (k : Z) :
  0 ≤ k < Pool.Len p → is_Some (ptr p k).
Proof.
  unfold Pool.Len, ptr. intros Hk.
  destruct (Z.ltb_spec k 0); [lia|].
  apply lookup_lt_is_Some. lia.
Qed.

Lemma ptr_range (p : Pool) (k : Z) (a : addr) :
  ptr p k = Some a → 0 ≤ k < Pool.Len p.
Proof.
  rewrite ptr_Some. intros [? H%lookup_lt_Some]. unfold Pool.Len. lia.
Qed.

Lemma ptr_of_nat (p : Pool) (k : nat) : ptr p (Z.of_nat k) = p !! k.
Proof.
  unfold ptr. destruct (Z.ltb_spec (Z.of_nat k) 0); [lia|]. by rewrite Nat2Z.id.
Qed.

Lemma at_ptr (p : Pool) (k : Z) (a : addr) : ptr p k = Some a → at_ p k = Ok a.
Proof.
  unfold at_, ptr. destruct (k <? 0); [done|]. by intros ->.
Qed.

Lemma at_Ok (p : Pool) (k : Z) (a : addr) : at_ p k = Ok a → ptr p k = Some a.
Proof.
  unfold at_, ptr. destruct (k <? 0); [done|].
  destruct (p !! Z.to_nat k); [|done]. by intros [= ->].
Qed.

Lemma deref_Some (m : Mem) (a : addr) (w : Worker) : m !! a = Some w → deref m a = Ok w.
Proof. unfold deref. by intros ->. Qed.

Lemma index_ok_ptr (m : Mem) (p : Pool) (k : Z) (a : addr) :
  index_ok m p → ptr p k = Some a → ∃ w, m !! a = Some w ∧ index w = k.
Proof.
  intros Hok [Hk Ha]%ptr_Some.
  destruct (Hok _ _ Ha) as (w & Hw & Hi). exists w. split; [done|]. lia.
Qed.

(** Index consistency leaves no room for a pointer at two positions. *)
Lemma index_ok_inj (m : Mem) (p : Pool) (k1 k2 : Z) (a : addr) :
  index_ok m p → ptr p k1 = Some a → ptr p k2 = Some a → k1 = k2.
Proof.
  intros Hok H1 H2.
  destruct (index_ok_ptr _ _ _ _ Hok H1) as (w1 & Hw1 & <-).
  destruct (index_ok_ptr _ _ _ _ Hok H2) as (w2 & Hw2 & <-).
  congruence.
Qed.

Lemma index_ok_NoDup (m : Mem) (p : Pool) : index_ok m p → NoDup p.
Proof.
  intros Hok. apply NoDup_alt. intros k1 k2 a H1 H2.
  rewrite <- ptr_of_nat in H1, H2.
  pose proof (index_ok_inj _ _ _ _ _ Hok H1 H2). lia.
Qed.

Lemma load_lookup (m m' : Mem) (a : addr) :
  load <$> m' = load <$> m → load <$> (m' !! a) = load <$> (m !! a).
Proof. intros H. by rewrite <- !list_lookup_fmap, H. Qed.

Lemma load_key (m m' : Mem) (a : addr) :
  load <$> m' = load <$> m → key m' a = key m a.
Proof.
  intros H%(load_lookup _ _ a). unfold key.
  destruct (m' !! a) as [w'|], (m !! a) as [w|]; try done.
  cbn in *. unfold load in H. congruence.
Qed.

Lemma load_length (m m' : Mem) : load <$> m' = load <$> m → length m' = length m.
Proof. intros H. by rewrite <- (length_fmap load m'), H, length_fmap. Qed.

Lemma load_set_index (m : Mem) (a : addr) (w : Worker) (k : Z) :
  m !! a = Some w → load <$> (<[a := set_index w k]> m) = load <$> m.
Proof.
  intros Hw. rewrite list_fmap_insert.
  apply list_insert_id. by rewrite list_lookup_fmap, Hw.
Qed.

(** ** [Less] and [Swap] *)

Lemma Less_spec (m : Mem) (p : Pool) (i j : Z) :
  index_ok m p → 0 ≤ i < Pool.Len p → 0 ≤ j < Pool.Len p →
  Pool.Less m p i j = Ok (key_at m p i <? key_at m p j).
Proof.
  intros Hok Hi Hj.
  destruct (ptr_is_Some p i Hi) as [ai Hai], (ptr_is_Some p j Hj) as [aj Haj].
  destruct (index_ok_ptr _ _ _ _ Hok Hai) as (wi & Hwi & _).
  destruct (index_ok_ptr _ _ _ _ Hok Haj) as (wj & Hwj & _).
  unfold Pool.Less, key_at, key.
  rewrite (at_ptr _ _ _ Hai), (at_ptr _ _ _ Haj), Hai, Haj. cbn.
  rewrite (deref_Some _ _ _ Hwi). cbn. rewrite (deref_Some _ _ _ Hwj). cbn.
  by rewrite Hwi, Hwj.
Qed.

Lemma transp_cases (i j k : Z) :
  (k = i ∧ transp i j k = j) ∨
  (k ≠ i ∧ k = j ∧ transp i j k = i) ∨
  (k ≠ i ∧ k ≠ j ∧ transp i j k = k).
Proof.
  unfold transp. destruct (Z.eqb_spec k i); [by left|].
  destruct (Z.eqb_spec k j); right; [by left|by right].
Qed.

Lemma transp_invol (i j k : Z) : transp i j (transp i j k) = k.
Proof.
  destruct (transp_cases i j k) as [[-> ->]|[(? & -> & ->)|(? & ? & ->)]].
  - destruct (transp_cases i j j) as [[-> ->]|[(? & _ & ->)|(? & ? & ->)]]; done.
  - destruct (transp_cases i j i) as [[_ ->]|[(? & _ & ->)|(? & ? & ->)]]; done.
  - destruct (transp_cases i j k) as [[-> ->]|[(? & -> & ->)|(? & ? & ->)]]; done.
Qed.

(** [Swap] exchanges two positions and keeps the [index] fields in step. *)
Lemma Swap_spec (m : Mem) (p : Pool) (i j : Z) :
  index_ok m p → 0 ≤ i < Pool.Len p → 0 ≤ j < Pool.Len p →
  ∃ m' p', Pool.Swap m p i j = Ok (m', p') ∧
    load <$> m' = load <$> m ∧
    index_ok m' p' ∧
    length p' = length p ∧
    ∀ k, ptr p' k = ptr p (transp i j k).
Proof.
  intros Hok Hi Hj.
  destruct (ptr_is_Some p i Hi) as [ai Hai], (ptr_is_Some p j Hj) as [aj Haj].
  destruct (index_ok_ptr _ _ _ _ Hok Hai) as (wi & Hwi & Hii).
  destruct (index_ok_ptr _ _ _ _ Hok Haj) as (wj & Hwj & Hij).
  pose proof (lookup_lt_Some _ _ _ Hwi) as Hlai.
  pose proof (lookup_lt_Some _ _ _ Hwj) as Hlaj.
  set (m1 := <[ai := set_index wi j]> m).
  assert (∃ wj', m1 !! aj = Some wj') as [wj' Hwj'].
  { apply lookup_lt_is_Some. unfold m1. by rewrite length_insert. }
  set (m2 := <[aj := set_index wj' i]> m1).
  set (p' := <[Z.to_nat j := ai]> (<[Z.to_nat i := aj]> p)).
  assert (Hptr : ∀ k, ptr p' k = ptr p (transp i j k)).
  { intros k. unfold Pool.Len in *.
    destruct (transp_cases i j k) as [[-> ->]|[(? & -> & ->)|(? & ? & ->)]].
    - rewrite Haj. apply ptr_Some. split; [lia|]. unfold p'.
      destruct (decide (j = i)) as [->|].
      + rewrite list_lookup_insert_eq by (rewrite length_insert; lia). congruence.
      + rewrite list_lookup_insert_ne by lia.
        apply list_lookup_insert_eq. lia.
    - rewrite Hai. apply ptr_Some. split; [lia|]. unfold p'.
      apply list_lookup_insert_eq. rewrite length_insert. lia.
    - unfold ptr. destruct (Z.ltb_spec k 0); [done|]. unfold p'.
      rewrite !list_lookup_insert_ne by lia. done. }
  exists m2, p'. split; [|split; [|split; [|split]]]; [| | | |done].
  - unfold Pool.Swap.
    rewrite (at_ptr _ _ _ Hai), (at_ptr _ _ _ Haj). cbn.
    rewrite (deref_Some _ _ _ Hwi). cbn.
    fold m1. rewrite (deref_Some _ _ _ Hwj'). done.
  - unfold m2. rewrite (load_set_index _ _ _ _ Hwj').
    unfold m1. by apply load_set_index.
  - intros k a Ha. rewrite <- ptr_of_nat, Hptr in Ha.
    destruct (transp_cases i j (Z.of_nat k)) as [[Hk Ht]|[(Hki & Hk & Ht)|(Hki & Hkj & Ht)]];
      rewrite Ht in Ha.
    + assert (a = aj) as -> by congruence.
      exists (set_index wj' i). split; [|by rewrite <- Hk].
      unfold m2. apply list_lookup_insert_eq. unfold m1. by rewrite length_insert.
    + assert (a = ai) as -> by congruence.
      assert (ai ≠ aj).
      { intros ->. pose proof (index_ok_inj _ _ _ _ _ Hok Hai Haj). lia. }
      exists (set_index wi j). split; [|by rewrite <- Hk].
      unfold m2. rewrite list_lookup_insert_ne by done.
      unfold m1. by apply list_lookup_insert_eq.
    + assert (a ≠ ai).
      { intros ->. pose proof (index_ok_inj _ _ _ _ _ Hok Hai Ha). lia. }
      assert (a ≠ aj).
      { intros ->. pose proof (index_ok_inj _ _ _ _ _ Hok Haj Ha). lia. }
      destruct (index_ok_ptr _ _ _ _ Hok Ha) as (w & Hw & Hiw).
      exists w. split; [|done].
      unfold m2, m1. by rewrite !list_lookup_insert_ne.
  - unfold p'. by rewrite !length_insert.
Qed.

Lemma ptr_elem_of (p : Pool) (a : addr) : a ∈ p ↔ ∃ k, ptr p k = Some a.
Proof.
  rewrite list_elem_of_lookup. split.
  - intros [k Hk]. exists (Z.of_nat k). by rewrite ptr_of_nat.
  - intros [k [_ Hk]%ptr_Some]. eauto.
Qed.

(** Two index-consistent arrays whose positions correspond under an
    involution hold the same workers. *)
Lemma ptr_Permutation (m m' : Mem) (p p' : Pool) (f : Z → Z) :
  index_ok m p → index_ok m' p' →
  (∀ k, f (f k) = k) → (∀ k, ptr p' k = ptr p (f k)) →
  p' ≡ₚ p.
Proof.
  intros Hok Hok' Hf Hptr.
  apply NoDup_Permutation; [by eapply index_ok_NoDup..|].
  intros a. rewrite !ptr_elem_of. split; intros [k Hk].
  - exists (f k). by rewrite <- Hptr.
  - exists (f k). by rewrite Hptr, Hf.
Qed.

Lemma key_at_ptr (m m' : Mem) (p p' : Pool) (f : Z → Z) :
  load <$> m' = load <$> m → (∀ k, ptr p' k = ptr p (f k)) →
  ∀ k, key_at m' p' k = key_at m p (f k).
Proof.
  intros Hl Hptr k. unfold key_at. rewrite Hptr.
  destruct (ptr p (f k)); [|done]. cbn. by apply load_key.
Qed.

Lemma ordered_ext (K K' : Z → Z) (n : Z) :
  (∀ k, K' k = K k) → ordered K n → ordered K' n.
Proof. intros HK H k Hk. rewrite !HK. by apply H. Qed.

Lemma ordered_around_ext (K K' : Z → Z) (n i : Z) :
  (∀ k, K' k = K k) → ordered_around K n i → ordered_around K' n i.
Proof.
  intros HK [H1 H2]. split; intros k Hk; rewrite !HK; [by apply H1|by apply H2].
Qed.

Lemma below_children_ext (K K' : Z → Z) (n i : Z) :
  (∀ k, K' k = K k) → below_children K n i → below_children K' n i.
Proof. intros HK H k Hk Hp. rewrite !HK. by apply H. Qed.

Lemma ordered_mono (K : Z → Z) (n n' : Z) : n' ≤ n → ordered K n → ordered K n'.
Proof. intros Hn H k Hk. apply H. lia. Qed.

(** ** [up] and [down] restore the order *)

(** [up] from position [j], when the only edge that may be out of order
    among the first [n] positions is the one from [j] to its parent. *)
Lemma up_loop_spec (n : Z) (fuel : nat) :
  ∀ (m : Mem) (p : Pool) (j : Z),
    index_ok m p → n ≤ Pool.Len p → 0 ≤ j < n → (Z.to_nat j < fuel)%nat →
    ∃ m' p', heap.up_loop fuel m p j = Ok (m', p') ∧
      load <$> m' = load <$> m ∧
      index_ok m' p' ∧
      p' ≡ₚ p ∧
      (∀ k, j < k → ptr p' k = ptr p k) ∧
      (ordered_around (key_at m p) n j → below_children (key_at m p) n j →
       ordered (key_at m' p') n).
Proof.
  induction fuel as [|fuel IH]; intros m p j Hok Hn Hj Hfuel; [lia|].
  cbn [heap.up_loop]. fold (parent j).
  destruct (Z.eqb_spec (parent j) j) as [Hpj|Hpj].
  { exists m, p. split; [done|]. split; [done|]. split; [done|].
    split; [done|]. split; [done|]. intros Har Hbc.
    apply (ordered_around_ordered _ _ j); [done..|].
    intros Hj'. pose proof (parent_lt j). lia. }
  assert (0 < j) as Hj0.
  { destruct (decide (j = 0)) as [->|]; [by rewrite parent_0 in Hpj|lia]. }
  pose proof (parent_lt j Hj0) as Hpar.
  rewrite Less_spec by (done || lia). cbn.
  destruct (Z.ltb_spec (key_at m p j) (key_at m p (parent j))) as [Hlt|Hge]; cbn.
  2:{ exists m, p. split; [done|]. split; [done|]. split; [done|].
      split; [done|]. split; [done|]. intros Har Hbc.
      by apply (ordered_around_ordered _ _ j). }
  destruct (Swap_spec m p (parent j) j Hok) as (m1 & p1 & -> & Hl1 & Hok1 & Hlen1 & Hptr1);
    [lia..|]. cbn.
  pose proof (key_at_ptr _ _ _ _ _ Hl1 Hptr1) as HK1.
  destruct (IH m1 p1 (parent j)) as (m' & p' & -> & Hl' & Hok' & Hperm' & Hptr' & Hord');
    [done| |lia|lia|].
  { unfold Pool.Len in *. lia. }
  exists m', p'. split; [done|]. split; [congruence|]. split; [done|].
  split; [|split].
  - etrans; [done|]. eapply ptr_Permutation; [done..|apply transp_invol|done].
  - intros k Hk. rewrite Hptr' by lia. rewrite Hptr1.
    destruct (transp_cases (parent j) j k) as [[? ?]|[(? & ? & ?)|(? & ? & ->)]]; [lia..|done].
  - intros Har Hbc.
    destruct (ordered_around_up _ n j ltac:(lia) Har Hbc Hlt) as [Har1 Hbc1].
    apply Hord'; [exact (ordered_around_ext _ _ _ _ HK1 Har1)
                 |exact (below_children_ext _ _ _ _ HK1 Hbc1)].
Qed.

(** [down] from position [i] among the first [n] positions, when the only
    edges that may be out of order are those at [i]. When nothing moved,
    nothing changed and [i] is below its children; otherwise the order is
    restored. *)
Lemma down_loop_spec (n i0 : Z) (fuel : nat) :
  ∀ (m : Mem) (p : Pool) (i : Z),
    index_ok m p → 0 ≤ n ≤ Pool.Len p → 0 ≤ i0 ≤ i → (Z.to_nat (n - i) < fuel)%nat →
    ∃ m' p' b, heap.down_loop fuel m p i0 i n = Ok (m', p', b) ∧
      load <$> m' = load <$> m ∧
      index_ok m' p' ∧
      p' ≡ₚ p ∧
      (∀ k, n ≤ k → ptr p' k = ptr p k) ∧
      (if b : bool
       then ordered_around (key_at m p) n i →
            (i0 < i → key_at m p (parent i) ≤ key_at m p i) →
            ordered (key_at m' p') n
       else i = i0 ∧ m' = m ∧ p' = p ∧ below_children (key_at m p) n i).
Proof.
  induction fuel as [|fuel IH]; intros m p i Hok Hn Hi Hfuel; [lia|].
  cbn [heap.down_loop].
  assert (Hexit : below_children (key_at m p) n i →
    ∃ m' p' b, Ok (m, p, i0 <? i) = Ok (m', p', b) ∧
      load <$> m' = load <$> m ∧ index_ok m' p' ∧ p' ≡ₚ p ∧
      (∀ k, n ≤ k → ptr p' k = ptr p k) ∧
      (if b : bool
       then ordered_around (key_at m p) n i →
            (i0 < i → key_at m p (parent i) ≤ key_at m p i) →
            ordered (key_at m' p') n
       else i = i0 ∧ m' = m ∧ p' = p ∧ below_children (key_at m p) n i)).
  { intros Hbc. exists m, p, (i0 <? i). split; [done|]. split; [done|].
    split; [done|]. split; [done|]. split; [done|].
    destruct (Z.ltb_spec i0 i).
    - intros Har Hup.
      apply (ordered_around_ordered _ _ i); [done..|]. intros _. by apply Hup.
    - split; [lia|done]. }
  destruct (Z.leb_spec n (2 * i + 1)) as [Hj1|Hj1]; cbn.
  { apply Hexit. intros k Hk Hpk. apply parent_spec in Hpk; lia. }
  destruct (Z.ltb_spec (2 * i + 1) 0) as [?|_]; [lia|]. cbn.
  set (j1 := 2 * i + 1) in *.
  set (K := key_at m p) in *.
  assert (∃ j, (if j1 + 1 <? n then Pool.Less m p (j1 + 1) j1 else Ok false)
               ≫= (λ rless : bool, mret (if rless then j1 + 1 else j1)) = Ok j ∧
               0 < j < n ∧ parent j = i ∧
               ∀ k, 0 < k < n → parent k = i → K j ≤ K k)
    as (j & Hsel & Hj & Hpj & Hmin).
  { assert (Hkids : ∀ k, 0 < k → parent k = i → k = j1 ∨ k = j1 + 1).
    { intros k Hk Hpk. apply parent_spec in Hpk; lia. }
    assert (parent j1 = i) by (apply parent_spec; lia).
    assert (parent (j1 + 1) = i) by (apply parent_spec; lia).
    destruct (Z.ltb_spec (j1 + 1) n) as [Hj2|Hj2].
    - rewrite Less_spec by (done || lia). cbn. fold K.
      destruct (Z.ltb_spec (K (j1 + 1)) (K j1)) as [Hlt|Hge].
      + exists (j1 + 1). split; [done|]. split; [lia|]. split; [done|].
        intros k Hk Hpk. destruct (Hkids k) as [->| ->]; lia.
      + exists j1. split; [done|]. split; [lia|]. split; [done|].
        intros k Hk Hpk. destruct (Hkids k) as [->| ->]; lia.
    - cbn. exists j1. split; [done|]. split; [lia|]. split; [done|].
      intros k Hk Hpk. destruct (Hkids k) as [->| ->]; lia. }
  destruct (if j1 + 1 <? n then Pool.Less m p (j1 + 1) j1 else Ok false)
    as [rless| | |] eqn:Hr; try discriminate Hsel.
  cbn in Hsel. injection Hsel as Hsel. cbn. rewrite Hsel.
  rewrite Less_spec by (done || lia). cbn. fold K.
  destruct (Z.ltb_spec (K j) (K i)) as [Hlt|Hge]; cbn.
  2:{ apply Hexit. intros k Hk Hpk. specialize (Hmin k Hk Hpk). lia. }
  destruct (Swap_spec m p i j Hok) as (m1 & p1 & -> & Hl1 & Hok1 & Hlen1 & Hptr1);
    [lia..|]. cbn.
  pose proof (key_at_ptr _ _ _ _ _ Hl1 Hptr1) as HK1.
  pose proof (parent_lt j ltac:(lia)) as Hparj.
  destruct (IH m1 p1 j) as (m' & p' & b & -> & Hl' & Hok' & Hperm' & Hptr' & Hres);
    [done| |lia|lia|].
  { unfold Pool.Len in *. lia. }
  exists m', p', b. split; [done|]. split; [congruence|]. split; [done|].
  split; [|split].
  - etrans; [done|]. eapply ptr_Permutation; [done..|apply transp_invol|done].
  - intros k Hk. rewrite Hptr' by lia. rewrite Hptr1.
    destruct (transp_cases i j k) as [[? ?]|[(? & ? & ?)|(? & ? & ->)]]; [lia..|done].
  - destruct b; [|lia]. intros Har Hup.
    destruct (ordered_around_down K n i j ltac:(lia) Hj Hpj Har Hmin Hlt) as [Har1 Hup1].
    apply Hres; [exact (ordered_around_ext _ _ _ _ HK1 Har1)|].
    intros _. by rewrite !HK1.
Qed.

Lemma ordered_around_agree (K K' : Z → Z) (n i : Z) :
  (∀ k, k ≠ i → K' k = K k) → ordered_around K n i → ordered_around K' n i.
Proof.
  intros HK [H1 H2]. split.
  - intros k Hk Hki Hpk. rewrite !HK by done. by apply H1.
  - intros k Hk Hpk Hi.
    pose proof (parent_lt i Hi). pose proof (parent_lt k ltac:(lia)).
    rewrite !HK by lia. by apply H2.
Qed.

Lemma ptr_take (p : Pool) (n k : Z) :
  k < n → ptr (take (Z.to_nat n) p) k = ptr p k.
Proof.
  intros Hk. unfold ptr. destruct (Z.ltb_spec k 0); [done|].
  apply lookup_take_lt. lia.
Qed.

Lemma ptr_app_l (p : Pool) (x : addr) (k : Z) :
  k < Pool.Len p → ptr (p ++ [x]) k = ptr p k.
Proof.
  unfold Pool.Len, ptr. intros Hk. destruct (Z.ltb_spec k 0); [done|].
  apply lookup_app_l. lia.
Qed.

Lemma index_ok_insert (m : Mem) (p : Pool) (a : addr) (w : Worker) :
  index_ok m p → a ∉ p → index_ok (<[a := w]> m) p.
Proof.
  intros Hok Ha k b Hb.
  destruct (Hok k b Hb) as (wb & Hwb & Hi). exists wb. split; [|done].
  rewrite list_lookup_insert_ne; [done|].
  intros ->. apply Ha. by eapply list_elem_of_lookup_2.
Qed.

Lemma key_at_insert (m : Mem) (p : Pool) (a : addr) (w : Worker) (k : Z) :
  ptr p k ≠ Some a → key_at (<[a := w]> m) p k = key_at m p k.
Proof.
  intros Hk. unfold key_at. destruct (ptr p k) as [b|]; [|done]. cbn.
  unfold key. rewrite list_lookup_insert_ne; [done|]. congruence.
Qed.

(** ** [heap.Push], [heap.Pop] and [heap.Remove] *)

(** The method [Pop] after the heap has moved the element to remove to
    the last position. *)
Lemma Pool_Pop_spec (m : Mem) (p : Pool) (n : Z) (x : addr) :
  index_ok m p → Pool.Len p = n + 1 → ptr p n = Some x →
  ∃ p', Pool.Pop p = Ok (x, p') ∧
    index_ok m p' ∧ p ≡ₚ x :: p' ∧
    (ordered (key_at m p) n → heap_ordered m p').
Proof.
  intros Hok Hlen Hx.
  pose proof (ptr_range _ _ _ Hx) as Hn.
  exists (take (Z.to_nat n) p).
  assert (Hl : Pool.Len (take (Z.to_nat n) p) = n).
  { unfold Pool.Len in *. rewrite length_take. lia. }
  split; [|split; [|split]].
  - unfold Pool.Pop. rewrite Hlen.
    replace (n + 1 - 1) with n by lia. by rewrite (at_ptr _ _ _ Hx).
  - intros k a Ha. apply Hok. by eapply lookup_take_Some.
  - rewrite <- (take_drop (Z.to_nat n) p) at 1.
    apply ptr_Some in Hx as [_ Hx].
    rewrite (drop_S _ _ _ Hx), drop_ge by (unfold Pool.Len in *; lia).
    by rewrite Permutation_app_comm.
  - intros Hord. unfold heap_ordered. rewrite Hl. intros k Hk.
    pose proof (parent_lt k ltac:(lia)).
    unfold key_at. rewrite !ptr_take by lia. by apply Hord.
Qed.

Lemma heap_Push_spec (m : Mem) (p : Pool) (x : addr) :
  index_ok m p → is_Some (m !! x) → x ∉ p →
  ∃ m' p', heap.Push m p x = Ok (m', p') ∧
    load <$> m' = load <$> m ∧
    index_ok m' p' ∧ p' ≡ₚ x :: p ∧
    (heap_ordered m p → heap_ordered m' p').
Proof.
  intros Hok [w Hw] Hx.
  set (n := Pool.Len p).
  set (m1 := <[x := set_index w n]> m).
  assert (Hl1 : load <$> m1 = load <$> m) by by apply load_set_index.
  assert (Hlen1 : Pool.Len (p ++ [x]) = n + 1).
  { unfold Pool.Len in *. rewrite length_app. cbn. lia. }
  assert (Hok1 : index_ok m1 (p ++ [x])).
  { intros k a Ha. apply lookup_app_Some in Ha as [Ha|[Hk Ha]].
    - by apply (index_ok_insert m p x (set_index w n) Hok Hx).
    - apply list_lookup_singleton_Some in Ha as [Hk' <-].
      exists (set_index w n). split.
      + apply list_lookup_insert_eq. by eapply lookup_lt_Some.
      + cbn. unfold n, Pool.Len. lia. }
  assert (HK1 : ∀ k, k < n → key_at m1 (p ++ [x]) k = key_at m p k).
  { intros k Hk. unfold key_at. rewrite ptr_app_l by done.
    destruct (ptr p k); [|done]. cbn. by apply load_key. }
  assert (0 ≤ n) by (unfold n, Pool.Len; lia).
  destruct (up_loop_spec (n + 1) (S (Z.to_nat n)) m1 (p ++ [x]) n)
    as (m' & p' & Hup & Hl' & Hok' & Hperm' & _ & Hord'); [done|lia|lia|lia|].
  exists m', p'. split; [|split; [congruence|split; [done|split]]].
  - unfold heap.Push, Pool.Push. rewrite (deref_Some _ _ _ Hw). cbn.
    fold n m1. rewrite Hlen1. replace (n + 1 - 1) with n by lia. done.
  - rewrite Hperm'. by rewrite Permutation_app_comm.
  - intros Hord. unfold heap_ordered.
    replace (Pool.Len p') with (n + 1) by (unfold Pool.Len in *; by rewrite Hperm').
    apply Hord'.
    + split.
      * intros k Hk Hkn Hpk. pose proof (parent_lt k ltac:(lia)).
        rewrite !HK1 by lia. apply Hord. fold n. lia.
      * intros k Hk Hpk _. apply parent_spec in Hpk; lia.
    + intros k Hk Hpk. apply parent_spec in Hpk; lia.
Qed.

Lemma heap_Pop_spec (m : Mem) (p : Pool) :
  index_ok m p → 0 < Pool.Len p →
  ∃ x m' p', heap.Pop m p = Ok (x, m', p') ∧
    load <$> m' = load <$> m ∧
    index_ok m' p' ∧ p ≡ₚ x :: p' ∧
    (heap_ordered m p → heap_ordered m' p') ∧
    ptr p 0 = Some x.
Proof.
  intros Hok Hlen.
  set (n := Pool.Len p - 1).
  destruct (ptr_is_Some p 0 ltac:(lia)) as [x Hx].
  destruct (Swap_spec m p 0 n Hok) as (m1 & p1 & Hsw & Hl1 & Hok1 & Hlen1 & Hptr1);
    [lia|unfold n; lia|].
  pose proof (key_at_ptr _ _ _ _ _ Hl1 Hptr1) as HK1.
  assert (Hfix : ∀ k, 0 < k < n → transp 0 n k = k).
  { intros k Hk.
    destruct (transp_cases 0 n k) as [[? ?]|[(? & ? & ?)|(? & ? & ->)]]; [lia..|done]. }
  assert (Har1 : heap_ordered m p → ordered_around (key_at m1 p1) n 0).
  { intros Hord. split; [|lia]. intros k Hk _ Hpk.
    pose proof (parent_lt k ltac:(lia)).
    rewrite !HK1, !Hfix by lia. apply Hord. unfold n in *. lia. }
  assert (HL1 : Pool.Len p1 = n + 1) by (unfold n, Pool.Len in *; lia).
  destruct (down_loop_spec n 0 (S (Z.to_nat n)) m1 p1 0)
    as (m2 & p2 & b & Hdn & Hl2 & Hok2 & Hperm2 & Hptr2 & Hres);
    [done|unfold n in *; lia|lia|lia|].
  assert (Hord2 : heap_ordered m p → ordered (key_at m2 p2) n).
  { intros Hord. destruct b; [apply Hres; [by apply Har1|lia]|].
    destruct Hres as (_ & -> & -> & Hbc).
    apply (ordered_around_ordered _ _ 0); [by apply Har1|done|lia]. }
  assert (Hx2 : ptr p2 n = Some x).
  { rewrite Hptr2, Hptr1 by lia.
    destruct (transp_cases 0 n n) as [[Hn ->]|[(? & ? & ->)|(? & ? & ?)]];
      [by rewrite Hn|done|done]. }
  destruct (Pool_Pop_spec m2 p2 n x) as (p3 & Hpop & Hok3 & Hperm3 & Hord3);
    [done| |done|].
  { unfold Pool.Len in *. rewrite Hperm2. lia. }
  exists x, m2, p3.
  split; [|split; [congruence|split; [done|split; [|split; [|done]]]]].
  - unfold heap.Pop. fold n. rewrite Hsw. ok_bind.
    unfold heap.down. rewrite Hdn. ok_bind. by rewrite Hpop.
  - rewrite <- Hperm3, Hperm2.
    symmetry. eapply ptr_Permutation; [done..|apply transp_invol|done].
  - intros Hord. by apply Hord3, Hord2.
Qed.

Lemma heap_Remove_spec (m : Mem) (p : Pool) (i : Z) (x : addr) :
  index_ok m p → ptr p i = Some x →
  ∃ m' p', heap.Remove m p i = Ok (x, m', p') ∧
    load <$> m' = load <$> m ∧
    index_ok m' p' ∧ p ≡ₚ x :: p' ∧
    (ordered_around (key_at m p) (Pool.Len p) i → heap_ordered m' p').
Proof.
  intros Hok Hx.
  pose proof (ptr_range _ _ _ Hx) as Hi.
  set (n := Pool.Len p - 1) in *.
  assert (∃ m1 p1,
    (if n =? i then Ok (m, p)
     else Pool.Swap m p i n ≫= λ '(m1, p1), heap.down m1 p1 i n ≫=
            λ '(m2, p2, moved), if (moved : bool) then Ok (m2, p2) else heap.up m2 p2 i)
    = Ok (m1, p1) ∧
    load <$> m1 = load <$> m ∧ index_ok m1 p1 ∧ p1 ≡ₚ p ∧
    ptr p1 n = Some x ∧
    (ordered_around (key_at m p) (Pool.Len p) i → ordered (key_at m1 p1) n))
    as (m1 & p1 & Hfix & Hl1 & Hok1 & Hperm1 & Hx1 & Hord1).
  { destruct (Z.eqb_spec n i) as [Hni|Hni].
    - exists m, p. split; [done|]. split; [done|]. split; [done|]. split; [done|].
      split; [by rewrite Hni|].
      intros [H1 _] k Hk.
      pose proof (parent_lt k ltac:(lia)). apply H1; [unfold n in *|..]; lia.
    - destruct (Swap_spec m p i n Hok) as (m1 & p1 & -> & Hl1 & Hok1 & Hlen1 & Hptr1);
        [lia|unfold n; lia|]. ok_bind.
      pose proof (key_at_ptr _ _ _ _ _ Hl1 Hptr1) as HK1.
      assert (Hfix : ∀ k, k < n → k ≠ i → transp i n k = k).
      { intros k Hk Hki.
        destruct (transp_cases i n k) as [[? ?]|[(? & ? & ?)|(? & ? & ->)]]; [lia..|done]. }
      assert (Har1 : ordered_around (key_at m p) (Pool.Len p) i →
                     ordered_around (key_at m1 p1) n i).
      { intros [H1 H2]. split.
        - intros k Hk Hki Hpk. pose proof (parent_lt k ltac:(lia)).
          rewrite !HK1, !Hfix by lia. apply H1; [unfold n in *|..]; lia.
        - intros k Hk Hpk Hi0.
          pose proof (parent_lt k ltac:(lia)). pose proof (parent_lt i Hi0).
          rewrite !HK1, !Hfix by lia. apply H2; [unfold n in *|..]; lia. }
      assert (Hxn : ptr p1 n = Some x).
      { rewrite Hptr1.
        destruct (transp_cases i n n) as [[? ?]|[(? & ? & ->)|(? & ? & ?)]]; [lia|done|lia]. }
      assert (Hperm1 : p1 ≡ₚ p).
      { eapply ptr_Permutation; [done..|apply transp_invol|done]. }
      destruct (down_loop_spec n i (S (Z.to_nat n)) m1 p1 i)
        as (m2 & p2 & b & Hdn & Hl2 & Hok2 & Hperm2 & Hptr2 & Hres);
        [done|unfold n, Pool.Len in *; lia|lia|lia|].
      unfold heap.down. rewrite Hdn. ok_bind.
      destruct b.
      + exists m2, p2. split; [done|]. split; [congruence|]. split; [done|].
        split; [by etrans|]. split; [by rewrite Hptr2 by lia|].
        intros Har. apply Hres; [by apply Har1|lia].
      + destruct Hres as (_ & -> & -> & Hbc).
        destruct (up_loop_spec n (S (Z.to_nat i)) m1 p1 i)
          as (m3 & p3 & Hup & Hl3 & Hok3 & Hperm3 & Hptr3 & Hord3);
          [done|unfold n, Pool.Len in *; lia|unfold n in *; lia|lia|].
        exists m3, p3. split; [done|]. split; [congruence|]. split; [done|].
        split; [by etrans|]. split; [by rewrite Hptr3 by (unfold n in *; lia)|].
        intros Har. apply Hord3; [by apply Har1|done]. }
  destruct (Pool_Pop_spec m1 p1 n x) as (p2 & Hpop & Hok2 & Hperm2 & Hord2);
    [done| |done|].
  { unfold n, Pool.Len in *. rewrite Hperm1. lia. }
  exists m1, p2. split; [|split; [done|split; [done|split]]].
  - unfold heap.Remove. fold n. rewrite Hfix. ok_bind. by rewrite Hpop.
  - by rewrite <- Hperm2, Hperm1.
  - intros Har. by apply Hord2, Hord1.
Qed.

(** ** [dispatch] and [completed] *)

Lemma index_ok_update (m : Mem) (p : Pool) (a : addr) (w w' : Worker) :
  index_ok m p → m !! a = Some w → index w' = index w →
  index_ok (<[a := w']> m) p.
Proof.
  intros Hok Hw Hi k b Hb.
  destruct (Hok k b Hb) as (wb & Hwb & Hib).
  destruct (decide (b = a)) as [->|Hne].
  - exists w'. split; [|congruence].
    apply list_lookup_insert_eq. by eapply lookup_lt_Some.
  - exists wb. by rewrite list_lookup_insert_ne.
Qed.

Lemma load_insert (m m0 : Mem) (a : addr) (w w0 : Worker) :
  load <$> m = load <$> m0 →
  load <$> (<[a := w]> m) = <[a := load w]> (load <$> m0).
Proof. intros H. by rewrite list_fmap_insert, H. Qed.

Lemma load_Some (m m' : Mem) (a : addr) (w : Worker) :
  load <$> m' = load <$> m → m !! a = Some w →
  ∃ w', m' !! a = Some w' ∧ load w' = load w.
Proof.
  intros H%(load_lookup _ _ a) Hw. rewrite Hw in H.
  destruct (m' !! a) as [w'|]; [|done]. exists w'. split; [done|].
  cbn in H. congruence.
Qed.

Lemma heap_ordered_insert (m : Mem) (p : Pool) (a : addr) (w : Worker) :
  a ∉ p → heap_ordered m p → heap_ordered (<[a := w]> m) p.
Proof.
  intros Ha Hord. unfold heap_ordered.
  apply (ordered_ext (key_at m p)); [|done].
  intros k. apply key_at_insert. intros Hk. apply Ha, ptr_elem_of. eauto.
Qed.

Lemma key_root_min (m : Mem) (p : Pool) (x a : addr) :
  heap_ordered m p → ptr p 0 = Some x → a ∈ p → key m x ≤ key m a.
Proof.
  intros Hord Hx [k Hk]%ptr_elem_of.
  pose proof (ordered_root_min _ _ Hord k (ptr_range _ _ _ Hk)) as H.
  unfold key_at in H. by rewrite Hx, Hk in H.
Qed.

Lemma send_cases {A : Type} (ch : chan A) (x : A) :
  (Z.of_nat (length (buf ch)) < cap ch ∧ send ch x = Ok (Chan (buf ch ++ [x]) (cap ch))) ∨
  (cap ch ≤ Z.of_nat (length (buf ch)) ∧ send ch x = Blocked).
Proof. unfold send. destruct (Z.ltb_spec (Z.of_nat (length (buf ch))) (cap ch)); eauto. Qed.

(** [dispatch] on a non-empty, index-consistent pool: the worker popped
    is the root, a least loaded one when the pool is ordered; unless the
    send on its channel cannot proceed, it gets the task and one more
    pending, and the pool is an index-consistent rearrangement of
    itself, ordered if it was. *)
Lemma dispatch_spec (task : Task) (s : World) :
  index_consistent s → pool (bal s) ≠ [] →
  ∃ w ww, ptr (pool (bal s)) 0 = Some w ∧ mem s !! w = Some ww ∧
    (heap_order s → ∀ a, a ∈ pool (bal s) → pending ww ≤ pending_of s a) ∧
    (∃ m1 p1, heap.Pop (mem s) (pool (bal s)) = Ok (w, m1, p1) ∧
              pool (bal s) ≡ₚ w :: p1 ∧ index_ok m1 p1 ∧
              (heap_order s → heap_ordered m1 p1)) ∧
    match send (tasks ww) task with
    | Ok ch =>
        ∃ s', dispatch task s = Ok s' ∧
          index_consistent s' ∧ (heap_order s → heap_order s') ∧
          pool (bal s') ≡ₚ pool (bal s) ∧
          load <$> mem s' = <[w := (id ww, ch, wrap (pending ww + 1))]> (load <$> mem s) ∧
          done (bal s') = done (bal s) ∧ work (bal s') = work (bal s) ∧
          goroutines s' = goroutines s ∧ delivered s' = delivered s
    | _ => dispatch task s = Blocked
    end.
Proof.
  intros Hok Hne. unfold index_consistent, heap_order in *.
  destruct s as [m [p d wk] gs dl]. cbn [mem bal pool done work goroutines delivered] in *.
  destruct (heap_Pop_spec m p Hok) as (w & m1 & p1 & Hpop & Hl1 & Hok1 & Hperm1 & Hord1 & Hw).
  { unfold Pool.Len. destruct p; [done|]. cbn. lia. }
  destruct (index_ok_ptr _ _ _ _ Hok Hw) as (ww & Hww & _).
  exists w, ww. split; [done|]. split; [done|]. split.
  { intros Hord a Ha. pose proof (key_root_min m p w a Hord Hw Ha) as H.
    unfold pending_of, key in *. cbn. by rewrite Hww in H. }
  split; [by eauto 10|].
  destruct (load_Some _ _ _ _ Hl1 Hww) as (ww1 & Hww1 & Hlw1).
  assert (tasks ww1 = tasks ww ∧ id ww1 = id ww ∧ pending ww1 = pending ww) as (Ht & Hid & Hpe).
  { unfold load in Hlw1. by injection Hlw1. }
  assert (w ∉ p1) as Hwp1.
  { pose proof (index_ok_NoDup _ _ Hok) as Hnd. rewrite Hperm1 in Hnd.
    by apply NoDup_cons_1_1 in Hnd. }
  unfold dispatch. cbn [mem bal pool]. rewrite Hpop. ok_bind.
  rewrite (deref_Some _ _ _ Hww1). ok_bind. rewrite Ht.
  destruct (send_cases (tasks ww) task) as [[_ ->]|[_ ->]]; [|done].
  ok_bind.
  set (ch := Chan (buf (tasks ww) ++ [task]) (cap (tasks ww))).
  set (m2 := <[w := set_tasks ww1 ch]> m1).
  assert (Hlw : (w < length m1)%nat) by by eapply lookup_lt_Some.
  assert (Hww2 : m2 !! w = Some (set_tasks ww1 ch)) by by apply list_lookup_insert_eq.
  rewrite (deref_Some _ _ _ Hww2). ok_bind.
  set (ww3 := set_pending (set_tasks ww1 ch) (wrap (pending (set_tasks ww1 ch) + 1))).
  set (m3 := <[w := ww3]> m2).
  assert (Hok3 : index_ok m3 p1).
  { apply index_ok_insert; [apply index_ok_insert|]; done. }
  destruct (heap_Push_spec m3 p1 w Hok3) as (m4 & p4 & -> & Hl4 & Hok4 & Hperm4 & Hord4);
    [|done|].
  { apply lookup_lt_is_Some. unfold m3, m2. by rewrite !length_insert. }
  ok_bind. eexists. split; [done|]. cbn.
  split; [done|]. split.
  { intros Hord. apply Hord4.
    apply heap_ordered_insert; [|apply heap_ordered_insert]; auto. }
  split; [by rewrite Hperm4, Hperm1|].
  split; [|done].
  rewrite Hl4. unfold m3, m2. rewrite list_insert_insert_eq.
  rewrite (load_insert _ m _ _ ww Hl1).
  unfold ww3, load. cbn. by rewrite Hid, Hpe.
Qed.

(** [completed] for a worker of an index-consistent pool: one pending
    less for that worker, and the pool is again an index-consistent
    rearrangement of itself, ordered if it was. *)
Lemma completed_spec (w : addr) (s : World) :
  index_consistent s → w ∈ pool (bal s) →
  ∃ ww s', mem s !! w = Some ww ∧ completed w s = Ok s' ∧
    index_consistent s' ∧ (heap_order s → heap_order s') ∧
    pool (bal s') ≡ₚ pool (bal s) ∧
    load <$> mem s' = <[w := (id ww, tasks ww, wrap (pending ww - 1))]> (load <$> mem s) ∧
    (done (bal s') = done (bal s) ∧ work (bal s') = work (bal s) ∧
     goroutines s' = goroutines s ∧ delivered s' = delivered s) ∧
    ∃ m2 p2,
      heap.Remove (<[w := set_pending ww (wrap (pending ww - 1))]> (mem s))
                  (pool (bal s)) (index ww) = Ok (w, m2, p2) ∧
      pool (bal s) ≡ₚ w :: p2 ∧ index_ok m2 p2 ∧
      (heap_order s → heap_ordered m2 p2).
Proof.
  intros Hok Hw. unfold index_consistent, heap_order in *.
  destruct s as [m [p d wk] gs dl]. cbn [mem bal pool done work goroutines delivered] in *.
  apply ptr_elem_of in Hw as [i Hi].
  destruct (index_ok_ptr _ _ _ _ Hok Hi) as (ww & Hww & Hiw).
  set (ww1 := set_pending ww (wrap (pending ww - 1))).
  set (m1 := <[w := ww1]> m).
  assert (Hlw : (w < length m)%nat) by by eapply lookup_lt_Some.
  assert (Hww1 : m1 !! w = Some ww1) by by apply list_lookup_insert_eq.
  assert (Hok1 : index_ok m1 p) by by eapply index_ok_update.
  assert (Har1 : heap_ordered m p → ordered_around (key_at m1 p) (Pool.Len p) i).
  { intros Hord.
    apply (ordered_around_agree (key_at m p)); [|by apply ordered_ordered_around].
    intros k Hk. apply key_at_insert. intros Hk'.
    by pose proof (index_ok_inj _ _ _ _ _ Hok Hi Hk'). }
  destruct (heap_Remove_spec m1 p i w Hok1 Hi)
    as (m2 & p2 & Hrm & Hl2 & Hok2 & Hperm2 & Hord2).
  assert (w ∉ p2) as Hwp2.
  { pose proof (index_ok_NoDup _ _ Hok) as Hnd. rewrite Hperm2 in Hnd.
    by apply NoDup_cons_1_1 in Hnd. }
  destruct (heap_Push_spec m2 p2 w Hok2) as (m3 & p3 & Hpush & Hl3 & Hok3 & Hperm3 & Hord3);
    [|done|].
  { apply lookup_lt_is_Some. rewrite (load_length _ _ Hl2). unfold m1.
    by rewrite length_insert. }
  exists ww. eexists. split; [done|]. split.
  { unfold completed. cbn [mem bal pool]. rewrite (deref_Some _ _ _ Hww). ok_bind.
    fold ww1 m1. rewrite (deref_Some _ _ _ Hww1). ok_bind.
    replace (index ww1) with i by (by rewrite <- Hiw).
    rewrite Hrm. ok_bind. rewrite Hpush. ok_bind. done. }
  cbn. split; [done|]. split; [by auto|]. split; [by rewrite Hperm3, Hperm2|].
  split; [|split; [done|]].
  { rewrite Hl3, Hl2. unfold m1. by rewrite list_fmap_insert. }
  exists m2, p2. fold ww1 m1. rewrite Hiw.
  split; [done|]. split; [done|]. split; [done|]. auto.
Qed.

(** ** What [New] builds *)

Lemma fresh_lookup (n a : nat) :
  (a < n)%nat → (fresh_worker <$> seq 0 n) !! a = Some (fresh_worker a).
Proof.
  intros Ha. rewrite list_lookup_fmap, lookup_seq_lt by done. done.
Qed.

Lemma fresh_index_ok (n : nat) : index_ok (fresh_worker <$> seq 0 n) (seq 0 n).
Proof.
  intros k a [-> Hk]%lookup_seq. exists (fresh_worker k).
  split; [by apply fresh_lookup|done].
Qed.

Lemma fresh_key_at (n : nat) (k : Z) : key_at (fresh_worker <$> seq 0 n) (seq 0 n) k = 0.
Proof.
  unfold key_at. destruct (ptr (seq 0 n) k) as [a|] eqn:Ha; [|done]. cbn.
  apply ptr_Some in Ha as [_ [-> Ha]%lookup_seq].
  unfold key. by rewrite fresh_lookup.
Qed.

Lemma fresh_heap_ordered (n : nat) : heap_ordered (fresh_worker <$> seq 0 n) (seq 0 n).
Proof. intros k Hk. by rewrite !fresh_key_at. Qed.

Lemma New_body_fresh (i : nat) (d : chan addr) (wk : chan Task) :
  New_body (Z.of_nat i) (fresh_world i d wk) = Ok (fresh_world (S i) d wk).
Proof.
  unfold New_body, alloc.
  change (make_chan sizeof_Task 5000) with (Ok (Chan (@nil Task) 5000)). ok_bind.
  cbn [mem bal pool fresh_world]. rewrite length_fmap, length_seq.
  set (m1 := (fresh_worker <$> seq 0 i) ++ [MkWorker (Z.of_nat i) (Chan [] 5000) 0 0]).
  assert (Hm1 : m1 !! i = Some (MkWorker (Z.of_nat i) (Chan [] 5000) 0 0)).
  { unfold m1. rewrite lookup_app_r; rewrite length_fmap, length_seq; [|done].
    by rewrite Nat.sub_diag. }
  assert (HS : seq 0 i ++ [i] = seq 0 (S i)) by by rewrite seq_S.
  assert (Hm2 : <[i := fresh_worker i]> m1 = fresh_worker <$> seq 0 (S i)).
  { unfold m1. rewrite seq_S, fmap_app. cbn.
    rewrite insert_app_r_alt; rewrite length_fmap, length_seq; [|done].
    by rewrite Nat.sub_diag. }
  unfold heap.Push, Pool.Push. rewrite (deref_Some _ _ _ Hm1). ok_bind.
  unfold Pool.Len. rewrite length_seq, length_app, length_seq. cbn [length].
  change (set_index (MkWorker (Z.of_nat i) (Chan [] 5000) 0 0) (Z.of_nat i))
    with (fresh_worker i).
  rewrite Hm2, HS.
  replace (Z.of_nat (i + 1) - 1) with (Z.of_nat i) by lia.
  unfold heap.up. rewrite Nat2Z.id. cbn [heap.up_loop].
  destruct (Z.eqb_spec ((Z.of_nat i - 1) ÷ 2) (Z.of_nat i)) as [_|Hne].
  { ok_bind. unfold spawn, set_heap, fresh_world.
    cbn [mem bal pool done work goroutines delivered returns].
    by rewrite <- HS, !fmap_app. }
  assert (0 < Z.of_nat i) as Hi.
  { destruct i; [done|lia]. }
  pose proof (parent_lt _ Hi) as Hp. unfold parent in Hp.
  rewrite Less_spec; [|apply fresh_index_ok|unfold Pool.Len; rewrite length_seq; lia..].
  rewrite !fresh_key_at. cbn [Z.ltb Z.compare negb]. ok_bind.
  unfold spawn, set_heap, fresh_world.
  cbn [mem bal pool done work goroutines delivered returns].
  by rewrite <- HS, !fmap_app.
Qed.

Lemma New_loop_fresh (k i : nat) (d : chan addr) (wk : chan Task) :
  New_loop k (Z.of_nat i) (fresh_world i d wk) = Ok (fresh_world (i + k) d wk).
Proof.
  revert i. induction k as [|k IH]; intros i; cbn [New_loop].
  - by rewrite Nat.add_0_r.
  - rewrite New_body_fresh. ok_bind.
    replace (Z.of_nat i + 1) with (Z.of_nat (S i)) by lia.
    rewrite IH. do 2 f_equal. lia.
Qed.

Lemma make_chan_Ok {A : Type} (elem size : Z) :
  0 ≤ size → elem * size ≤ maxAlloc - hchanSize →
  @make_chan A elem size = Ok (Chan [] size).
Proof.
  intros H1 H2. unfold make_chan.
  destruct (Z.ltb_spec size 0); [lia|].
  by destruct (Z.ltb_spec (maxAlloc - hchanSize) (elem * size)); [lia|].
Qed.

Lemma make_chan_inv {A : Type} (elem size : Z) (ch : chan A) :
  make_chan elem size = Ok ch →
  0 ≤ size ∧ elem * size ≤ maxAlloc - hchanSize ∧ ch = Chan [] size.
Proof.
  unfold make_chan.
  destruct (Z.ltb_spec size 0); [done|].
  destruct (Z.ltb_spec (maxAlloc - hchanSize) (elem * size)); [done|].
  cbn. intros [= <-]. done.
Qed.

(** [New] in closed form. *)
Lemma New_Ok (poolSize : Z) :
  0 ≤ poolSize → sizeof_Task * (poolSize * 10) ≤ maxAlloc - hchanSize →
  New poolSize =
    Ok (fresh_world (Z.to_nat poolSize) (Chan [] poolSize) (Chan [] (poolSize * 10))).
Proof.
  intros Hn Hw. unfold New.
  assert (wrap (poolSize * 10) = poolSize * 10) as ->.
  { apply wrap_id. unfold int_min, int_max, sizeof_Task, maxAlloc, hchanSize in *. lia. }
  rewrite !make_chan_Ok;
    [|unfold sizeof_Task, sizeof_ptr, maxAlloc, hchanSize in *; lia..].
  ok_bind. unfold make_pool.
  destruct (Z.ltb_spec poolSize 0); [lia|].
  destruct (Z.ltb_spec maxAlloc (sizeof_ptr * poolSize));
    [unfold sizeof_Task, sizeof_ptr, maxAlloc, hchanSize in *; lia|].
  cbn [orb]. ok_bind.
  change (heap.Init [] []) with (Ok (@nil Worker, @nil nat)). ok_bind.
  apply (New_loop_fresh _ 0).
Qed.

Lemma New_negative (poolSize : Z) : poolSize < 0 → New poolSize = Panic.
Proof.
  intros Hn. unfold New, make_chan.
  by destruct (Z.ltb_spec poolSize 0); [|lia].
Qed.

(** When [New] returns, the worker count is within the runtime's ceiling:
    its tenfold has not wrapped. *)
Lemma New_inv_ceiling (poolSize : Z) (s : World) :
  New poolSize = Ok s →
  0 ≤ poolSize ∧ sizeof_Task * (poolSize * 10) ≤ maxAlloc - hchanSize ∧
  s = fresh_world (Z.to_nat poolSize) (Chan [] poolSize) (Chan [] (poolSize * 10)).
Proof.
  intros H.
  assert (Hb : 0 ≤ poolSize ∧ sizeof_ptr * poolSize ≤ maxAlloc - hchanSize ∧
               sizeof_Task * wrap (poolSize * 10) ≤ maxAlloc - hchanSize).
  { unfold New in H.
    apply bind_Ok in H as (d & (Hn & Hd & _)%make_chan_inv & H).
    apply bind_Ok in H as (w & (_ & Hc & _)%make_chan_inv & _). done. }
  destruct Hb as (Hn & Hd & Hc).
  assert (Hw : wrap (poolSize * 10) = poolSize * 10).
  { apply wrap_id. unfold int_min, int_max, sizeof_ptr, maxAlloc, hchanSize in *. lia. }
  rewrite Hw in Hc.
  rewrite New_Ok in H by done. injection H as <-. done.
Qed.

Lemma New_inv (poolSize : Z) (s : World) :
  New poolSize = Ok s →
  0 ≤ poolSize ∧ 0 ≤ wrap (poolSize * 10) ∧
  s = fresh_world (Z.to_nat poolSize) (Chan [] poolSize) (Chan [] (wrap (poolSize * 10))).
Proof.
  intros (Hn & Hc & ->)%New_inv_ceiling.
  assert (wrap (poolSize * 10) = poolSize * 10) as ->.
  { apply wrap_id. unfold int_min, int_max, sizeof_Task, maxAlloc, hchanSize in *. lia. }
  split; [done|]. split; [lia|done].
Qed.

Lemma fresh_world_index_consistent (n : nat) (d : chan addr) (wk : chan Task) :
  index_consistent (fresh_world n d wk).
Proof. apply fresh_index_ok. Qed.

Lemma fresh_world_heap_order (n : nat) (d : chan addr) (wk : chan Task) :
  heap_order (fresh_world n d wk).
Proof. apply fresh_heap_ordered. Qed.

Lemma fresh_world_idle (n : nat) (d : chan addr) (wk : chan Task) (a : addr) (w : Worker) :
  mem (fresh_world n d wk) !! a = Some w →
  pending w = 0 ∧ cap (tasks w) ≤ int_max.
Proof.
  cbn [mem fresh_world]. rewrite list_lookup_fmap.
  destruct (seq 0 n !! a) as [k|]; [|done]. intros [= <-]. by split.
Qed.

(** ** The checks are sound *)

Lemma index_okb_from_sound (m : Mem) (p : Pool) :
  ∀ k, index_okb_from m k p = true →
    ∀ (i : nat) (a : addr), p !! i = Some a →
      ∃ w, m !! a = Some w ∧ index w = Z.of_nat (k + i).
Proof.
  induction p as [|b p IH]; intros k H i a Ha; [done|].
  cbn in H. apply andb_prop in H as [Hb Hp].
  destruct i as [|i]; cbn in Ha.
  - injection Ha as ->. destruct (m !! a) as [w|]; [|done].
    exists w. split; [done|]. apply Z.eqb_eq in Hb. rewrite Hb. f_equal. lia.
  - destruct (IH _ Hp i a Ha) as (w & Hw & Hi). exists w. split; [done|].
    rewrite Hi. f_equal. lia.
Qed.

Lemma index_okb_sound (m : Mem) (p : Pool) : index_okb m p = true → index_ok m p.
Proof. intros H k a Ha. by apply (index_okb_from_sound m p 0 H). Qed.

Lemma heap_orderedb_sound (m : Mem) (p : Pool) :
  heap_orderedb m p = true → heap_ordered m p.
Proof.
  unfold heap_orderedb, heap_ordered, Pool.Len. intros H k Hk.
  rewrite forallb_forall in H.
  specialize (H (Z.to_nat k)). rewrite Z2Nat.id in H by lia.
  apply Z.leb_le, H, in_seq. lia.
Qed.

Lemma dispatch_nonempty (t : Task) (s s' : World) :
  dispatch t s = Ok s' → pool (bal s) ≠ [].
Proof.
  intros H Hnil. unfold dispatch in H. rewrite Hnil in H. discriminate H.
Qed.

(** ** States the dispatcher can reach *)

Lemma dispatch_keeps (t : Task) (s s' : World) :
  index_consistent s → dispatch t s = Ok s' →
  index_consistent s' ∧ (heap_order s → heap_order s') ∧
  pool (bal s') ≡ₚ pool (bal s) ∧ length (mem s') = length (mem s).
Proof.
  intros Hok Hd.
  destruct (dispatch_spec t s Hok (dispatch_nonempty _ _ _ Hd))
    as (w & ww & _ & _ & _ & _ & Hres).
  destruct (send (tasks ww) t); try congruence.
  destruct Hres as (s'' & Hd' & Hok' & Hord' & Hperm & HL & _).
  assert (s'' = s') as -> by congruence.
  split; [done|]. split; [done|]. split; [done|].
  apply (f_equal length) in HL.
  by rewrite length_insert, !length_fmap in HL.
Qed.

Lemma completed_keeps (w : addr) (s : World) :
  index_consistent s → w ∈ pool (bal s) →
  ∃ s', completed w s = Ok s' ∧
    index_consistent s' ∧ (heap_order s → heap_order s') ∧
    pool (bal s') ≡ₚ pool (bal s) ∧ length (mem s') = length (mem s).
Proof.
  intros Hok Hw.
  destruct (completed_spec w s Hok Hw)
    as (ww & s' & _ & Hc & Hok' & Hord' & Hperm & HL & _ & _).
  exists s'. split; [done|]. split; [done|]. split; [done|]. split; [done|].
  apply (f_equal length) in HL.
  by rewrite length_insert, !length_fmap in HL.
Qed.

Lemma reachable_inv (s0 s : World) :
  index_consistent s0 → heap_order s0 → all_pooled s0 →
  reachable s0 s →
  index_consistent s ∧ heap_order s ∧ all_pooled s ∧
  length (mem s) = length (mem s0).
Proof.
  intros Hok0 Hord0 Hall0. induction 1 as [|s t s' _ IH Hd|s w s' _ IH Hw Hc].
  - done.
  - destruct IH as (Hok & Hord & Hall & Hlen).
    destruct (dispatch_keeps t s s' Hok Hd) as (Hok' & Hord' & Hperm & Hlen').
    split; [done|]. split; [by auto|]. split; [|congruence].
    unfold all_pooled in *. by rewrite Hperm, Hlen'.
  - destruct IH as (Hok & Hord & Hall & Hlen).
    assert (w ∈ pool (bal s)) as Hwp.
    { unfold all_pooled in Hall. rewrite Hall. apply elem_of_seq. lia. }
    destruct (completed_keeps w s Hok Hwp) as (s'' & Hc' & Hok' & Hord' & Hperm & Hlen').
    assert (s'' = s') as -> by congruence.
    split; [done|]. split; [by auto|]. split; [|congruence].
    unfold all_pooled in *. by rewrite Hperm, Hlen'.
Qed.

Lemma reachable_dispatch_all (ts : list Task) :
  ∀ s s', dispatch_all ts s = Ok s' → reachable s s'.
Proof.
  induction ts as [|t ts IH]; intros s s' Hd; cbn [dispatch_all] in Hd.
  - injection Hd as <-. constructor.
  - apply bind_Ok in Hd as (s1 & Hd1 & Hd2).
    specialize (IH s1 s' Hd2).
    clear Hd2. induction IH as [|s2 t2 s3 _ IH2 Hd3|s2 w s3 _ IH2 Hw Hc].
    + eapply reach_dispatch; [constructor|done].
    + eapply reach_dispatch; [apply IH2|done].
    + eapply reach_completed; [apply IH2|done..].
Qed.

(** ** Counting pending tasks *)

Lemma key_pend (m : Mem) (a : addr) : key m a = pend (load <$> m) a.
Proof.
  unfold key, pend. rewrite list_lookup_fmap. by destruct (m !! a).
Qed.

Lemma pend_insert (L : list (Z * chan Task * Z)) (w a : addr) (x : Z * chan Task * Z) :
  (w < length L)%nat →
  pend (<[w := x]> L) a = if decide (a = w) then snd x else pend L a.
Proof.
  intros Hw. unfold pend. case_decide as Ha.
  - subst a. by rewrite list_lookup_insert_eq.
  - by rewrite list_lookup_insert_ne.
Qed.

Lemma total_cons (L : list (Z * chan Task * Z)) (a : addr) (p : Pool) :
  total L (a :: p) = pend L a + total L p.
Proof. reflexivity. Qed.

Lemma total_perm (L : list (Z * chan Task * Z)) (p p' : Pool) :
  p ≡ₚ p' → total L p = total L p'.
Proof.
  unfold total. induction 1; cbn; lia.
Qed.

Lemma total_insert_notin (L : list (Z * chan Task * Z)) (p : Pool) (w : addr)
    (x : Z * chan Task * Z) :
  w ∉ p → total (<[w := x]> L) p = total L p.
Proof.
  induction p as [|a p IH]; intros Hw; [done|]. rewrite !total_cons.
  apply not_elem_of_cons in Hw as [Hne Hw]. rewrite IH by done.
  unfold pend. by rewrite list_lookup_insert_ne.
Qed.

Lemma total_insert (L : list (Z * chan Task * Z)) (p : Pool) (w : addr)
    (x : Z * chan Task * Z) :
  NoDup p → w ∈ p → (w < length L)%nat →
  total (<[w := x]> L) p = total L p - pend L w + snd x.
Proof.
  intros Hnd Hw Hl. induction p as [|a p IH]; [by apply elem_of_nil in Hw|].
  apply NoDup_cons in Hnd as [Ha Hnd]. rewrite !total_cons.
  destruct (decide (a = w)) as [->|Hne].
  - rewrite total_insert_notin by done.
    rewrite pend_insert by done. rewrite decide_True by done. lia.
  - apply elem_of_cons in Hw as [->|Hw]; [done|].
    rewrite IH by done. rewrite pend_insert by done.
    rewrite decide_False by done. lia.
Qed.

Lemma total_lower (L : list (Z * chan Task * Z)) (p : Pool) (q : Z) :
  (∀ a, a ∈ p → q ≤ pend L a) → Z.of_nat (length p) * q ≤ total L p.
Proof.
  induction p as [|a p IH]; intros H; [cbn; lia|].
  rewrite total_cons. cbn [length].
  pose proof (H a ltac:(left)).
  pose proof (IH (λ b Hb, H b ltac:(by right))). lia.
Qed.

Lemma total_lower_strict (L : list (Z * chan Task * Z)) (p : Pool) (q : Z) (b : addr) :
  (∀ a, a ∈ p → q ≤ pend L a) → b ∈ p → q < pend L b →
  Z.of_nat (length p) * q < total L p.
Proof.
  induction p as [|a p IH]; intros H Hb Hq; [by apply elem_of_nil in Hb|].
  rewrite total_cons. cbn [length].
  pose proof (H a ltac:(left)).
  apply elem_of_cons in Hb as [->|Hb].
  - pose proof (total_lower L p q (λ b Hb, H b ltac:(by right))). lia.
  - pose proof (IH (λ b Hb, H b ltac:(by right)) Hb Hq). lia.
Qed.

Lemma ceil_div_ge (a b : Z) : 0 < b → a ≤ b * ceil_div a b.
Proof.
  intros Hb. unfold ceil_div.
  pose proof (Z.div_mod (a + b - 1) b ltac:(lia)).
  pose proof (Z.mod_pos_bound (a + b - 1) b Hb). lia.
Qed.

Lemma balanced_step (L : list (Z * chan Task * Z)) (p : Pool) (w : addr)
    (x : Z * chan Task * Z) :
  balanced L p → w ∈ p → (w < length L)%nat →
  (∀ a, a ∈ p → pend L w ≤ pend L a) →
  snd x = pend L w + 1 →
  balanced (<[w := x]> L) p.
Proof.
  intros [q Hq] Hw Hl Hmin Hx.
  pose proof (Hq w Hw) as Hqw.
  destruct (decide (pend L w = q)) as [Heq|Hne].
  - exists q. intros a Ha. rewrite pend_insert by done.
    case_decide; [lia|by apply Hq].
  - exists (q + 1). intros a Ha. rewrite pend_insert by done.
    case_decide; [lia|]. pose proof (Hq a Ha). pose proof (Hmin a Ha). lia.
Qed.

Lemma balanced_bound (L : list (Z * chan Task * Z)) (p : Pool) (a : addr) :
  balanced L p → a ∈ p →
  pend L a ≤ ceil_div (total L p) (Z.of_nat (length p)).
Proof.
  intros [q Hq] Ha.
  assert (0 < Z.of_nat (length p)) as HN.
  { destruct p; [by apply elem_of_nil in Ha|cbn; lia]. }
  pose proof (ceil_div_ge (total L p) _ HN) as Hc.
  destruct (Z.le_gt_cases (pend L a) (ceil_div (total L p) (Z.of_nat (length p))))
    as [|Hgt]; [done|].
  pose proof (Hq a Ha).
  assert (Hlow : ∀ b, b ∈ p → ceil_div (total L p) (Z.of_nat (length p)) ≤ pend L b).
  { intros b Hb. pose proof (Hq b Hb). lia. }
  pose proof (total_lower_strict L p _ a Hlow Ha Hgt). lia.
Qed.

(** ** C4: even distribution *)

Lemma balanced_perm (L : list (Z * chan Task * Z)) (p p' : Pool) :
  p' ≡ₚ p → balanced L p → balanced L p'.
Proof.
  intros Hp [q Hq]. exists q. intros a Ha. apply Hq. by rewrite <- Hp.
Qed.

(** One dispatch keeps the pool balanced and adds one to the total. *)
Lemma dispatch_counts (t : Task) (s s' : World) :
  index_consistent s → heap_order s →
  queued (load <$> mem s) (pool (bal s)) →
  balanced (load <$> mem s) (pool (bal s)) →
  dispatch t s = Ok s' →
  index_consistent s' ∧ heap_order s' ∧
  queued (load <$> mem s') (pool (bal s')) ∧
  balanced (load <$> mem s') (pool (bal s')) ∧
  pool (bal s') ≡ₚ pool (bal s) ∧
  total (load <$> mem s') (pool (bal s')) = total (load <$> mem s) (pool (bal s)) + 1.
Proof.
  intros Hok Hord Hq Hbal Hd.
  destruct (dispatch_spec t s Hok (dispatch_nonempty _ _ _ Hd))
    as (w & ww & Hw & Hww & Hmin & _ & Hres).
  specialize (Hmin Hord).
  destruct (send_cases (tasks ww) t) as [[Hroom Hs]|[_ Hs]]; rewrite Hs in Hres;
    [|congruence].
  destruct Hres as (s'' & Hd' & Hok' & Hord' & Hperm & HL & _).
  assert (s'' = s') as -> by congruence.
  set (L := load <$> mem s) in *.
  assert (HwL : L !! w = Some (id ww, tasks ww, pending ww)).
  { unfold L. by rewrite list_lookup_fmap, Hww. }
  assert (Hwp : w ∈ pool (bal s)) by (apply ptr_elem_of; eauto).
  assert (Hwlen : (w < length L)%nat) by by eapply lookup_lt_Some.
  assert (Hpw : pend L w = pending ww) by (unfold pend; by rewrite HwL).
  destruct (Hq w _ _ _ Hwp HwL) as [Hpe Hcap].
  assert (Hwrap : wrap (pending ww + 1) = pending ww + 1).
  { apply wrap_id. unfold int_min, int_max in *. lia. }
  rewrite Hwrap in HL.
  assert (Hmin' : ∀ a, a ∈ pool (bal s) → pend L w ≤ pend L a).
  { intros a Ha. specialize (Hmin a Ha). unfold pending_of in Hmin.
    rewrite key_pend in Hmin. fold L in Hmin. lia. }
  split; [done|]. split; [by auto|]. rewrite HL. split; [|split; [|split]].
  - intros a i ch pe Ha Hl. rewrite Hperm in Ha.
    destruct (decide (a = w)) as [->|Hne].
    + rewrite list_lookup_insert_eq in Hl by done.
      injection Hl as <- <- <-. cbn [buf cap]. rewrite length_app. cbn [length].
      split; [lia|done].
    + rewrite list_lookup_insert_ne in Hl by done. by eapply Hq.
  - apply (balanced_perm _ (pool (bal s))); [done|].
    apply balanced_step; cbn [snd]; [done..|lia].
  - done.
  - rewrite (total_perm _ _ _ Hperm).
    rewrite total_insert; [cbn [snd]; lia|by eapply index_ok_NoDup|done..].
Qed.

Lemma dispatch_all_counts (ts : list Task) :
  ∀ s s', index_consistent s → heap_order s →
    queued (load <$> mem s) (pool (bal s)) →
    balanced (load <$> mem s) (pool (bal s)) →
    dispatch_all ts s = Ok s' →
    balanced (load <$> mem s') (pool (bal s')) ∧
    pool (bal s') ≡ₚ pool (bal s) ∧
    total (load <$> mem s') (pool (bal s'))
      = total (load <$> mem s) (pool (bal s)) + Z.of_nat (length ts).
Proof.
  induction ts as [|t ts IH]; intros s s' Hok Hord Hq Hbal Hd; cbn [dispatch_all] in Hd.
  - injection Hd as <-. split; [done|]. split; [done|]. cbn. lia.
  - apply bind_Ok in Hd as (s1 & Hd1 & Hd2).
    destruct (dispatch_counts t s s1 Hok Hord Hq Hbal Hd1)
      as (Hok1 & Hord1 & Hq1 & Hbal1 & Hperm1 & Htot1).
    destruct (IH s1 s' Hok1 Hord1 Hq1 Hbal1 Hd2) as (Hbal' & Hperm' & Htot').
    split; [done|]. split; [by etrans|]. rewrite Htot', Htot1. cbn [length]. lia.
Qed.

Lemma total_zero (L : list (Z * chan Task * Z)) (p : Pool) :
  (∀ a, a ∈ p → pend L a = 0) → total L p = 0.
Proof.
  induction p as [|a p IH]; intros H; [done|]. rewrite total_cons.
  rewrite (H a) by left. rewrite IH; [done|]. intros b Hb. apply H. by right.
Qed.

(** The dispatches return as long as the channels have room. *)
Lemma dispatch_all_returns (B : Z) (ts : list Task) :
  ∀ s, index_consistent s → heap_order s → pool (bal s) ≠ [] →
    queued (load <$> mem s) (pool (bal s)) →
    balanced (load <$> mem s) (pool (bal s)) →
    roomy B (load <$> mem s) (pool (bal s)) →
    total (load <$> mem s) (pool (bal s)) + Z.of_nat (length ts)
      ≤ Z.of_nat (length (pool (bal s))) * B →
    ∃ s', dispatch_all ts s = Ok s'.
Proof.
  induction ts as [|t ts IH]; intros s Hok Hord Hne Hq Hbal Hroom Htot.
  { by exists s. }
  cbn [dispatch_all length] in *.
  destruct (dispatch_spec t s Hok Hne) as (w & ww & Hw & Hww & Hmin & _ & Hres).
  specialize (Hmin Hord).
  set (L := load <$> mem s) in *.
  assert (HwL : L !! w = Some (id ww, tasks ww, pending ww)).
  { unfold L. by rewrite list_lookup_fmap, Hww. }
  assert (Hwp : w ∈ pool (bal s)) by (apply ptr_elem_of; eauto).
  assert (Hpw : pend L w = pending ww) by (unfold pend; by rewrite HwL).
  assert (Hlow : ∀ a, a ∈ pool (bal s) → pending ww ≤ pend L a).
  { intros a Ha. specialize (Hmin a Ha). unfold pending_of in Hmin.
    by rewrite key_pend in Hmin. }
  pose proof (total_lower L _ _ Hlow) as Hlb.
  assert (0 < Z.of_nat (length (pool (bal s)))) as HN.
  { destruct (pool (bal s)); [done|cbn; lia]. }
  assert (pending ww < B) as HltB.
  { apply (Z.mul_lt_mono_pos_l (Z.of_nat (length (pool (bal s))))); lia. }
  pose proof (Hroom w _ _ _ Hwp HwL) as Hr.
  destruct (send_cases (tasks ww) t) as [[_ Hs]|[Hfull _]].
  2:{ exfalso. lia. }
  rewrite Hs in Hres. destruct Hres as (s1 & Hd1 & _).
  destruct (dispatch_counts t s s1 Hok Hord Hq Hbal Hd1)
    as (Hok1 & Hord1 & Hq1 & Hbal1 & Hperm1 & Htot1).
  rewrite Hd1. ok_bind. apply IH; try done.
  - intros Hnil. rewrite Hnil in Hperm1. by apply Permutation_nil_l in Hperm1.
  - destruct (dispatch_spec t s Hok Hne) as (w' & ww' & Hw' & Hww' & _ & _ & Hres').
    assert (w' = w) as -> by congruence. assert (ww' = ww) as -> by congruence.
    rewrite Hs in Hres'. destruct Hres' as (s1' & Hd1' & _ & _ & _ & HL & _).
    assert (s1' = s1) as -> by congruence.
    destruct (Hq w _ _ _ Hwp HwL) as [Hpe Hcap].
    rewrite wrap_id in HL by (unfold int_min, int_max in *; lia).
    rewrite HL. intros a i ch pe Ha Hl. rewrite Hperm1 in Ha.
    destruct (decide (a = w)) as [->|Hne'].
    + rewrite list_lookup_insert_eq in Hl by by eapply lookup_lt_Some.
      injection Hl as <- <- <-. cbn [buf cap]. rewrite length_app. cbn [length]. lia.
    + rewrite list_lookup_insert_ne in Hl by done. by eapply Hroom.
  - rewrite Htot1, (Permutation_length Hperm1). unfold L in *. lia.
Qed.

(** C4. Starting from an index-consistent pool of N ≥ 1 workers whose
    pending counts are all 0, M dispatch steps with no completion in
    between leave every pending count at most ceil(M/N), and any two
    pending counts at most 1 apart; the M steps do return when every
    worker's channel has room for ceil(M/N) more tasks. (Channel
    capacities are Go ints.) *)
Theorem even_distribution (ts : list Task) (s : World) :
  index_consistent s → pool (bal s) ≠ [] →
  (∀ a w, a ∈ pool (bal s) → mem s !! a = Some w →
     pending w = 0 ∧ cap (tasks w) ≤ int_max) →
  let N := Z.of_nat (length (pool (bal s))) in
  let M := Z.of_nat (length ts) in
  (∀ s', dispatch_all ts s = Ok s' →
     pool (bal s') ≡ₚ pool (bal s) ∧
     (∀ a, a ∈ pool (bal s') → pending_of s' a ≤ ceil_div M N) ∧
     (∀ a b, a ∈ pool (bal s') → b ∈ pool (bal s') →
        pending_of s' a - pending_of s' b ≤ 1)) ∧
  ((∀ a w, a ∈ pool (bal s) → mem s !! a = Some w →
      Z.of_nat (length (buf (tasks w))) + ceil_div M N ≤ cap (tasks w)) →
   ∃ s', dispatch_all ts s = Ok s').
Proof.
  intros Hok Hne Hzero N M.
  assert (Hpend0 : ∀ a, a ∈ pool (bal s) → pend (load <$> mem s) a = 0).
  { intros a Ha. apply ptr_elem_of in Ha as [k Hk].
    destruct (index_ok_ptr _ _ _ _ Hok Hk) as (w & Hw & _).
    destruct (Hzero a w) as [Hp _]; [apply ptr_elem_of; eauto|done|].
    unfold pend. by rewrite list_lookup_fmap, Hw. }
  assert (Hord : heap_order s).
  { intros k Hk. unfold key_at.
    assert (∀ j, from_option (key (mem s)) 0 (ptr (pool (bal s)) j) = 0) as H0.
    { intros j. destruct (ptr (pool (bal s)) j) as [a|] eqn:Ha; [|done]. cbn.
      rewrite key_pend. apply Hpend0, ptr_elem_of. eauto. }
    by rewrite !H0. }
  assert (Hq : queued (load <$> mem s) (pool (bal s))).
  { intros a i ch pe Ha Hl. rewrite list_lookup_fmap in Hl.
    destruct (mem s !! a) as [w|] eqn:Hw; [|done].
    injection Hl as <- <- <-. destruct (Hzero a w Ha Hw) as [-> Hc]. split; [lia|done]. }
  assert (Hbal : balanced (load <$> mem s) (pool (bal s))).
  { exists 0. intros a Ha. rewrite Hpend0 by done. lia. }
  split.
  - intros s' Hd.
    destruct (dispatch_all_counts ts s s' Hok Hord Hq Hbal Hd) as (Hbal' & Hperm & Htot).
    rewrite (total_zero _ _ Hpend0) in Htot.
    split; [done|]. split.
    + intros a Ha. unfold pending_of. rewrite key_pend.
      pose proof (balanced_bound _ _ a Hbal' Ha) as Hb.
      rewrite Htot, Hperm in Hb. by rewrite Z.add_0_l in Hb.
    + intros a b Ha Hb. unfold pending_of. rewrite !key_pend.
      destruct Hbal' as [q Hq']. pose proof (Hq' a Ha). pose proof (Hq' b Hb). lia.
  - intros Hroom.
    apply (dispatch_all_returns (ceil_div M N)); try done.
    + intros a i ch pe Ha Hl. rewrite list_lookup_fmap in Hl.
      destruct (mem s !! a) as [w|] eqn:Hw; [|done].
      injection Hl as <- <- <-. destruct (Hzero a w Ha Hw) as [-> _].
      specialize (Hroom a w Ha Hw). lia.
    + rewrite (total_zero _ _ Hpend0).
      assert (0 < N) as HN.
      { unfold N. destruct (pool (bal s)); [done|cbn; lia]. }
      pose proof (ceil_div_ge M N HN). fold N. lia.
Qed.

Lemma even_distribution_witness :
  (∀ s', dispatch_all seven_tasks three_workers = Ok s' →
     pool (bal s') ≡ₚ pool (bal three_workers) ∧
     (∀ a, a ∈ pool (bal s') → pending_of s' a ≤ 3) ∧
     (∀ a b, a ∈ pool (bal s') → b ∈ pool (bal s') →
        pending_of s' a - pending_of s' b ≤ 1)) ∧
  ((∀ a w, a ∈ pool (bal three_workers) → mem three_workers !! a = Some w →
      Z.of_nat (length (buf (tasks w))) + 3 ≤ cap (tasks w)) →
   ∃ s', dispatch_all seven_tasks three_workers = Ok s').
Proof.
  apply (even_distribution seven_tasks three_workers).
  - apply index_okb_sound. vm_compute. reflexivity.
  - vm_compute. discriminate.
  - intros a w _ Hw. exact (fresh_world_idle 3 (Chan [] 3) (Chan [] 30) a w Hw).
Defined.

(** ** C5: what one dispatch does *)

(** C5. On a non-empty pool that is index-consistent and heap-ordered,
    [dispatch] pops a worker whose pending count is least among the
    workers of the pool; when that worker's channel has room the task is
    appended to it, the worker's pending count goes up by one (Go's
    [++] on an int), every other worker keeps its load, and the pool
    holds the same workers as before, index-consistent and ordered; when
    the channel is full the send blocks. *)
Theorem dispatch_least_loaded (task : Task) (s : World) :
  index_consistent s → heap_order s → pool (bal s) ≠ [] →
  ∃ w ww,
    w ∈ pool (bal s) ∧ mem s !! w = Some ww ∧
    (∀ a, a ∈ pool (bal s) → pending ww ≤ pending_of s a) ∧
    (∃ m1 p1, heap.Pop (mem s) (pool (bal s)) = Ok (w, m1, p1) ∧
              pool (bal s) ≡ₚ w :: p1) ∧
    (cap (tasks ww) ≤ Z.of_nat (length (buf (tasks ww))) →
     dispatch task s = Blocked) ∧
    (Z.of_nat (length (buf (tasks ww))) < cap (tasks ww) →
     ∃ s' ww', dispatch task s = Ok s' ∧ mem s' !! w = Some ww' ∧
       tasks ww' = Chan (buf (tasks ww) ++ [task]) (cap (tasks ww)) ∧
       pending ww' = wrap (pending ww + 1) ∧
       (int_min ≤ pending ww < int_max → pending ww' = pending ww + 1) ∧
       id ww' = id ww ∧
       (∀ a, a ≠ w → load <$> (mem s' !! a) = load <$> (mem s !! a)) ∧
       pool (bal s') ≡ₚ pool (bal s) ∧
       index_consistent s' ∧ heap_order s').
Proof.
  intros Hok Hord Hne.
  destruct (dispatch_spec task s Hok Hne) as (w & ww & Hw & Hww & Hmin & Hpop & Hres).
  exists w, ww. split; [apply ptr_elem_of; eauto|]. split; [done|].
  split; [by auto|]. split.
  { destruct Hpop as (m1 & p1 & ? & ? & _). eauto. }
  destruct (send_cases (tasks ww) task) as [[Hroom Hs]|[Hfull Hs]]; rewrite Hs in Hres.
  - split; [lia|]. intros _.
    destruct Hres as (s' & Hd & Hok' & Hord' & Hperm & HL & _).
    assert (Hwlen : (w < length (load <$> mem s))%nat).
    { rewrite length_fmap. by eapply lookup_lt_Some. }
    pose proof (f_equal (λ L, L !! w) HL) as HLw. cbn beta in HLw.
    rewrite list_lookup_insert_eq, list_lookup_fmap in HLw by done.
    destruct (mem s' !! w) as [ww'|] eqn:Hww'; [|done].
    injection HLw as Hid Ht Hp.
    exists s', ww'. split; [done|]. split; [done|]. split; [done|].
    split; [done|]. split.
    { intros Hr. rewrite Hp. apply wrap_id. lia. }
    split; [done|]. split; [|by auto].
    intros a Ha. pose proof (f_equal (λ L, L !! a) HL) as HLa. cbn beta in HLa.
    by rewrite list_lookup_insert_ne, !list_lookup_fmap in HLa.
  - split; [done|]. lia.
Qed.

Lemma dispatch_least_loaded_witness :
  ∃ w ww,
    w ∈ pool (bal busy_workers) ∧ mem busy_workers !! w = Some ww ∧
    (∀ a, a ∈ pool (bal busy_workers) → pending ww ≤ pending_of busy_workers a) ∧
    (∃ m1 p1, heap.Pop (mem busy_workers) (pool (bal busy_workers)) = Ok (w, m1, p1) ∧
              pool (bal busy_workers) ≡ₚ w :: p1) ∧
    (cap (tasks ww) ≤ Z.of_nat (length (buf (tasks ww))) →
     dispatch failing_task busy_workers = Blocked) ∧
    (Z.of_nat (length (buf (tasks ww))) < cap (tasks ww) →
     ∃ s' ww', dispatch failing_task busy_workers = Ok s' ∧ mem s' !! w = Some ww' ∧
       tasks ww' = Chan (buf (tasks ww) ++ [failing_task]) (cap (tasks ww)) ∧
       pending ww' = wrap (pending ww + 1) ∧
       (int_min ≤ pending ww < int_max → pending ww' = pending ww + 1) ∧
       id ww' = id ww ∧
       (∀ a, a ≠ w → load <$> (mem s' !! a) = load <$> (mem busy_workers !! a)) ∧
       pool (bal s') ≡ₚ pool (bal busy_workers) ∧
       index_consistent s' ∧ heap_order s').
Proof.
  apply (dispatch_least_loaded failing_task busy_workers).
  - apply index_okb_sound. vm_compute. reflexivity.
  - apply heap_orderedb_sound. vm_compute. reflexivity.
  - vm_compute. discriminate.
Defined.

(** ** C6: heap order *)

(** C6. Heap order is kept by every Pool operation of the balancer. On an
    index-consistent pool in heap order: the extract-min of [dispatch]
    returns with the remaining workers in heap order, and so does the
    pool after the whole dispatch (pop, [pending++], reinsert); for a
    worker of the pool, the removal of [completed] (which runs after
    [pending--]) returns with the remaining workers in heap order, and
    so does the pool after the whole completion (remove, reinsert).
    [New] returns a pool in heap order. Heap order is: for every
    non-root position [k], the pending count at [(k-1)/2] is at most the
    pending count at [k]. *)
Theorem heap_order_invariant (s : World) :
  index_consistent s → heap_order s →
  (pool (bal s) ≠ [] →
   ∃ w m1 p1, heap.Pop (mem s) (pool (bal s)) = Ok (w, m1, p1) ∧ heap_ordered m1 p1) ∧
  (∀ t s', dispatch t s = Ok s' → heap_order s') ∧
  (∀ w ww, w ∈ pool (bal s) → mem s !! w = Some ww →
   ∃ m2 p2,
     heap.Remove (<[w := set_pending ww (wrap (pending ww - 1))]> (mem s))
                 (pool (bal s)) (index ww) = Ok (w, m2, p2) ∧
     heap_ordered m2 p2) ∧
  (∀ w, w ∈ pool (bal s) → ∃ s', completed w s = Ok s' ∧ heap_order s') ∧
  (∀ n s0, New n = Ok s0 →
   ∀ k, 0 < k < Pool.Len (pool (bal s0)) →
     key_at (mem s0) (pool (bal s0)) ((k - 1) ÷ 2) ≤ key_at (mem s0) (pool (bal s0)) k).
Proof.
  intros Hok Hord. split; [|split; [|split; [|split]]].
  - intros Hne.
    destruct (dispatch_spec failing_task s Hok Hne)
      as (w & ww & _ & _ & _ & (m1 & p1 & Hpop & _ & _ & Hord1) & _).
    exists w, m1, p1. auto.
  - intros t s' Hd. by destruct (dispatch_keeps t s s' Hok Hd) as (_ & H & _); auto.
  - intros w ww Hw Hww.
    destruct (completed_spec w s Hok Hw)
      as (ww' & s' & Hww' & _ & _ & _ & _ & _ & _ & m2 & p2 & Hrm & _ & _ & Hord2).
    assert (ww' = ww) as -> by congruence.
    exists m2, p2. auto.
  - intros w Hw.
    destruct (completed_keeps w s Hok Hw) as (s' & Hc & _ & Hord' & _).
    exists s'. auto.
  - intros n s0 (_ & _ & ->)%New_inv. apply fresh_world_heap_order.
Qed.

Lemma heap_order_invariant_witness :
  (pool (bal busy_workers) ≠ [] →
   ∃ w m1 p1, heap.Pop (mem busy_workers) (pool (bal busy_workers)) = Ok (w, m1, p1) ∧
              heap_ordered m1 p1) ∧
  (∀ t s', dispatch t busy_workers = Ok s' → heap_order s') ∧
  (∀ w ww, w ∈ pool (bal busy_workers) → mem busy_workers !! w = Some ww →
   ∃ m2 p2,
     heap.Remove (<[w := set_pending ww (wrap (pending ww - 1))]> (mem busy_workers))
                 (pool (bal busy_workers)) (index ww) = Ok (w, m2, p2) ∧
     heap_ordered m2 p2) ∧
  (∀ w, w ∈ pool (bal busy_workers) → ∃ s', completed w busy_workers = Ok s' ∧ heap_order s') ∧
  (∀ n s0, New n = Ok s0 →
   ∀ k, 0 < k < Pool.Len (pool (bal s0)) →
     key_at (mem s0) (pool (bal s0)) ((k - 1) ÷ 2) ≤ key_at (mem s0) (pool (bal s0)) k).
Proof.
  apply (heap_order_invariant busy_workers).
  - apply index_okb_sound. vm_compute. reflexivity.
  - apply heap_orderedb_sound. vm_compute. reflexivity.
Defined.

(** ** C7: index consistency *)

(** C7. Index consistency is kept between operations. On a pool where
    every worker's [index] is its position: [Swap] of two positions
    exchanges the two pointers and leaves every worker's [index] equal
    to its new position; [Push] of a worker not in the pool puts it last
    with [index] the old length; [dispatch] and [completed] (for a
    worker of the pool) return with the pool index-consistent. [New]
    returns an index-consistent pool. *)
Theorem index_consistency_invariant (s : World) :
  index_consistent s →
  (∀ i j m' p', Pool.Swap (mem s) (pool (bal s)) i j = Ok (m', p') →
     index_ok m' p' ∧
     ptr p' i = ptr (pool (bal s)) j ∧ ptr p' j = ptr (pool (bal s)) i) ∧
  (∀ x m' p', x ∉ pool (bal s) → Pool.Push (mem s) (pool (bal s)) x = Ok (m', p') →
     index_ok m' p' ∧ p' = pool (bal s) ++ [x] ∧
     index <$> (m' !! x) = Some (Pool.Len (pool (bal s)))) ∧
  (∀ t s', dispatch t s = Ok s' → index_consistent s') ∧
  (∀ w, w ∈ pool (bal s) → ∃ s', completed w s = Ok s' ∧ index_consistent s') ∧
  (∀ n s0, New n = Ok s0 →
   ∀ (k : nat) (a : addr), pool (bal s0) !! k = Some a →
     index <$> (mem s0 !! a) = Some (Z.of_nat k)).
Proof.
  intros Hok. split; [|split; [|split; [|split]]].
  - intros i j m' p' Hsw.
    assert (0 ≤ i < Pool.Len (pool (bal s)) ∧ 0 ≤ j < Pool.Len (pool (bal s))) as [Hi Hj].
    { unfold Pool.Swap in Hsw.
      apply bind_Ok in Hsw as (ai & Hai & Hsw). apply bind_Ok in Hsw as (wi & _ & Hsw).
      cbv zeta in Hsw. apply bind_Ok in Hsw as (aj & Haj & _).
      split; eapply ptr_range, at_Ok; eauto. }
    destruct (Swap_spec _ _ i j Hok Hi Hj) as (m1 & p1 & Hsw' & _ & Hok1 & _ & Hptr).
    assert (m1 = m' ∧ p1 = p') as [-> ->] by (split; congruence).
    split; [done|]. rewrite !Hptr.
    destruct (transp_cases i j i) as [[_ ->]|[(? & _)|(? & _)]]; [|done..].
    destruct (transp_cases i j j) as [[-> ->]|[(_ & _ & ->)|(_ & ? & _)]]; done.
  - intros x m' p' Hx Hpush. unfold Pool.Push in Hpush.
    apply bind_Ok in Hpush as (w & Hw & Hpush). injection Hpush as <- <-.
    unfold deref in Hw. destruct (mem s !! x) as [wx|] eqn:Hwx; [|done].
    injection Hw as ->.
    assert (Hm : <[x := set_index w (Pool.Len (pool (bal s)))]> (mem s) !! x
                 = Some (set_index w (Pool.Len (pool (bal s))))).
    { apply list_lookup_insert_eq. by eapply lookup_lt_Some. }
    split; [|split; [done|by rewrite Hm]].
    intros k a Ha. apply lookup_app_Some in Ha as [Ha|[Hk Ha]].
    + by apply (index_ok_insert _ _ x _ Hok Hx).
    + apply list_lookup_singleton_Some in Ha as [Hk' <-].
      eexists. split; [done|]. cbn. unfold Pool.Len. lia.
  - intros t s' Hd. by destruct (dispatch_keeps t s s' Hok Hd).
  - intros w Hw. destruct (completed_keeps w s Hok Hw) as (s' & ? & ? & _). eauto.
  - intros n s0 (_ & _ & ->)%New_inv k a Ha.
    destruct (fresh_world_index_consistent _ _ _ k a Ha) as (w & -> & <-). done.
Qed.

Lemma index_consistency_invariant_witness :
  (∀ i j m' p', Pool.Swap (mem busy_workers) (pool (bal busy_workers)) i j = Ok (m', p') →
     index_ok m' p' ∧
     ptr p' i = ptr (pool (bal busy_workers)) j ∧ ptr p' j = ptr (pool (bal busy_workers)) i) ∧
  (∀ x m' p', x ∉ pool (bal busy_workers) →
     Pool.Push (mem busy_workers) (pool (bal busy_workers)) x = Ok (m', p') →
     index_ok m' p' ∧ p' = pool (bal busy_workers) ++ [x] ∧
     index <$> (m' !! x) = Some (Pool.Len (pool (bal busy_workers)))) ∧
  (∀ t s', dispatch t busy_workers = Ok s' → index_consistent s') ∧
  (∀ w, w ∈ pool (bal busy_workers) →
     ∃ s', completed w busy_workers = Ok s' ∧ index_consistent s') ∧
  (∀ n s0, New n = Ok s0 →
   ∀ (k : nat) (a : addr), pool (bal s0) !! k = Some a →
     index <$> (mem s0 !! a) = Some (Z.of_nat k)).
Proof.
  apply (index_consistency_invariant busy_workers).
  apply index_okb_sound. vm_compute. reflexivity.
Defined.

(** ** C8: the pool is never empty when [dispatch] pops it *)

(** [New 0] returns a balancer with an empty pool; a dispatch step on it
    panics, in the extract-min, on the empty pool. *)
Lemma dispatch_after_New_0_panics :
  ∃ s0, New 0 = Ok s0 ∧ pool (bal s0) = [] ∧
        heap.Pop (mem s0) (pool (bal s0)) = Panic ∧
        dispatch failing_task s0 = Panic.
Proof. eexists. split; [reflexivity|]. repeat split. Qed.

(** C8, amended. For a positive worker count on which [New] returns, every
    state reached from the balancer [New] returns by dispatch steps and
    by completion steps of its workers has all the workers in its pool:
    the extract-min of a further dispatch step returns a worker, the
    step does not panic, and a further completion step of any worker
    returns. *)
Theorem pool_never_empty (n : Z) (s0 s : World) :
  0 < n → New n = Ok s0 → reachable s0 s →
  length (pool (bal s)) = Z.to_nat n ∧
  pool (bal s) ≠ [] ∧
  (∀ t,
     (∃ w m1 p1, heap.Pop (mem s) (pool (bal s)) = Ok (w, m1, p1)) ∧
     ((∃ s', dispatch t s = Ok s') ∨ dispatch t s = Blocked)) ∧
  (∀ w, (w < Z.to_nat n)%nat → ∃ s', completed w s = Ok s').
Proof.
  intros Hn (_ & _ & ->)%New_inv Hr.
  apply reachable_inv in Hr as (Hok & Hord & Hall & Hlen);
    [|apply fresh_world_index_consistent|apply fresh_world_heap_order|].
  2:{ unfold all_pooled. cbn. by rewrite length_fmap, length_seq. }
  cbn [mem fresh_world] in Hlen. rewrite length_fmap, length_seq in Hlen.
  assert (Hl : length (pool (bal s)) = Z.to_nat n).
  { unfold all_pooled in Hall. by rewrite Hall, length_seq. }
  assert (Hne : pool (bal s) ≠ []).
  { intros Hnil. rewrite Hnil in Hl. cbn in Hl. lia. }
  split; [done|]. split; [done|]. split.
  - intros t.
    destruct (dispatch_spec t s Hok Hne)
      as (w & ww & _ & _ & _ & (m1 & p1 & Hpop & _) & Hres).
    split; [by eauto|].
    destruct (send (tasks ww) t); [left|by right..].
    destruct Hres as (s' & ? & _). eauto.
  - intros w Hw.
    destruct (completed_keeps w s Hok) as (s' & ? & _); [|by eauto].
    unfold all_pooled in Hall. rewrite Hall. apply elem_of_seq. lia.
Qed.

Lemma pool_never_empty_witness :
  length (pool (bal busy_workers)) = Z.to_nat 3 ∧
  pool (bal busy_workers) ≠ [] ∧
  (∀ t,
     (∃ w m1 p1, heap.Pop (mem busy_workers) (pool (bal busy_workers)) = Ok (w, m1, p1)) ∧
     ((∃ s', dispatch t busy_workers = Ok s') ∨ dispatch t busy_workers = Blocked)) ∧
  (∀ w, (w < Z.to_nat 3)%nat → ∃ s', completed w busy_workers = Ok s').
Proof.
  apply (pool_never_empty 3 three_workers busy_workers).
  - lia.
  - vm_compute. reflexivity.
  - apply (reachable_dispatch_all
             [failing_task; failing_task; endless_task; failing_task]).
    vm_compute. reflexivity.
Defined.

(** ** The goroutines of the workers *)

Lemma fresh_world_on_work_queue (n : nat) (d : chan addr) (wk : chan Task) :
  on_work_queue (fresh_world n d wk).
Proof.
  intros g Hg. cbn [goroutines fresh_world] in Hg.
  apply list_elem_of_fmap in Hg as (a & -> & _). eauto.
Qed.

(** The receive of a worker started on [balancer.work]. *)
Lemma recv_from_shared (s : World) :
  recv_from BalancerWork s =
    match buf (work (bal s)) with
    | [] => Blocked
    | t :: rest => Ok (t, set_work s (Chan rest (cap (work (bal s)))))
    end.
Proof. unfold recv_from, recv. by destruct (buf (work (bal s))). Qed.

(** ** Sends on return channels *)

Lemma room_at_Open (s : World) (ch : chan_id) :
  (0 < room_at s ch)%nat → ∃ k, returns s !! ch = Some (Open (S k)).
Proof.
  unfold room_at, room_of.
  destruct (returns s !! ch) as [[[|k]|]|]; intros H; try lia. eauto.
Qed.

Lemma send_return_Open (ch : chan_id) (e : error) (s : World) (k : nat) :
  returns s !! ch = Some (Open (S k)) → send_return ch e s = Ok (deliver s ch e k).
Proof. intros H. unfold send_return. by rewrite H. Qed.

Lemma send_return_Ok (ch : chan_id) (e : error) (s s' : World) :
  send_return ch e s = Ok s' →
  ∃ k, returns s !! ch = Some (Open (S k)) ∧ s' = deliver s ch e k.
Proof.
  unfold send_return. destruct (returns s !! ch) as [[[|k]|]|]; try done.
  intros [= <-]. eauto.
Qed.

(** A return channel that is open, or [nil], and cannot take a value
    keeps the sender. *)
Lemma send_return_parks (ch : chan_id) (e : error) (s : World) :
  room_at s ch = 0%nat → returns s !! ch ≠ Some Closed →
  send_return ch e s = Blocked.
Proof.
  unfold room_at, room_of, send_return.
  by destruct (returns s !! ch) as [[[|k]|]|].
Qed.

Lemma room_of_insert (rs : list ReturnChan) (ch ch' : chan_id) (k : nat) :
  (ch < length rs)%nat →
  room_of (<[ch := Open k]> rs) ch' = if decide (ch' = ch) then k else room_of rs ch'.
Proof.
  intros Hlt. unfold room_of. destruct (decide (ch' = ch)) as [->|Hne].
  - by rewrite list_lookup_insert_eq.
  - by rewrite list_lookup_insert_ne.
Qed.

(** A turn of a worker started on [balancer.work]. *)
Lemma Worker_work_shared (s : World) :
  Worker_work BalancerWork s =
    match buf (work (bal s)) with
    | [] => Blocked
    | t :: rest =>
        match fn t with
        | Some e => send_return (c t) e (set_work s (Chan rest (cap (work (bal s)))))
        | None => Blocked
        end
    end.
Proof.
  unfold Worker_work, Worker_body. rewrite recv_from_shared.
  by destruct (buf (work (bal s))).
Qed.

(** A turn of a worker at the head of its loop is two steps of the
    interleaving: the receive, then the body. *)
Lemma Worker_work_sched (s s' : World) (k : nat) (w : addr) (r : chan_ref) :
  goroutines s !! k = Some (GoWork w r None) →
  Worker_work r s = Ok s' →
  rtc sched s s'.
Proof.
  intros Hk Hw. unfold Worker_work in Hw.
  apply bind_Ok in Hw as ([task s1] & Hr & Hbody).
  assert (Hg : goroutines s1 = goroutines s).
  { destruct r; cbn in Hr.
    - apply bind_Ok in Hr as ([? ?] & _ & [= _ <-]). done.
    - apply bind_Ok in Hr as (? & _ & Hr).
      apply bind_Ok in Hr as ([? ?] & _ & [= _ <-]). done. }
  unfold Worker_body in Hbody. destruct (fn task) as [e|] eqn:Hf; [|done].
  apply send_return_Ok in Hbody as (j & Hj & ->).
  eapply rtc_l; [by eapply sched_range|].
  replace (deliver s1 (c task) e j)
    with (set_goroutine
            (deliver (set_goroutine s1 k (GoWork w r (Some task))) (c task) e j)
            k (GoWork w r None)).
  - apply rtc_once. eapply (sched_body _ k w r task).
    + cbn [goroutines set_goroutine]. apply list_lookup_insert_eq.
      rewrite Hg. by eapply lookup_lt_Some.
    + unfold Worker_body. rewrite Hf. by apply send_return_Open.
  - unfold set_goroutine, deliver. cbn [mem bal goroutines delivered returns].
    rewrite list_insert_insert_eq, list_insert_id by (by rewrite Hg).
    by destruct s1.
Qed.

Lemma outcomes_cons (t : Task) (q : list Task) :
  outcomes (t :: q) = outcomes [t] ++ outcomes q.
Proof. unfold outcomes. cbn. by destruct (outcome t). Qed.

Lemma outcomes_app (q1 q2 : list Task) :
  outcomes (q1 ++ q2) = outcomes q1 ++ outcomes q2.
Proof. unfold outcomes. apply omap_app. Qed.

#[local] Instance outcomes_Permutation : Proper ((≡ₚ) ==> (≡ₚ)) outcomes.
Proof. intros q1 q2 H. unfold outcomes. by rewrite H. Qed.

Lemma outcomes_returned (t : Task) (e : error) :
  fn t = Some e → outcomes [t] = [(c t, e)].
Proof. intros Hf. unfold outcomes, outcome. cbn. by rewrite Hf. Qed.



(** ** Values written on one return channel *)

Lemma written_on_app (ch : chan_id) (l1 l2 : list (chan_id * error)) :
  written_on ch (l1 ++ l2) = written_on ch l1 ++ written_on ch l2.
Proof. unfold written_on. by rewrite filter_app, fmap_app. Qed.




(** A value still to be written on a channel belongs to a task whose
    function returns. *)
Lemma written_on_outcomes_inv (ch : chan_id) (q : list Task) (e : error) :
  e ∈ written_on ch (outcomes q) → ∃ u, u ∈ q ∧ c u = ch ∧ fn u = Some e.
Proof.
  unfold written_on, outcomes.
  intros ([ch' e'] & -> & [Hch Ho]%list_elem_of_filter)%list_elem_of_fmap.
  apply list_elem_of_omap in Ho as (u & Hu & Ho).
  unfold outcome in Ho. destruct (fn u) as [e''|] eqn:Hf; [|done].
  injection Ho as <- <-. eauto.
Qed.

Lemma written_on_one (ch ch0 : chan_id) (e : error) :
  length (written_on ch [(ch0, e)]) = if decide (ch = ch0) then 1%nat else 0%nat.
Proof.
  unfold written_on. cbn. destruct (decide (ch = ch0)) as [->|Hne].
  - by rewrite decide_True.
  - by rewrite decide_False.
Qed.

(** ** Values due on return channels *)

Lemma due_app (ch : chan_id) (q1 q2 : list Task) :
  due ch (q1 ++ q2) = (due ch q1 + due ch q2)%nat.
Proof. unfold due. by rewrite outcomes_app, written_on_app, length_app. Qed.



(** The channels no task of [q] is to write on need no room. *)
Lemma takes_all_check (s : World) (q : list Task) :
  Forall (λ u, (due (c u) q ≤ room_at s (c u))%nat) q → takes_all s q.
Proof.
  intros H ch. unfold due at 1.
  destruct (written_on ch (outcomes q)) as [|e l] eqn:Hw; [cbn; lia|].
  destruct (written_on_outcomes_inv ch q e) as (u & Hu & <- & _).
  { rewrite Hw. left. }
  rewrite <- Hw. by eapply (Forall_forall (λ u, (due (c u) q ≤ room_at s (c u))%nat)).
Qed.


(** ** Counting in a list *)




(** ** Steps of a world of workers *)

(** A step of a world whose goroutines are all workers on
    [balancer.work]: either a worker at the head of its loop receives the
    oldest task of that channel, or a worker finishes the task it holds:
    the function has returned and the task's return channel takes the
    value. The balancer's pool, the Worker structs and the [done] channel
    are untouched. *)
Lemma sched_shared (s s' : World) :
  on_work_queue s → sched s s' →
  mem s' = mem s ∧ pool (bal s') = pool (bal s) ∧ done (bal s') = done (bal s) ∧
  on_work_queue s' ∧
  ((∃ k w t rest,
      goroutines s !! k = Some (GoWork w BalancerWork None) ∧
      buf (work (bal s)) = t :: rest ∧ buf (work (bal s')) = rest ∧
      goroutines s' = <[k := GoWork w BalancerWork (Some t)]> (goroutines s) ∧
      delivered s' = delivered s ∧ returns s' = returns s) ∨
   (∃ k w t e j,
      goroutines s !! k = Some (GoWork w BalancerWork (Some t)) ∧ fn t = Some e ∧
      buf (work (bal s')) = buf (work (bal s)) ∧
      goroutines s' = <[k := GoWork w BalancerWork None]> (goroutines s) ∧
      delivered s' = delivered s ++ [(c t, e)] ∧
      returns s !! c t = Some (Open (S j)) ∧
      returns s' = <[c t := Open j]> (returns s))).
Proof.
  intros Hq Hs.
  assert (Hr : ∀ k w r h, goroutines s !! k = Some (GoWork w r h) → r = BalancerWork).
  { intros k w r h Hk. destruct (Hq (GoWork w r h)) as (? & ? & [= _ -> _]); [|done].
    by eapply list_elem_of_lookup_2. }
  assert (Hins : ∀ k w h g, g ∈ <[k := GoWork w BalancerWork h]> (goroutines s) →
                 ∃ w' task, g = GoWork w' BalancerWork task).
  { intros k w h g [j Hj]%list_elem_of_lookup.
    apply list_lookup_insert_Some in Hj as [(_ & <- & _)|[_ Hj]]; [by eauto|].
    apply Hq. by eapply list_elem_of_lookup_2. }
  destruct Hs as [k w r task s1 Hk Hrecv|k w r task s1 Hk Hbody|k r fw s1 Hk _].
  - assert (r = BalancerWork) as -> by eauto.
    rewrite recv_from_shared in Hrecv.
    destruct (buf (work (bal s))) as [|t rest] eqn:Hb; [done|].
    injection Hrecv as <- <-. cbn.
    do 3 (split; [done|]). split; [intros g Hg; cbn in Hg; by eapply Hins|].
    left. exists k, w, t, rest. done.
  - assert (r = BalancerWork) as -> by eauto.
    unfold Worker_body in Hbody. destruct (fn task) as [e|] eqn:Hf; [|done].
    apply send_return_Ok in Hbody as (j & Hj & ->). cbn.
    do 3 (split; [done|]). split; [intros g Hg; cbn in Hg; by eapply Hins|].
    right. exists k, w, task, e, j. done.
  - destruct (Hq (GoBalance r)) as (? & ? & ?); [|done].
    by eapply list_elem_of_lookup_2.
Qed.




(** ** The balancer in use *)

(** Whatever the submitters and the workers do, no step touches the
    pool, the Worker structs or the [done] channel, and the goroutines
    stay the workers on [balancer.work]. *)
Lemma in_use_shared (s s' : World) :
  on_work_queue s → in_use s s' →
  mem s' = mem s ∧ pool (bal s') = pool (bal s) ∧ done (bal s') = done (bal s) ∧
  on_work_queue s'.
Proof.
  intros Hq [s1 Hs|t s1 Hp|rs].
  - by destruct (sched_shared s s1 Hq Hs) as (? & ? & ? & ? & _).
  - unfold Push in Hp. apply bind_Ok in Hp as (ch & _ & [= <-]). done.
  - done.
Qed.

Lemma rtc_in_use_shared (s s' : World) :
  on_work_queue s → rtc in_use s s' →
  mem s' = mem s ∧ pool (bal s') = pool (bal s) ∧ done (bal s') = done (bal s) ∧
  on_work_queue s'.
Proof.
  intros Hq. revert s'. apply rtc_ind_r; [done|intros y z _ Hyz IH].
  destruct IH as (Hm & Hp & Hd & Hqy).
  destruct (in_use_shared y z Hqy Hyz) as (Hm' & Hp' & Hd' & Hqz).
  repeat split; [congruence..|done].
Qed.

(** ** C1: what [New] starts *)

(** [New 1] starts one goroutine, the worker, on [balancer.work]; it
    starts no dispatch loop. *)
Lemma New_1_starts_no_dispatch_loop :
  ∃ s, New 1 = Ok s ∧ goroutines s = [GoWork 0%nat BalancerWork None].
Proof. eexists. split; reflexivity. Qed.

(** C1, amended. When [New] returns for a positive worker count, it has
    started exactly that many worker loops, each on [balancer.work], and
    no dispatch loop. However the balancer is used afterwards (tasks
    pushed, workers receiving them and finishing them, submitters
    reading their return channels), the pool, the Worker structs (so the
    pending counts) and the [done] channel stay as [New] left them and
    no dispatch loop appears; and such use there is: a task pushed whose
    function returns can be taken and finished by a worker, its value
    written on its return channel, with no dispatch. *)
Theorem New_spawns_workers_only (n : Z) (s : World) :
  0 < n → New n = Ok s →
  goroutines s = (λ a, GoWork a BalancerWork None) <$> seq 0 (Z.to_nat n) ∧
  Z.of_nat (length (goroutines s)) = n ∧
  (∀ r, GoBalance r ∉ goroutines s) ∧
  (∀ s', rtc in_use s s' →
     mem s' = mem s ∧ pool (bal s') = pool (bal s) ∧ done (bal s') = done (bal s) ∧
     (∀ r, GoBalance r ∉ goroutines s')) ∧
  (∀ t e, fn t = Some e →
     ∃ s', rtc in_use s s' ∧ delivered s' = [(c t, e)] ∧ buf (work (bal s')) = []).
Proof.
  intros Hn (_ & _ & ->)%New_inv_ceiling. cbn [goroutines fresh_world].
  split; [done|]. split; [rewrite length_fmap, length_seq; lia|]. split; [|split].
  - intros r Hr. apply list_elem_of_fmap in Hr as (a & [=] & _).
  - intros s' Hs.
    destruct (rtc_in_use_shared _ s' (fresh_world_on_work_queue _ _ _) Hs)
      as (Hm & Hp & Hd & Hq).
    do 3 (split; [done|]). intros r Hr. by destruct (Hq _ Hr) as (? & ? & ?).
  - intros t e Hf.
    set (s0 := fresh_world (Z.to_nat n) (Chan [] n) (Chan [] (n * 10))).
    set (s1 := set_returns s0 (replicate (c t) (Open 0) ++ [Open 1])).
    set (s2 := set_work s1 (Chan [t] (n * 10))).
    assert (Hpush : Push t s1 = Ok s2).
    { unfold Push. destruct (send_cases (work (bal s1)) t) as [[_ ->]|[Hfull _]]; [done|].
      cbn in Hfull. lia. }
    assert (Hopen : returns s2 !! c t = Some (Open 1)).
    { cbn. rewrite lookup_app_r; rewrite length_replicate; [|done].
      by rewrite Nat.sub_diag. }
    assert (Hturn : Worker_work BalancerWork s2 = Ok (deliver (set_work s2 (Chan [] (n * 10))) (c t) e 0)).
    { rewrite Worker_work_shared. cbn [buf work bal s2 set_work]. rewrite Hf.
      by apply send_return_Open. }
    exists (deliver (set_work s2 (Chan [] (n * 10))) (c t) e 0).
    split; [|split; reflexivity].
    eapply rtc_l; [apply (use_returns s0 (replicate (c t) (Open 0) ++ [Open 1]))|].
    eapply rtc_l; [apply (use_Push _ t _ Hpush)|].
    eapply (rtc_subrel sched); [intros ? ?; apply use_sched|].
    apply (Worker_work_sched _ _ 0%nat 0%nat BalancerWork); [|exact Hturn].
    cbn. rewrite list_lookup_fmap, lookup_seq_lt by lia. done.
Qed.

Lemma New_spawns_workers_only_witness :
  goroutines three_workers = (λ a, GoWork a BalancerWork None) <$> seq 0 (Z.to_nat 3) ∧
  Z.of_nat (length (goroutines three_workers)) = 3 ∧
  (∀ r, GoBalance r ∉ goroutines three_workers) ∧
  (∀ s', rtc in_use three_workers s' →
     mem s' = mem three_workers ∧ pool (bal s') = pool (bal three_workers) ∧
     done (bal s') = done (bal three_workers) ∧
     (∀ r, GoBalance r ∉ goroutines s')) ∧
  (∀ t e, fn t = Some e →
     ∃ s', rtc in_use three_workers s' ∧ delivered s' = [(c t, e)] ∧
           buf (work (bal s')) = []).
Proof.
  apply (New_spawns_workers_only 3 three_workers).
  - lia.
  - vm_compute. reflexivity.
Defined.

(** ** C2: a worker count that is not positive *)

(** [New 0] does not fail: it returns a balancer. *)
Lemma New_0_returns : New 0 = Ok no_workers.
Proof. reflexivity. Qed.

(** C2, amended. For a negative worker count [New] panics, at the first
    channel it makes, before any worker or goroutine exists. For the
    worker count 0 [New] returns a balancer with an empty pool, no
    worker, no goroutine and channels of capacity 0: every [Push] on it
    blocks and a dispatch step on it would panic. *)
Theorem New_nonpositive (n : Z) :
  n ≤ 0 →
  (n < 0 ∧ New n = Panic) ∨
  (n = 0 ∧ New n = Ok no_workers ∧
   goroutines no_workers = [] ∧ mem no_workers = [] ∧ pool (bal no_workers) = [] ∧
   ∀ t, Push t no_workers = Blocked ∧ dispatch t no_workers = Panic).
Proof.
  intros Hn. destruct (decide (n = 0)) as [->|Hne].
  - right. repeat split.
  - left. split; [lia|]. apply New_negative. lia.
Qed.

Lemma New_nonpositive_witness :
  (0 < 0 ∧ New 0 = Panic) ∨
  (0 = 0 ∧ New 0 = Ok no_workers ∧
   goroutines no_workers = [] ∧ mem no_workers = [] ∧ pool (bal no_workers) = [] ∧
   ∀ t, Push t no_workers = Blocked ∧ dispatch t no_workers = Panic).
Proof. apply (New_nonpositive 0). lia. Defined.

(** ** C3: the loop of a worker *)

(** With one worker: a task pushed on [balancer.work] is taken by the
    worker and its outcome written, and [done] stays empty; a task
    dispatched to the worker's own [tasks] channel stays there, the
    worker's turn finding nothing to receive. *)
Lemma worker_reads_shared_queue :
  ∃ s0 s1 s2 s3,
    New 1 = Ok s0 ∧ goroutines s0 = [GoWork 0%nat BalancerWork None] ∧
    Push failing_task (set_returns s0 sample_returns) = Ok s1 ∧
    Worker_work BalancerWork s1 = Ok s2 ∧
    delivered s2 = [(7%nat, Some "boom"%string)] ∧
    buf (done (bal s2)) = [] ∧
    dispatch failing_task (set_returns s0 sample_returns) = Ok s3 ∧
    (buf ∘ tasks) <$> (mem s3 !! 0%nat) = Some [failing_task] ∧
    Worker_work BalancerWork s3 = Blocked.
Proof. do 4 eexists. repeat split; reflexivity. Qed.

(** C3, amended. Every worker [New] starts runs its loop on
    [balancer.work], the channel all workers share. A turn of that loop
    blocks while the channel is empty; otherwise it takes the oldest
    task of the channel, calls its function and, when the call returns,
    sends the value returned on the task's return channel: the turn
    stays in that send while the channel, open or [nil], cannot take the
    value, and when the channel takes it the value is written there, one
    place of the channel used. The turn sends nothing on [done] and
    leaves the Worker structs (their own [tasks] channels and pending
    counts) and the pool as they are. The turn of a worker at the head
    of its loop is a run of the interleaving. *)
Theorem worker_loop (n : Z) (s0 : World) :
  New n = Ok s0 →
  (∀ g, g ∈ goroutines s0 → ∃ w, g = GoWork w BalancerWork None) ∧
  ∀ s : World,
    (buf (work (bal s)) = [] → Worker_work BalancerWork s = Blocked) ∧
    (∀ t rest e, buf (work (bal s)) = t :: rest → fn t = Some e →
       room_at s (c t) = 0%nat → returns s !! c t ≠ Some Closed →
       Worker_work BalancerWork s = Blocked) ∧
    (∀ t rest e j, buf (work (bal s)) = t :: rest → fn t = Some e →
       returns s !! c t = Some (Open (S j)) →
       ∃ s', Worker_work BalancerWork s = Ok s' ∧
         buf (work (bal s')) = rest ∧
         delivered s' = delivered s ++ [(c t, e)] ∧
         returns s' = <[c t := Open j]> (returns s) ∧
         done (bal s') = done (bal s) ∧
         mem s' = mem s ∧ pool (bal s') = pool (bal s) ∧
         goroutines s' = goroutines s ∧
         (∀ k w, goroutines s !! k = Some (GoWork w BalancerWork None) →
                 rtc sched s s')).
Proof.
  intros (_ & _ & ->)%New_inv. split.
  - intros g Hg. cbn [goroutines fresh_world] in Hg.
    apply list_elem_of_fmap in Hg as (a & -> & _). eauto.
  - intros s. split; [|split].
    + rewrite Worker_work_shared. by intros ->.
    + intros t rest e Hb Hf Hroom Hopen.
      rewrite Worker_work_shared, Hb, Hf. by apply send_return_parks.
    + intros t rest e j Hb Hf Hopen.
      assert (Hw : Worker_work BalancerWork s
                   = Ok (deliver (set_work s (Chan rest (cap (work (bal s))))) (c t) e j)).
      { rewrite Worker_work_shared, Hb, Hf. by apply send_return_Open. }
      eexists. split; [exact Hw|]. do 7 (split; [done|]).
      intros k w Hk. by eapply Worker_work_sched.
Qed.

Lemma worker_loop_witness :
  (∀ g, g ∈ goroutines three_workers → ∃ w, g = GoWork w BalancerWork None) ∧
  ∀ s : World,
    (buf (work (bal s)) = [] → Worker_work BalancerWork s = Blocked) ∧
    (∀ t rest e, buf (work (bal s)) = t :: rest → fn t = Some e →
       room_at s (c t) = 0%nat → returns s !! c t ≠ Some Closed →
       Worker_work BalancerWork s = Blocked) ∧
    (∀ t rest e j, buf (work (bal s)) = t :: rest → fn t = Some e →
       returns s !! c t = Some (Open (S j)) →
       ∃ s', Worker_work BalancerWork s = Ok s' ∧
         buf (work (bal s')) = rest ∧
         delivered s' = delivered s ++ [(c t, e)] ∧
         returns s' = <[c t := Open j]> (returns s) ∧
         done (bal s') = done (bal s) ∧
         mem s' = mem s ∧ pool (bal s') = pool (bal s) ∧
         goroutines s' = goroutines s ∧
         (∀ k w, goroutines s !! k = Some (GoWork w BalancerWork None) →
                 rtc sched s s')).
Proof. apply (worker_loop 3 three_workers). vm_compute. reflexivity. Defined.

(** ** C9: a task that fails *)

(** With two workers and a failing task pushed, its return channel ready:
    a worker's turn writes the error on the task's return channel;
    afterwards no pending count has changed, [done] is empty and no
    goroutine can take a step: the completion of the task has
    decremented nothing and nothing will. *)
Lemma finished_task_decrements_nothing :
  (s0 ← New 2; Push failing_task (set_returns s0 sample_returns))
    = Ok one_failure_queued ∧
  Worker_work BalancerWork one_failure_queued = Ok one_failure_done ∧
  rtc sched one_failure_queued one_failure_done ∧
  delivered one_failure_done = [(7%nat, Some "boom"%string)] ∧
  pending <$> mem one_failure_done = [0; 0] ∧
  mem one_failure_done = mem one_failure_queued ∧
  buf (done (bal one_failure_done)) = [] ∧
  ∀ s', rtc sched one_failure_done s' → s' = one_failure_done.
Proof.
  split; [reflexivity|]. split; [reflexivity|].
  split; [by apply (Worker_work_sched _ _ 0%nat 0%nat BalancerWork)|].
  split; [reflexivity|]. split; [reflexivity|]. split; [reflexivity|].
  split; [reflexivity|].
  intros s' Hs. inversion Hs as [|? s3 ? Hstep Hrest]; [done|]. exfalso.
  apply sched_shared in Hstep
    as (_ & _ & _ & _ & [(k & w & t & rest & _ & Hb & _)|(k & w & t & e & j & Hk & _)]).
  - discriminate Hb.
  - destruct k as [|[|k]]; discriminate Hk.
  - intros g Hg. apply list_elem_of_In in Hg. cbn in Hg.
    destruct Hg as [<-|[<-|[]]]; eauto.
Qed.

(** C9, amended. The value a task's function returns is sent unchanged on
    the task's return channel by the worker's turn and, the channel
    taking it, written there; the turn changes nothing else but the
    ingress queue (the task is gone from it: no retry) and treats every
    value alike. [completed], when it runs for a worker of an
    index-consistent pool, takes one from that worker's pending count
    (Go's [--] on an int) and leaves the other counts alone, whatever
    has been written on return channels and whatever their state: its
    result does not depend on them. *)
Theorem failure_passes_through (s : World) (t : Task) (e : error) (rest : list Task)
    (j : nat) (w : addr) (ww : Worker) :
  buf (work (bal s)) = t :: rest → fn t = Some e →
  returns s !! c t = Some (Open (S j)) →
  index_consistent s → w ∈ pool (bal s) → mem s !! w = Some ww →
  (∃ s1, Worker_work BalancerWork s = Ok s1 ∧
     delivered s1 = delivered s ++ [(c t, e)] ∧
     returns s1 = <[c t := Open j]> (returns s) ∧
     buf (work (bal s1)) = rest ∧
     mem s1 = mem s ∧ pool (bal s1) = pool (bal s) ∧ done (bal s1) = done (bal s)) ∧
  (∃ m b,
     (∀ log rs, completed w (MkWorld (mem s) (bal s) (goroutines s) log rs)
                = Ok (MkWorld m b (goroutines s) log rs)) ∧
     key m w = wrap (pending ww - 1) ∧
     (int_min < pending ww ≤ int_max → key m w = pending ww - 1) ∧
     (∀ a, a ≠ w → key m a = key (mem s) a)).
Proof.
  intros Hb Hf Hopen Hok Hw Hww. split.
  - rewrite Worker_work_shared, Hb, Hf.
    rewrite (send_return_Open _ _ _ j) by done. eexists. split; [done|]. done.
  - destruct (completed_spec w s Hok Hw)
      as (ww' & s' & Hww' & Hc & _ & _ & _ & HL & (_ & _ & Hg & _) & _).
    assert (ww' = ww) as -> by congruence.
    assert (Hwlen : (w < length (load <$> mem s))%nat).
    { rewrite length_fmap. by eapply lookup_lt_Some. }
    exists (mem s'), (bal s'). split; [|split; [|split]].
    + intros log rs. unfold completed in *. cbn [mem bal] in *.
      destruct (deref (mem s) w) as [w1| | |]; try done. cbn in Hc |- *.
      destruct (deref _ w) as [w2| | |]; try done. cbn in Hc |- *.
      destruct (heap.Remove _ _ _) as [[[x m2] p2]| | |]; try done. cbn in Hc |- *.
      destruct (heap.Push m2 p2 w) as [[m3 p3]| | |]; try done. cbn in Hc |- *.
      injection Hc as <-. done.
    + rewrite key_pend, HL, pend_insert by done. by rewrite decide_True.
    + intros Hr. rewrite key_pend, HL, pend_insert by done. rewrite decide_True by done.
      cbn [snd]. apply wrap_id. lia.
    + intros a Ha. rewrite !key_pend, HL, pend_insert by done. by rewrite decide_False.
Qed.

Lemma failure_passes_through_witness :
  (∃ s1, Worker_work BalancerWork one_failure_queued = Ok s1 ∧
     delivered s1 = delivered one_failure_queued ++ [(c failing_task, Some "boom"%string)] ∧
     returns s1 = <[c failing_task := Open 0]> (returns one_failure_queued) ∧
     buf (work (bal s1)) = [] ∧
     mem s1 = mem one_failure_queued ∧ pool (bal s1) = pool (bal one_failure_queued) ∧
     done (bal s1) = done (bal one_failure_queued)) ∧
  (∃ m b,
     (∀ log rs, completed 1%nat (MkWorld (mem one_failure_queued) (bal one_failure_queued)
                                         (goroutines one_failure_queued) log rs)
                = Ok (MkWorld m b (goroutines one_failure_queued) log rs)) ∧
     key m 1%nat = wrap (pending (fresh_worker 1) - 1) ∧
     (int_min < pending (fresh_worker 1) ≤ int_max → key m 1%nat = pending (fresh_worker 1) - 1) ∧
     (∀ a, a ≠ 1%nat → key m a = key (mem one_failure_queued) a)).
Proof.
  apply (failure_passes_through one_failure_queued failing_task (Some "boom"%string) []
           0%nat 1%nat (fresh_worker 1)).
  - reflexivity.
  - reflexivity.
  - reflexivity.
  - apply index_okb_sound. vm_compute. reflexivity.
  - apply list_elem_of_In. vm_compute. auto.
  - reflexivity.
Defined.

(** ** C10: one outcome per task *)




(** * Further properties of the balancer *)

(** ** What [New] lays out *)

(** X1. When [New] returns, for the worker count [n], then [n] is not
    negative and its tenfold has not wrapped (the runtime makes no
    channel that large), and the balancer returned has in its pool the
    workers [0 .. n-1] in that order; worker [i] has id [i], heap index
    [i], no pending task and an empty [tasks] channel of capacity 5000;
    the [work] channel is empty with capacity [10 * n], the [done]
    channel empty with capacity [n], and nothing has been written on a
    return channel. *)
Theorem New_layout (n : Z) (s : World) :
  New n = Ok s →
  0 ≤ n ∧ n * 10 ≤ int_max ∧
  pool (bal s) = seq 0 (Z.to_nat n) ∧
  length (mem s) = Z.to_nat n ∧
  (∀ i : nat, (i < Z.to_nat n)%nat →
     mem s !! i = Some (MkWorker (Z.of_nat i) (Chan [] 5000) 0 (Z.of_nat i))) ∧
  work (bal s) = Chan [] (n * 10) ∧
  done (bal s) = Chan [] n ∧
  delivered s = [].
Proof.
  intros (Hn & Hc & ->)%New_inv_ceiling.
  cbn [pool bal mem work done delivered fresh_world].
  split; [done|]. split.
  { unfold int_max, sizeof_Task, maxAlloc, hchanSize in *. lia. }
  split; [done|]. split; [by rewrite length_fmap, length_seq|].
  split; [|done]. intros i Hi. by rewrite fresh_lookup.
Qed.

Lemma New_layout_witness :
  0 ≤ 3 ∧ 3 * 10 ≤ int_max ∧
  pool (bal three_workers) = seq 0 (Z.to_nat 3) ∧
  length (mem three_workers) = Z.to_nat 3 ∧
  (∀ i : nat, (i < Z.to_nat 3)%nat →
     mem three_workers !! i = Some (MkWorker (Z.of_nat i) (Chan [] 5000) 0 (Z.of_nat i))) ∧
  work (bal three_workers) = Chan [] (3 * 10) ∧
  done (bal three_workers) = Chan [] 3 ∧
  delivered three_workers = [].
Proof. apply (New_layout 3 three_workers). vm_compute. reflexivity. Defined.

(** ** Submitting tasks *)

(** Pushing a list of tasks on a world whose [work] channel has room for
    them appends them, in order, and touches nothing else. *)
Lemma push_all_room (ts : list Task) :
  ∀ s, Z.of_nat (length (buf (work (bal s)))) + Z.of_nat (length ts) ≤ cap (work (bal s)) →
    push_all ts s = Ok (set_work s (Chan (buf (work (bal s)) ++ ts) (cap (work (bal s))))).
Proof.
  induction ts as [|t ts IH]; intros s Hroom.
  - cbn. rewrite app_nil_r. by destruct s as [? [? ? [? ?]] ? ? ?].
  - cbn [push_all length] in *. unfold Push.
    destruct (send_cases (work (bal s)) t) as [[_ ->]|[Hfull _]]; [|lia].
    ok_bind. rewrite IH.
    + cbn. by rewrite <- app_assoc.
    + cbn. rewrite length_app. cbn. lia.
Qed.

(** Pushing more tasks than the [work] channel has room for blocks. *)
Lemma push_all_full (ts : list Task) :
  ∀ s, cap (work (bal s)) < Z.of_nat (length (buf (work (bal s)))) + Z.of_nat (length ts) →
    ts ≠ [] →
    push_all ts s = Blocked.
Proof.
  induction ts as [|t ts IH]; intros s Hfull Hne; [done|].
  cbn [push_all length] in *. unfold Push.
  destruct (send_cases (work (bal s)) t) as [[Hroom ->]|[_ ->]]; [|done].
  ok_bind. apply IH.
  - cbn. rewrite length_app. cbn. lia.
  - intros ->. cbn in Hfull. lia.
Qed.

(** X2. The ingress queue of the balancer [New] returns for [n > 0]
    workers takes exactly [10 * n] tasks when no worker drains it: a
    list of at most [10 * n] tasks is accepted whole, ends up in the
    [work] channel in the order pushed, and changes nothing else; with a
    longer list the submitter blocks. *)
Theorem Push_backpressure (n : Z) (s0 : World) (ts : list Task) :
  0 < n → New n = Ok s0 →
  (Z.of_nat (length ts) ≤ 10 * n →
   ∃ s, push_all ts s0 = Ok s ∧
     buf (work (bal s)) = ts ∧
     mem s = mem s0 ∧ pool (bal s) = pool (bal s0) ∧ done (bal s) = done (bal s0) ∧
     goroutines s = goroutines s0 ∧ delivered s = delivered s0 ∧
     returns s = returns s0) ∧
  (10 * n < Z.of_nat (length ts) → push_all ts s0 = Blocked).
Proof.
  intros Hn (_ & _ & ->)%New_inv_ceiling. split.
  - intros Hlen. eexists. split; [apply push_all_room; cbn; lia|]. done.
  - intros Hlen. apply push_all_full; [cbn; lia|].
    intros ->. cbn in Hlen. lia.
Qed.

Lemma Push_backpressure_witness :
  (Z.of_nat (length [quick_task; failing_task]) ≤ 10 * 3 →
   ∃ s, push_all [quick_task; failing_task] three_workers = Ok s ∧
     buf (work (bal s)) = [quick_task; failing_task] ∧
     mem s = mem three_workers ∧ pool (bal s) = pool (bal three_workers) ∧
     done (bal s) = done (bal three_workers) ∧
     goroutines s = goroutines three_workers ∧ delivered s = delivered three_workers ∧
     returns s = returns three_workers) ∧
  (10 * 3 < Z.of_nat (length [quick_task; failing_task]) →
   push_all [quick_task; failing_task] three_workers = Blocked).
Proof.
  apply (Push_backpressure 3 three_workers [quick_task; failing_task]).
  - lia.
  - vm_compute. reflexivity.
Defined.

(** ** A dispatch and the completion that answers it *)

Lemma wrap_succ_pred (z : Z) : int_min ≤ z ≤ int_max → wrap (wrap (z + 1) - 1) = z.
Proof.
  unfold int_min, int_max, wrap. intros Hz.
  destruct (decide (z = 2 ^ 63 - 1)) as [->|Hne]; [reflexivity|].
  rewrite (Z.mod_small (z + 1 + 2 ^ 63)) by lia.
  rewrite Z.mod_small; lia.
Qed.

(** X3. On an index-consistent pool whose pending counts are Go ints,
    a dispatch blocks when the [tasks] channel of the worker at the root
    is full; when that channel has room the dispatch returns, and so
    does the completion of that worker after it, which leaves every
    pending count as it was before the dispatch, also at the largest
    int; the pool holds the same workers, index-consistent, and ordered
    if it was. The completion takes nothing out of the worker's channel:
    the task dispatched is still queued there. *)
Theorem dispatch_then_completed (t : Task) (s : World) (w : addr) (ww : Worker) :
  index_consistent s →
  (∀ a w', a ∈ pool (bal s) → mem s !! a = Some w' → int_min ≤ pending w' ≤ int_max) →
  ptr (pool (bal s)) 0 = Some w → mem s !! w = Some ww →
  (cap (tasks ww) ≤ Z.of_nat (length (buf (tasks ww))) → dispatch t s = Blocked) ∧
  (Z.of_nat (length (buf (tasks ww))) < cap (tasks ww) →
   ∃ s1 s2,
     dispatch t s = Ok s1 ∧ completed w s1 = Ok s2 ∧
     (∀ a, pending_of s2 a = pending_of s a) ∧
     pool (bal s2) ≡ₚ pool (bal s) ∧
     index_consistent s2 ∧ (heap_order s → heap_order s2) ∧
     tasks <$> (mem s2 !! w) = Some (Chan (buf (tasks ww) ++ [t]) (cap (tasks ww))) ∧
     (∀ a, a ≠ w → load <$> (mem s2 !! a) = load <$> (mem s !! a))).
Proof.
  intros Hok Hint Hroot Hmem.
  assert (Hne : pool (bal s) ≠ []).
  { intros Hnil. rewrite Hnil in Hroot. discriminate Hroot. }
  destruct (dispatch_spec t s Hok Hne) as (w' & ww' & Hw & Hww & _ & _ & Hres).
  assert (w' = w) as -> by congruence.
  assert (ww' = ww) as -> by congruence.
  assert (Hwin : w ∈ pool (bal s)) by (apply ptr_elem_of; eauto).
  destruct (send_cases (tasks ww) t) as [[Hroom Hs]|[Hfull Hs]]; rewrite Hs in Hres.
  2:{ split; [done|]. intros ?. lia. }
  split; [intros ?; lia|]. intros _.
  destruct Hres as (s1 & Hd & Hok1 & Hord1 & Hperm1 & HL1 & _).
  assert (Hwlen : (w < length (load <$> mem s))%nat).
  { rewrite length_fmap. by eapply lookup_lt_Some. }
  destruct (completed_spec w s1 Hok1) as (ww1 & s2 & Hww1 & Hc & Hok2 & Hord2 & Hperm2 & HL2 & _).
  { by rewrite Hperm1. }
  assert (Hload1 : load ww1 = (id ww, Chan (buf (tasks ww) ++ [t]) (cap (tasks ww)),
                              wrap (pending ww + 1))).
  { pose proof (f_equal (λ L, L !! w) HL1) as H. cbn beta in H.
    rewrite list_lookup_insert_eq, list_lookup_fmap, Hww1 in H by done.
    cbn in H. congruence. }
  injection Hload1 as Hid1 Ht1 Hp1.
  rewrite HL1, list_insert_insert_eq, Hid1, Ht1, Hp1 in HL2.
  rewrite (wrap_succ_pred (pending ww)) in HL2 by eauto.
  exists s1, s2. split; [done|]. split; [done|].
  split; [|split; [by rewrite Hperm2|split; [done|split; [by auto|split]]]].
  - intros a. unfold pending_of. rewrite !key_pend, HL2, pend_insert by done.
    destruct (decide (a = w)) as [->|]; [|done].
    unfold pend. by rewrite list_lookup_fmap, Hww.
  - pose proof (f_equal (λ L, L !! w) HL2) as H. cbn beta in H.
    rewrite list_lookup_insert_eq, list_lookup_fmap in H by done.
    destruct (mem s2 !! w) as [w2|]; [|done]. injection H as _ H _. cbn. by rewrite H.
  - intros a Ha. pose proof (f_equal (λ L, L !! a) HL2) as H. cbn beta in H.
    by rewrite list_lookup_insert_ne, !list_lookup_fmap in H.
Qed.

Lemma dispatch_then_completed_witness :
  (cap (tasks (fresh_worker 0)) ≤ Z.of_nat (length (buf (tasks (fresh_worker 0)))) →
   dispatch failing_task three_workers = Blocked) ∧
  (Z.of_nat (length (buf (tasks (fresh_worker 0)))) < cap (tasks (fresh_worker 0)) →
   ∃ s1 s2,
     dispatch failing_task three_workers = Ok s1 ∧ completed 0%nat s1 = Ok s2 ∧
     (∀ a, pending_of s2 a = pending_of three_workers a) ∧
     pool (bal s2) ≡ₚ pool (bal three_workers) ∧
     index_consistent s2 ∧ (heap_order three_workers → heap_order s2) ∧
     tasks <$> (mem s2 !! 0%nat)
       = Some (Chan (buf (tasks (fresh_worker 0)) ++ [failing_task])
                    (cap (tasks (fresh_worker 0)))) ∧
     (∀ a, a ≠ 0%nat → load <$> (mem s2 !! a) = load <$> (mem three_workers !! a))).
Proof.
  apply (dispatch_then_completed failing_task three_workers 0%nat (fresh_worker 0)).
  - apply index_okb_sound. vm_compute. reflexivity.
  - intros a w _ Hw.
    destruct (fresh_world_idle 3 (Chan [] 3) (Chan [] 30) a w Hw) as [-> _].
    vm_compute. split; discriminate.
  - reflexivity.
  - reflexivity.
Defined.

(** ** Where dispatched tasks go *)

(** A dispatch that returns, by what it does to the loads. *)
Lemma dispatch_loads (t : Task) (s s' : World) :
  index_consistent s → dispatch t s = Ok s' →
  ∃ w ww, w ∈ pool (bal s) ∧ mem s !! w = Some ww ∧
    index_consistent s' ∧ pool (bal s') ≡ₚ pool (bal s) ∧
    load <$> mem s' =
      <[w := (id ww, Chan (buf (tasks ww) ++ [t]) (cap (tasks ww)), wrap (pending ww + 1))]>
        (load <$> mem s).
Proof.
  intros Hok Hd.
  pose proof (dispatch_nonempty t s s' Hd) as Hne.
  destruct (dispatch_spec t s Hok Hne) as (w & ww & Hw & Hww & _ & _ & Hres).
  destruct (send_cases (tasks ww) t) as [[_ Hs]|[_ Hs]]; rewrite Hs in Hres;
    [|congruence].
  destruct Hres as (s1 & Hd' & Hok1 & _ & Hperm1 & HL1 & _).
  assert (s1 = s') as -> by congruence.
  exists w, ww. split; [apply ptr_elem_of; eauto|]. done.
Qed.

Lemma assigned_cons (t : Task) (ts : list Task) (w : addr) (ws : list addr) (a : addr) :
  assigned (t :: ts) (w :: ws) a
  = (if decide (w = a) then [t] else []) ++ assigned ts ws a.
Proof.
  unfold assigned. cbn [zip zip_with]. rewrite filter_cons. cbn [snd].
  by destruct (decide (w = a)).
Qed.

(** X4. When a list of tasks has been dispatched, one after the other,
    on an index-consistent pool, each task went to one worker of the
    pool, and the [tasks] channel of every worker holds what it held
    before followed by the tasks that went to it, in the order they were
    dispatched; ids and channel capacities are unchanged. *)
Theorem dispatch_all_routes (ts : list Task) (s s' : World) :
  index_consistent s → dispatch_all ts s = Ok s' →
  ∃ ws, length ws = length ts ∧
    Forall (λ w, w ∈ pool (bal s)) ws ∧
    ∀ a w, mem s !! a = Some w →
      ∃ w', mem s' !! a = Some w' ∧ id w' = id w ∧
        tasks w' = Chan (buf (tasks w) ++ assigned ts ws a) (cap (tasks w)).
Proof.
  revert s. induction ts as [|t ts IH]; intros s Hok Hd.
  - injection Hd as <-. exists []. split; [done|]. split; [done|].
    intros a w Hw. exists w. split; [done|]. split; [done|].
    unfold assigned. cbn. rewrite app_nil_r. by destruct (tasks w).
  - cbn [dispatch_all] in Hd. apply bind_Ok in Hd as (s1 & Hd1 & Hd).
    destruct (dispatch_loads t s s1 Hok Hd1) as (w0 & ww & Hw0 & Hww & Hok1 & Hperm & HL).
    destruct (IH s1 Hok1 Hd) as (ws & Hlen & Hin & Hroute).
    exists (w0 :: ws). split; [cbn; lia|]. split.
    { constructor; [done|]. eapply Forall_impl; [exact Hin|].
      intros x Hx. cbn beta in Hx. by rewrite <- Hperm. }
    intros a w Hw.
    assert (Hwlen : (w0 < length (load <$> mem s))%nat).
    { rewrite length_fmap. by eapply lookup_lt_Some. }
    pose proof (f_equal (λ L, L !! a) HL) as HLa. cbn beta in HLa.
    rewrite assigned_cons. destruct (decide (w0 = a)) as [->|Hne].
    + rewrite list_lookup_insert_eq, list_lookup_fmap in HLa by done.
      destruct (mem s1 !! a) as [w1|] eqn:Hw1; [|done].
      injection HLa as Hid Ht _.
      destruct (Hroute a w1 Hw1) as (w' & Hw' & Hid' & Ht').
      assert (ww = w) as -> by congruence.
      exists w'. split; [done|]. split; [congruence|].
      rewrite Ht', Ht. cbn [buf cap]. by rewrite <- app_assoc.
    + rewrite list_lookup_insert_ne, !list_lookup_fmap, Hw in HLa by done.
      destruct (mem s1 !! a) as [w1|] eqn:Hw1; [|done].
      injection HLa as Hid Ht _.
      destruct (Hroute a w1 Hw1) as (w' & Hw' & Hid' & Ht').
      exists w'. split; [done|]. split; [congruence|].
      rewrite Ht', Ht. done.
Qed.

Lemma dispatch_all_routes_witness :
  ∃ ws, length ws = length seven_tasks ∧
    Forall (λ w, w ∈ pool (bal three_workers)) ws ∧
    ∀ a w, mem three_workers !! a = Some w →
      ∃ w', mem seven_dispatched !! a = Some w' ∧ id w' = id w ∧
        tasks w' = Chan (buf (tasks w) ++ assigned seven_tasks ws a) (cap (tasks w)).
Proof.
  apply (dispatch_all_routes seven_tasks three_workers seven_dispatched).
  - apply index_okb_sound. vm_compute. reflexivity.
  - vm_compute. reflexivity.
Defined.

(** ** Completions the pool cannot answer *)

(** X5. [completed] trusts the [index] field of the worker it is given:
    when that index is outside the pool (negative, or at least the
    length of the pool, as for any worker while the pool is empty),
    [heap.Remove] panics on an index out of range, and so does
    [completed]; the pool is not touched. *)
Theorem completed_index_out_of_range (s : World) (w : addr) (ww : Worker) :
  mem s !! w = Some ww →
  index ww < 0 ∨ Pool.Len (pool (bal s)) ≤ index ww →
  (∀ m, heap.Remove m (pool (bal s)) (index ww) = Panic) ∧
  completed w s = Panic.
Proof.
  intros Hww Hout.
  assert (Hat : at_ (pool (bal s)) (index ww) = Panic).
  { unfold at_, Pool.Len in *. destruct (Z.ltb_spec (index ww) 0); [done|].
    rewrite lookup_ge_None_2; [done|lia]. }
  assert (Hrm : ∀ m, heap.Remove m (pool (bal s)) (index ww) = Panic).
  { intros m. unfold heap.Remove. cbv zeta.
    destruct (Z.eqb_spec (Pool.Len (pool (bal s)) - 1) (index ww)) as [He|Hne].
    - ok_bind. unfold Pool.Pop. cbv zeta. rewrite He, Hat. done.
    - unfold Pool.Swap. rewrite Hat. done. }
  split; [done|].
  unfold completed. rewrite (deref_Some _ _ _ Hww). ok_bind.
  rewrite (deref_Some _ _ (set_pending ww (wrap (pending ww - 1)))).
  - ok_bind. cbn [index set_pending]. by rewrite Hrm.
  - apply list_lookup_insert_eq. by eapply lookup_lt_Some.
Qed.

Lemma completed_index_out_of_range_witness :
  (∀ m, heap.Remove m (pool (bal stray_worker)) (index (fresh_worker 0)) = Panic) ∧
  completed 0%nat stray_worker = Panic.
Proof.
  apply (completed_index_out_of_range stray_worker 0%nat (fresh_worker 0)).
  - reflexivity.
  - right. vm_compute. discriminate.
Defined.

(** X6. [completed] for a worker that is not in the pool, whose [index]
    field names a position of the pool: on an index-consistent pool the
    call returns, but the worker that was at that position is gone from
    the pool and the worker given has taken a place in it; the pool
    keeps its length and is index-consistent. *)
Theorem completed_outside_pool (s : World) (w x : addr) (ww : Worker) :
  index_consistent s →
  w ∉ pool (bal s) → mem s !! w = Some ww →
  ptr (pool (bal s)) (index ww) = Some x →
  ∃ s' rest, completed w s = Ok s' ∧
    pool (bal s) ≡ₚ x :: rest ∧ pool (bal s') ≡ₚ w :: rest ∧
    (x ∉ pool (bal s')) ∧ w ∈ pool (bal s') ∧
    length (pool (bal s')) = length (pool (bal s)) ∧
    index_consistent s'.
Proof.
  intros Hok Hw Hww Hx. unfold index_consistent in *.
  destruct s as [m [p d wk] gs dl]. cbn [mem bal pool] in *.
  set (ww1 := set_pending ww (wrap (pending ww - 1))).
  set (m1 := <[w := ww1]> m).
  assert (Hlw : (w < length m)%nat) by by eapply lookup_lt_Some.
  assert (Hww1 : m1 !! w = Some ww1) by by apply list_lookup_insert_eq.
  assert (Hok1 : index_ok m1 p) by by apply index_ok_insert.
  destruct (heap_Remove_spec m1 p (index ww) x Hok1 Hx)
    as (m2 & p2 & Hrm & Hl2 & Hok2 & Hperm2 & _).
  assert (Hwp2 : w ∉ p2).
  { intros Hin. apply Hw. rewrite Hperm2. by right. }
  destruct (heap_Push_spec m2 p2 w Hok2) as (m3 & p3 & Hpush & _ & Hok3 & Hperm3 & _);
    [|done|].
  { apply lookup_lt_is_Some. rewrite (load_length _ _ Hl2). unfold m1.
    by rewrite length_insert. }
  eexists. exists p2. split.
  { unfold completed. cbn [mem bal pool]. rewrite (deref_Some _ _ _ Hww). ok_bind.
    fold ww1 m1. rewrite (deref_Some _ _ _ Hww1). ok_bind.
    cbn [index ww1 set_pending]. rewrite Hrm. ok_bind. rewrite Hpush. ok_bind. done. }
  cbn [pool bal set_heap mem].
  split; [done|]. split; [done|]. split; [|split; [|split; [|done]]].
  - rewrite Hperm3. intros [->|Hin]%elem_of_cons.
    + apply Hw. rewrite Hperm2. by left.
    + pose proof (index_ok_NoDup _ _ Hok) as Hnd. rewrite Hperm2 in Hnd.
      by apply NoDup_cons_1_1 in Hnd.
  - rewrite Hperm3. by left.
  - by rewrite Hperm3, Hperm2.
Qed.

Lemma completed_outside_pool_witness :
  ∃ s' rest, completed 2%nat third_wheel = Ok s' ∧
    pool (bal third_wheel) ≡ₚ 1%nat :: rest ∧ pool (bal s') ≡ₚ 2%nat :: rest ∧
    (1%nat ∉ pool (bal s')) ∧ 2%nat ∈ pool (bal s') ∧
    length (pool (bal s')) = length (pool (bal third_wheel)) ∧
    index_consistent s'.
Proof.
  apply (completed_outside_pool third_wheel 2%nat 1%nat (MkWorker 2 (Chan [] 5000) 0 1)).
  - apply index_okb_sound. vm_compute. reflexivity.
  - intros Hin. apply list_elem_of_In in Hin. cbn in Hin.
    destruct Hin as [Hin|[Hin|[]]]; discriminate Hin.
  - reflexivity.
  - reflexivity.
Defined.

(** ** The loop of the dispatcher *)

Lemma turns_of_cons (b x : bool) (fws : list bool) :
  turns_of b (x :: fws) = ((if Bool.eqb x b then 1 else 0) + turns_of b fws)%nat.
Proof.
  unfold turns_of. rewrite filter_cons.
  destruct (decide (x = b)) as [->|Hne].
  - by rewrite Bool.eqb_reflx.
  - by destruct x, b.
Qed.

(** One turn of the loop of [balance] that returns. *)
Lemma balance_turn (fw : bool) (s s' : World) :
  index_consistent s →
  Forall (λ w, w ∈ pool (bal s)) (buf (done (bal s))) →
  (∀ a, a ∈ pool (bal s) → int_min < pending_of s a < int_max) →
  balance BalancerWork fw s = Ok s' →
  index_consistent s' ∧ (heap_order s → heap_order s') ∧
  pool (bal s') ≡ₚ pool (bal s) ∧
  total_pending s' = total_pending s + (if fw then 1 else -1) ∧
  buf (work (bal s')) = (if fw then drop 1 (buf (work (bal s))) else buf (work (bal s))) ∧
  buf (done (bal s')) = (if fw then buf (done (bal s)) else drop 1 (buf (done (bal s)))) ∧
  (∀ a, pending_of s a - 1 ≤ pending_of s' a ≤ pending_of s a + 1).
Proof.
  intros Hok Hdone Hint Hb. unfold balance in Hb. destruct fw.
  - apply bind_Ok in Hb as ([t s1] & Hr & Hd).
    rewrite recv_from_shared in Hr.
    destruct (buf (work (bal s))) as [|t' rest] eqn:Hbuf; [done|].
    injection Hr as -> <-.
    set (s1 := set_work s (Chan rest (cap (work (bal s))))) in *.
    assert (Hok1 : index_consistent s1) by done.
    destruct (dispatch_spec t s1 Hok1 (dispatch_nonempty _ _ _ Hd))
      as (w & ww & Hw & Hww & _ & _ & Hres).
    destruct (send_cases (tasks ww) t) as [[_ Hs]|[_ Hs]]; rewrite Hs in Hres;
      [|congruence].
    destruct Hres as (s2 & Hd' & Hok2 & Hord2 & Hperm & HL & Hdn & Hwk & _).
    assert (s2 = s') as -> by congruence.
    assert (Hwin : w ∈ pool (bal s)) by (apply (ptr_elem_of (pool (bal s1))); eauto).
    assert (Hwlen : (w < length (load <$> mem s))%nat).
    { rewrite length_fmap. by eapply (lookup_lt_Some (mem s1)). }
    assert (Hpw : pend (load <$> mem s) w = pending ww).
    { unfold pend. rewrite list_lookup_fmap. by rewrite (Hww : mem s !! w = Some ww). }
    assert (Hwr : wrap (pending ww + 1) = pending ww + 1).
    { apply wrap_id. specialize (Hint w Hwin). unfold pending_of in Hint.
      rewrite key_pend, Hpw in Hint. lia. }
    rewrite Hwr in HL.
    split; [done|]. split; [done|]. split; [done|]. split; [|split; [|split]].
    + unfold total_pending. rewrite (total_perm _ _ _ Hperm), HL.
      change (mem s1) with (mem s). change (pool (bal s1)) with (pool (bal s)).
      rewrite total_insert; [|by eapply index_ok_NoDup|done|done].
      rewrite Hpw. cbn [snd]. lia.
    + by rewrite Hwk.
    + by rewrite Hdn.
    + intros a. unfold pending_of. rewrite !key_pend, HL.
      change (mem s1) with (mem s). rewrite pend_insert by done.
      destruct (decide (a = w)) as [->|]; [rewrite Hpw; cbn [snd]|]; lia.
  - apply bind_Ok in Hb as ([w ch] & Hr & Hc). unfold recv in Hr.
    destruct (buf (done (bal s))) as [|w' rest] eqn:Hbuf; [done|].
    injection Hr as -> <-.
    set (s1 := set_done s (Chan rest (cap (done (bal s))))) in *.
    assert (Hok1 : index_consistent s1) by done.
    assert (Hwin : w ∈ pool (bal s)) by by apply Forall_cons in Hdone as [? _].
    destruct (completed_spec w s1 Hok1 Hwin)
      as (ww & s2 & Hww & Hc' & Hok2 & Hord2 & Hperm & HL & (Hdn & Hwk & _) & _).
    assert (s2 = s') as -> by congruence.
    assert (Hwlen : (w < length (load <$> mem s))%nat).
    { rewrite length_fmap. by eapply (lookup_lt_Some (mem s1)). }
    assert (Hpw : pend (load <$> mem s) w = pending ww).
    { unfold pend. rewrite list_lookup_fmap. by rewrite (Hww : mem s !! w = Some ww). }
    assert (Hwr : wrap (pending ww - 1) = pending ww - 1).
    { apply wrap_id. specialize (Hint w Hwin). unfold pending_of in Hint.
      rewrite key_pend, Hpw in Hint. lia. }
    rewrite Hwr in HL.
    split; [done|]. split; [done|]. split; [done|]. split; [|split; [|split]].
    + unfold total_pending. rewrite (total_perm _ _ _ Hperm), HL.
      change (mem s1) with (mem s). change (pool (bal s1)) with (pool (bal s)).
      rewrite total_insert; [|by eapply index_ok_NoDup|done|done].
      rewrite Hpw. cbn [snd]. lia.
    + by rewrite Hwk.
    + by rewrite Hdn.
    + intros a. unfold pending_of. rewrite !key_pend, HL.
      change (mem s1) with (mem s). rewrite pend_insert by done.
      destruct (decide (a = w)) as [->|]; [rewrite Hpw; cbn [snd]|]; lia.
Qed.

(** X7. The loop of [Balancer.balance], run on the [work] channel over
    an index-consistent pool, keeps the load accounts exact. After any
    turns that return, the pending counts of the pool sum to what they
    summed to before, plus one for every task dispatched, minus one for
    every completion handled; the turns have consumed that many of the
    oldest tasks of [work] and of the oldest workers of [done]; and the
    pool holds the same workers, index-consistent, and ordered if it
    was. (The workers named on [done] are workers of the pool, and the
    pending counts are far enough from the ends of the Go ints not to
    wrap in that many turns.) *)
Theorem balance_accounting (fws : list bool) (s s' : World) :
  index_consistent s →
  Forall (λ w, w ∈ pool (bal s)) (buf (done (bal s))) →
  (∀ a, a ∈ pool (bal s) →
     int_min + Z.of_nat (length fws) ≤ pending_of s a ≤ int_max - Z.of_nat (length fws)) →
  balance_all BalancerWork fws s = Ok s' →
  total_pending s' = total_pending s + Z.of_nat (turns_of true fws)
                                      - Z.of_nat (turns_of false fws) ∧
  buf (work (bal s')) = drop (turns_of true fws) (buf (work (bal s))) ∧
  buf (done (bal s')) = drop (turns_of false fws) (buf (done (bal s))) ∧
  pool (bal s') ≡ₚ pool (bal s) ∧
  index_consistent s' ∧ (heap_order s → heap_order s').
Proof.
  revert s. induction fws as [|fw fws IH]; intros s Hok Hdone Hint Hb.
  - injection Hb as <-. unfold turns_of. cbn. rewrite Z.add_0_r, Z.sub_0_r. done.
  - cbn [balance_all] in Hb. apply bind_Ok in Hb as (s1 & Hb1 & Hb).
    cbn [length] in Hint.
    destruct (balance_turn fw s s1 Hok Hdone) as (Hok1 & Hord1 & Hperm1 & Htot1 & Hwk1 & Hdn1 & Hnear);
      [intros a Ha; specialize (Hint a Ha); lia|done|].
    destruct (IH s1 Hok1) as (Htot & Hwk & Hdn & Hperm & Hok' & Hord'); [| |done|].
    { rewrite Hdn1. eapply Forall_impl.
      - destruct fw; [exact Hdone|by apply Forall_drop].
      - intros w Hw. cbn beta in Hw. by rewrite Hperm1. }
    { intros a Ha. rewrite Hperm1 in Ha. specialize (Hint a Ha).
      specialize (Hnear a). lia. }
    rewrite !turns_of_cons.
    split; [|split; [|split; [|split; [by rewrite Hperm, Hperm1|split; [done|by auto]]]]].
    + rewrite Htot, Htot1. destruct fw; cbn [Bool.eqb]; lia.
    + rewrite Hwk, Hwk1. destruct fw; cbn [Bool.eqb]; [|done].
      by rewrite drop_drop.
    + rewrite Hdn, Hdn1. destruct fw; cbn [Bool.eqb]; [done|].
      by rewrite drop_drop.
Qed.

Lemma balance_accounting_witness :
  total_pending dispatcher_after
    = total_pending dispatcher_world + Z.of_nat (turns_of true [true; false; true])
                                     - Z.of_nat (turns_of false [true; false; true]) ∧
  buf (work (bal dispatcher_after))
    = drop (turns_of true [true; false; true]) (buf (work (bal dispatcher_world))) ∧
  buf (done (bal dispatcher_after))
    = drop (turns_of false [true; false; true]) (buf (done (bal dispatcher_world))) ∧
  pool (bal dispatcher_after) ≡ₚ pool (bal dispatcher_world) ∧
  index_consistent dispatcher_after ∧
  (heap_order dispatcher_world → heap_order dispatcher_after).
Proof.
  apply (balance_accounting [true; false; true] dispatcher_world dispatcher_after).
  - apply index_okb_sound. vm_compute. reflexivity.
  - repeat constructor.
  - intros a Ha. apply list_elem_of_In in Ha. cbn in Ha.
    destruct Ha as [<-|[<-|[<-|[]]]]; vm_compute; split; discriminate.
  - vm_compute. reflexivity.
Defined.

(** * Properties of the precompiled contracts *)

(** ** Bytes and integers *)

Lemma byte_val_range (b : Byte.byte) : 0 ≤ byte_val b < 256.
Proof.
  unfold byte_val. pose proof (Byte.to_N_bounded b). lia.
Qed.

Lemma byte_val_of (z : Z) : byte_val (byte_of z) = z mod 256.
Proof.
  unfold byte_val, byte_of.
  pose proof (Z.mod_pos_bound z 256 ltac:(lia)) as Hz.
  destruct (Byte.of_N (Z.to_N (z mod 256))) as [b|] eqn:Hb.
  - cbn. apply Byte.to_of_N in Hb. rewrite Hb. lia.
  - apply Byte.of_N_None_iff in Hb. lia.
Qed.

Lemma byte_val_x00 : byte_val Byte.x00 = 0.
Proof. reflexivity. Qed.

Lemma SetBytes_snoc (l : list Byte.byte) (b : Byte.byte) :
  SetBytes (l ++ [b]) = SetBytes l * 256 + byte_val b.
Proof. unfold SetBytes. by rewrite fold_left_app. Qed.

Lemma SetBytes_app (l1 l2 : list Byte.byte) :
  SetBytes (l1 ++ l2) = SetBytes l1 * 256 ^ Z.of_nat (length l2) + SetBytes l2.
Proof.
  induction l2 as [|b l2 IH] using rev_ind.
  - rewrite app_nil_r. replace (SetBytes []) with 0 by reflexivity.
    cbn [length]. simpl Z.of_nat. rewrite Z.pow_0_r. lia.
  - rewrite app_assoc, !SetBytes_snoc, IH, length_app. cbn [length].
    rewrite Nat2Z.inj_add, Z.pow_add_r by lia. change (256 ^ Z.of_nat 1) with 256. lia.
Qed.

Lemma SetBytes_range (l : list Byte.byte) : 0 ≤ SetBytes l < 256 ^ Z.of_nat (length l).
Proof.
  induction l as [|b l IH] using rev_ind.
  - cbn. unfold SetBytes. cbn. lia.
  - rewrite SetBytes_snoc, length_app. cbn [length].
    rewrite Nat2Z.inj_add, Z.pow_add_r by lia. change (256 ^ Z.of_nat 1) with 256.
    pose proof (byte_val_range b). nia.
Qed.

Lemma SetBytes_zeros (n : nat) : SetBytes (zeros n) = 0.
Proof.
  induction n as [|n IH]; [done|].
  unfold zeros in *. rewrite replicate_S_end, SetBytes_snoc, IH. reflexivity.
Qed.

Lemma SetBytes_zeros_app (n : nat) (l : list Byte.byte) :
  SetBytes (zeros n ++ l) = SetBytes l.
Proof. rewrite SetBytes_app, SetBytes_zeros. lia. Qed.

Lemma Bytes_loop_spec (fuel : nat) :
  ∀ x acc, 0 ≤ x < 256 ^ Z.of_nat fuel →
    SetBytes (Bytes_loop fuel x acc) = x * 256 ^ Z.of_nat (length acc) + SetBytes acc ∧
    (∀ k : nat, x < 256 ^ Z.of_nat k →
       (length (Bytes_loop fuel x acc) ≤ k + length acc)%nat).
Proof.
  induction fuel as [|fuel IH]; intros x acc Hx.
  - change (256 ^ Z.of_nat 0) with 1 in Hx. assert (x = 0) as -> by lia.
    cbn [Bytes_loop]. split; [lia|]. intros. lia.
  - cbn [Bytes_loop]. destruct (Z.eqb_spec x 0) as [->|Hne].
    + split; [lia|]. intros. lia.
    + rewrite Nat2Z.inj_succ, Z.pow_succ_r in Hx by lia.
      destruct (IH (x / 256) (byte_of x :: acc)) as [Hv Hl].
      { split; [apply Z.div_pos; lia|]. apply Z.div_lt_upper_bound; lia. }
      split.
      * rewrite Hv. cbn [length]. rewrite Nat2Z.inj_succ, Z.pow_succ_r by lia.
        change (byte_of x :: acc) with ([byte_of x] ++ acc).
        rewrite SetBytes_app. unfold SetBytes at 1. cbn [fold_left].
        rewrite byte_val_of.
        pose proof (Z.div_mod x 256 ltac:(lia)). lia.
      * intros k Hk. destruct k as [|k].
        { cbn in Hk. lia. }
        rewrite Nat2Z.inj_succ, Z.pow_succ_r in Hk by lia.
        specialize (Hl k). cbn [length] in Hl.
        assert (x / 256 < 256 ^ Z.of_nat k) by (apply Z.div_lt_upper_bound; lia).
        lia.
Qed.

Lemma Bytes_fuel (x : Z) : 0 ≤ x → x < 256 ^ Z.of_nat (S (Z.to_nat (Z.log2 x))).
Proof.
  intros Hx. destruct (decide (x = 0)) as [->|Hne]; [cbn; lia|].
  pose proof (Z.log2_spec x ltac:(lia)) as [_ Hlt].
  pose proof (Z.log2_nonneg x).
  rewrite Nat2Z.inj_succ, Z2Nat.id by lia.
  eapply Z.lt_le_trans; [exact Hlt|].
  change 256 with (2 ^ 8). rewrite <- Z.pow_mul_r by lia.
  apply Z.pow_le_mono_r; lia.
Qed.

(** [SetBytes] undoes [Bytes]. *)
Lemma SetBytes_Bytes (x : Z) : 0 ≤ x → SetBytes (Bytes x) = x.
Proof.
  intros Hx. unfold Bytes. rewrite Z.abs_eq by done.
  destruct (Bytes_loop_spec _ x [] (conj Hx (Bytes_fuel x Hx))) as [-> _].
  cbn. unfold SetBytes. cbn. lia.
Qed.

Lemma Bytes_length (x : Z) (k : nat) :
  0 ≤ x < 256 ^ Z.of_nat k → (length (Bytes x) ≤ k)%nat.
Proof.
  intros [Hx Hk]. unfold Bytes. rewrite Z.abs_eq by done.
  destruct (Bytes_loop_spec _ x [] (conj Hx (Bytes_fuel x Hx))) as [_ Hl].
  specialize (Hl k Hk). cbn [length] in Hl. lia.
Qed.

Lemma word32_length (n : Z) : 0 ≤ n < 2 ^ 256 → length (word32 n) = 32%nat.
Proof.
  intros Hn. unfold word32, zeros. rewrite length_app, length_replicate.
  pose proof (Bytes_length n 32 ltac:(change (256 ^ Z.of_nat 32) with (2 ^ 256); lia)).
  lia.
Qed.

Lemma SetBytes_word32 (n : Z) : 0 ≤ n → SetBytes (word32 n) = n.
Proof. intros Hn. unfold word32. by rewrite SetBytes_zeros_app, SetBytes_Bytes. Qed.

(** ** Slices *)

Lemma visible_length (s : slice) : slice_ok s → Z.of_nat (length (visible s)) = len s.
Proof.
  unfold slice_ok, cap_of, visible. intros H. rewrite length_take. lia.
Qed.

Lemma visible_slice_of (bs : list Byte.byte) : visible (slice_of bs) = bs.
Proof. unfold visible, slice_of. cbn. rewrite Nat2Z.id. by apply take_ge. Qed.

Lemma slice_of_ok (bs : list Byte.byte) : slice_ok (slice_of bs).
Proof. unfold slice_ok, slice_of, cap_of. cbn. lia. Qed.

Lemma reslice_spec (s : slice) (lo hi : Z) :
  slice_ok s → 0 ≤ lo ≤ hi → hi ≤ len s →
  ∃ s', reslice s lo hi = Ok s' ∧ slice_ok s' ∧ len s' = hi - lo ∧
    visible s' = take (Z.to_nat (hi - lo)) (drop (Z.to_nat lo) (visible s)).
Proof.
  unfold slice_ok, cap_of. intros Hs Hlo Hhi. unfold reslice, cap_of.
  destruct (Z.leb_spec 0 lo); [|lia]. destruct (Z.leb_spec lo hi); [|lia].
  destruct (Z.leb_spec hi (Z.of_nat (length (arr s)))); [|lia]. cbn [andb].
  eexists. split; [done|]. unfold slice_ok, cap_of, visible. cbn [arr len].
  rewrite length_drop. split; [lia|]. split; [done|].
  rewrite take_drop_commute, take_drop_commute, take_take. do 2 f_equal. lia.
Qed.

Lemma pad_to_spec (g : Z → Z → Z) (s : slice) (n : Z) :
  slice_ok s → 0 ≤ n →
  if int_max <? n - len s then bigModexp.pad_to g s n = Panic
  else ∃ s', bigModexp.pad_to g s n = Ok s' ∧ slice_ok s' ∧
         len s' = Z.max (len s) n ∧
         visible s' = padded (Z.to_nat n) (visible s).
Proof.
  intros Hs Hn. pose proof (visible_length s Hs) as Hvl.
  unfold bigModexp.pad_to, make_bytes.
  destruct (Z.ltb_spec (len s) n) as [Hlt|Hge].
  - replace (n - len s <? 0) with false by lia. cbn [orb].
    destruct (Z.ltb_spec int_max (n - len s)) as [Hbig|Hsmall]; [done|].
    ok_bind. eexists. split; [done|].
    unfold append, slice_ok, cap_of, visible, padded in *. cbn [len arr].
    rewrite take_replicate, Nat.min_id.
    replace (len s + (n - len s)) with n by lia.
    assert (Hz : (Z.to_nat n - length (take (Z.to_nat (len s)) (arr s)))%nat
                 = Z.to_nat (n - len s)) by lia.
    assert (Hl : length (take (Z.to_nat (len s)) (arr s)
                         ++ replicate (Z.to_nat (n - len s)) Byte.x00) = Z.to_nat n).
    { rewrite length_app, length_take, length_replicate. lia. }
    destruct (Z.leb_spec n (Z.of_nat (length (arr s)))) as [Hin|Hout]; cbn [len arr].
    + split; [rewrite !length_app, length_take, length_replicate, length_drop; lia|].
      split; [lia|].
      rewrite app_assoc, take_app_le, take_ge by lia.
      unfold zeros. by rewrite Hz.
    + split; [rewrite !length_app, length_take, !length_replicate; lia|].
      split; [lia|].
      rewrite app_assoc, take_app_le, take_ge by lia.
      unfold zeros. by rewrite Hz.
  - replace (int_max <? n - len s) with false by (unfold int_max; lia).
    exists s. split; [done|]. split; [done|]. split; [lia|].
    unfold padded, zeros. replace (Z.to_nat n - length (visible s))%nat with 0%nat by lia.
    cbn. by rewrite app_nil_r.
Qed.

(** ** What [Run] reads *)

Lemma Uint64_nonneg (x : Z) : 0 ≤ Uint64 x.
Proof. unfold Uint64. pose proof (Z.mod_pos_bound (Z.abs x) (2 ^ 64)). lia. Qed.

(** Reading one operand: the padding, the slice of the operand and the
    slice of what remains. *)
Lemma read_step (g : Z → Z → Z) (s : slice) (n : Z) :
  slice_ok s → 0 ≤ n →
  match read_operand n (visible s) with
  | None => bigModexp.pad_to g s n = Panic
  | Some (x, r) =>
      ∃ s1 w s2, bigModexp.pad_to g s n = Ok s1 ∧
        reslice s1 0 n = Ok w ∧ visible w = x ∧
        reslice s1 n (len s1) = Ok s2 ∧ slice_ok s2 ∧ visible s2 = r
  end.
Proof.
  intros Hs Hn. unfold read_operand. rewrite (visible_length s Hs).
  pose proof (pad_to_spec g s n Hs Hn) as Hp.
  destruct (int_max <? n - len s); [done|].
  destruct Hp as (s1 & Hp & Hs1 & Hl1 & Hv1).
  destruct (reslice_spec s1 0 n Hs1) as (w & Hw & _ & _ & Hvw); [lia..|].
  destruct (reslice_spec s1 n (len s1) Hs1) as (s2 & Hs2 & Hok2 & _ & Hv2); [lia..|].
  exists s1, w, s2. rewrite Hv1 in Hvw, Hv2.
  split; [done|]. split; [done|]. split.
  { rewrite Hvw, Z.sub_0_r. done. }
  split; [done|]. split; [done|].
  rewrite Hv2. apply take_ge. rewrite length_drop.
  pose proof (visible_length s1 Hs1) as Hl. rewrite Hv1 in Hl. lia.
Qed.

(** [Run] is a function of the bytes of its input: it returns what the
    three operands give, and panics when an operand cannot be read. *)
Lemma Run_visible (g : Z → Z → Z) (s : slice) :
  slice_ok s →
  bigModexp.Run g s =
    match operands (visible s) with
    | Some (B, E, M) =>
        z ← Exp (SetBytes B) (SetBytes E) (SetBytes M);
        Ok (Bytes z, None)
    | None => Panic
    end.
Proof.
  intros Hs. unfold bigModexp.Run, operands. cbv zeta.
  pose proof (pad_to_spec g s (3 * 32) Hs ltac:(lia)) as Hp.
  replace (int_max <? 3 * 32 - len s) with false in Hp
    by (unfold slice_ok, int_max in *; lia).
  destruct Hp as (s1 & -> & Hs1 & Hl1 & Hv1). ok_bind.
  change (Z.to_nat (3 * 32)) with 96%nat in Hv1. rewrite <- Hv1.
  destruct (reslice_spec s1 0 32 Hs1) as (w0 & -> & _ & _ & Hw0); [lia..|]. ok_bind.
  destruct (reslice_spec s1 32 64 Hs1) as (w1 & -> & _ & _ & Hw1); [lia..|]. ok_bind.
  destruct (reslice_spec s1 64 96 Hs1) as (w2 & -> & _ & _ & Hw2); [lia..|]. ok_bind.
  destruct (reslice_spec s1 96 (len s1) Hs1) as (d0 & -> & Hd0 & _ & Hvd0); [lia..|]. ok_bind.
  rewrite Hw0, Hw1, Hw2.
  change (Z.to_nat (32 - 0)) with 32%nat. change (Z.to_nat 0) with 0%nat.
  change (Z.to_nat (64 - 32)) with 32%nat. change (Z.to_nat 32) with 32%nat.
  change (Z.to_nat (96 - 64)) with 32%nat. change (Z.to_nat 64) with 64%nat.
  rewrite drop_0.
  assert (Hvd : visible d0 = drop 96 (visible s1)).
  { rewrite Hvd0. apply take_ge. rewrite length_drop.
    pose proof (visible_length s1 Hs1). lia. }
  rewrite <- Hvd.
  set (baseLen := Uint64 (SetBytes (take 32 (visible s1)))).
  set (expLen := Uint64 (SetBytes (take 32 (drop 32 (visible s1))))).
  set (modLen := Uint64 (SetBytes (take 32 (drop 64 (visible s1))))).
  pose proof (read_step g d0 baseLen Hd0 (Uint64_nonneg _)) as H1.
  destruct (read_operand baseLen (visible d0)) as [[B r1]|]; [|by rewrite H1].
  destruct H1 as (a1 & wB & d1 & Hpad1 & HwB & <- & Hrest1 & Hd1 & <-).
  rewrite Hpad1; ok_bind. rewrite HwB; ok_bind. rewrite Hrest1; ok_bind.
  cbn [mbind option_bind].
  pose proof (read_step g d1 expLen Hd1 (Uint64_nonneg _)) as H2.
  destruct (read_operand expLen (visible d1)) as [[E r2]|]; [|by rewrite H2].
  destruct H2 as (a2 & wE & d2 & Hpad2 & HwE & <- & Hrest2 & Hd2 & <-).
  rewrite Hpad2; ok_bind. rewrite HwE; ok_bind. rewrite Hrest2; ok_bind.
  cbn [mbind option_bind].
  pose proof (read_step g d2 modLen Hd2 (Uint64_nonneg _)) as H3.
  destruct (read_operand modLen (visible d2)) as [[M r3]|]; [|by rewrite H3].
  destruct H3 as (a3 & wM & d3 & Hpad3 & HwM & <- & _).
  rewrite Hpad3; ok_bind. rewrite HwM; ok_bind.
  done.
Qed.

Lemma padded_ge (n : nat) (v : list Byte.byte) : (n ≤ length v)%nat → padded n v = v.
Proof.
  intros H. unfold padded, zeros. replace (n - length v)%nat with 0%nat by lia.
  cbn. by rewrite app_nil_r.
Qed.

Lemma padded_length (n : nat) (v : list Byte.byte) : (n ≤ length (padded n v))%nat.
Proof. unfold padded, zeros. rewrite length_app, length_replicate. lia. Qed.

Lemma read_operand_app (n : Z) (x r : list Byte.byte) :
  Z.of_nat (length x) = n → read_operand n (x ++ r) = Some (x, r).
Proof.
  intros <-. unfold read_operand. rewrite length_app, Nat2Z.id.
  destruct (Z.ltb_spec int_max (Z.of_nat (length x) - Z.of_nat (length x + length r)))
    as [Hbig|_]; [unfold int_max in Hbig; lia|].
  rewrite padded_ge by (rewrite length_app; lia).
  by rewrite take_app_length, drop_app_length.
Qed.

Lemma Uint64_id (x : Z) : 0 ≤ x < 2 ^ 64 → Uint64 x = x.
Proof. intros H. unfold Uint64. rewrite Z.abs_eq, Z.mod_small; lia. Qed.

Lemma operands_modexp_input (B E M T : list Byte.byte) :
  Z.of_nat (length B) < 2 ^ 64 → Z.of_nat (length E) < 2 ^ 64 →
  Z.of_nat (length M) < 2 ^ 64 →
  operands (modexp_input B E M T) = Some (B, E, M).
Proof.
  intros HB HE HM. unfold operands, modexp_input.
  assert (Hw : ∀ n, 0 ≤ n < 2 ^ 64 → length (word32 n) = 32%nat).
  { intros n Hn. apply word32_length. lia. }
  set (wB := word32 (Z.of_nat (length B))).
  set (wE := word32 (Z.of_nat (length E))).
  set (wM := word32 (Z.of_nat (length M))).
  assert (HlB : length wB = 32%nat) by (apply Hw; lia).
  assert (HlE : length wE = 32%nat) by (apply Hw; lia).
  assert (HlM : length wM = 32%nat) by (apply Hw; lia).
  cbv zeta. rewrite padded_ge by (rewrite !length_app; lia).
  rewrite (take_app_length' wB) by lia.
  rewrite (drop_app_length' wB _ 32) by lia.
  rewrite (take_app_length' wE) by lia.
  replace (drop 64 (wB ++ wE ++ wM ++ B ++ E ++ M ++ T)) with (wM ++ B ++ E ++ M ++ T).
  2:{ rewrite (app_assoc wB wE).
      rewrite (drop_app_length' (wB ++ wE) _ 64); [done|]. rewrite length_app. lia. }
  rewrite (take_app_length' wM) by lia.
  replace (drop 96 (wB ++ wE ++ wM ++ B ++ E ++ M ++ T)) with (B ++ E ++ M ++ T).
  2:{ rewrite (app_assoc wB wE), (app_assoc (wB ++ wE) wM).
      rewrite (drop_app_length' ((wB ++ wE) ++ wM) _ 96); [done|].
      rewrite !length_app. lia. }
  unfold wB, wE, wM. rewrite !SetBytes_word32, !Uint64_id by lia.
  rewrite read_operand_app by done. cbn [mbind option_bind].
  rewrite read_operand_app by done. cbn [mbind option_bind].
  rewrite read_operand_app by done. done.
Qed.

Lemma Exp_modulus (b e m : Z) :
  0 ≤ b → 0 ≤ e → 0 < m →
  Exp b e m = Ok (b ^ e mod m) ∧ 0 ≤ b ^ e mod m < m.
Proof.
  intros Hb He Hm. unfold Exp. destruct (Z.eqb_spec m 0) as [->|_]; [lia|].
  rewrite Z.abs_eq by lia. split; [done|]. apply Z.mod_pos_bound. lia.
Qed.

Lemma Exp_zero (b e z : Z) : Exp b e 0 = Ok z → z = b ^ e.
Proof.
  unfold Exp. cbn [Z.eqb].
  destruct (Z.log2 (Z.abs (b ^ e)) <? 8 * int_max); [|done]. by intros [= <-].
Qed.

(** X8. On an input that declares the lengths of a base [B], an
    exponent [E] and a modulus [M] in three 32-byte big-endian words and
    carries the three after them, whatever follows: for a modulus that
    is not 0, [Run] returns no error and the big-endian bytes, without
    leading zero bytes, of [B^E mod M], in at most as many bytes as the
    modulus has; for the modulus 0, whenever [Run] returns it returns no
    error and the bytes, without leading zero bytes, of [B^E] itself,
    not reduced. The spare capacity of the input slice and the growth
    policy of [append] play no part. *)
Theorem Run_modexp (g : Z → Z → Z) (s : slice) (B E M T : list Byte.byte) :
  slice_ok s → visible s = modexp_input B E M T →
  Z.of_nat (length B) < 2 ^ 64 → Z.of_nat (length E) < 2 ^ 64 →
  Z.of_nat (length M) < 2 ^ 64 →
  (SetBytes M ≠ 0 →
   ∃ out, bigModexp.Run g s = Ok (out, None) ∧
     out = Bytes (SetBytes out) ∧
     SetBytes out = SetBytes B ^ SetBytes E mod SetBytes M ∧
     (length out ≤ length M)%nat) ∧
  (SetBytes M = 0 →
   ∀ r, bigModexp.Run g s = Ok r →
     ∃ out, r = (out, None) ∧
       out = Bytes (SetBytes out) ∧
       SetBytes out = SetBytes B ^ SetBytes E).
Proof.
  intros Hs Hv HB HE HM.
  rewrite (Run_visible g s Hs), Hv, operands_modexp_input by done.
  pose proof (SetBytes_range B) as [Hb _].
  pose proof (SetBytes_range E) as [He _].
  pose proof (SetBytes_range M) as [Hm HmM].
  split.
  - intros Hne.
    destruct (Exp_modulus (SetBytes B) (SetBytes E) (SetBytes M)) as [-> Hr]; [lia..|].
    ok_bind. eexists. split; [done|].
    rewrite SetBytes_Bytes by lia. split; [done|]. split; [done|].
    apply Bytes_length. lia.
  - intros Hz r Hr. rewrite Hz in Hr.
    apply bind_Ok in Hr as (z & ->%Exp_zero & [= <-]).
    eexists. split; [done|].
    rewrite SetBytes_Bytes by (by apply Z.pow_nonneg). done.
Qed.

Lemma Run_modexp_witness :
  (SetBytes sample_mod ≠ 0 →
   ∃ out, bigModexp.Run (λ _ n, n) modexp_3_5_7 = Ok (out, None) ∧
     out = Bytes (SetBytes out) ∧
     SetBytes out = SetBytes sample_base ^ SetBytes sample_exp mod SetBytes sample_mod ∧
     (length out ≤ length sample_mod)%nat) ∧
  (SetBytes sample_mod = 0 →
   ∀ r, bigModexp.Run (λ _ n, n) modexp_3_5_7 = Ok r →
     ∃ out, r = (out, None) ∧
       out = Bytes (SetBytes out) ∧
       SetBytes out = SetBytes sample_base ^ SetBytes sample_exp).
Proof.
  apply (Run_modexp (λ _ n, n) modexp_3_5_7 sample_base sample_exp sample_mod sample_tail).
  - apply slice_of_ok.
  - apply visible_slice_of.
  - vm_compute. reflexivity.
  - vm_compute. reflexivity.
  - vm_compute. reflexivity.
Defined.

(** ** Inputs cut short *)

Lemma padded_zeros (n k : nat) (v : list Byte.byte) :
  ∃ j, padded n (v ++ zeros k) = padded n v ++ zeros j.
Proof.
  exists (k + (n - length v - k) - (n - length v))%nat.
  unfold padded, zeros. rewrite length_app, length_replicate.
  rewrite <- !app_assoc, <- !replicate_add. do 2 f_equal. lia.
Qed.

Lemma read_operand_zeros (n : Z) (k : nat) (v x r : list Byte.byte) :
  read_operand n v = Some (x, r) →
  ∃ j, read_operand n (v ++ zeros k) = Some (x, r ++ zeros j).
Proof.
  unfold read_operand. intros H.
  destruct (Z.ltb_spec int_max (n - Z.of_nat (length v))) as [|Hsmall]; [done|].
  injection H as <- <-.
  destruct (Z.ltb_spec int_max (n - Z.of_nat (length (v ++ zeros k)))) as [Hbig|_].
  { rewrite length_app in Hbig. lia. }
  destruct (padded_zeros (Z.to_nat n) k v) as [j ->].
  exists j. pose proof (padded_length (Z.to_nat n) v).
  by rewrite take_app_le, drop_app_le by done.
Qed.

(** The operands of an input do not change when zero bytes are added at
    its end. *)
Lemma operands_zeros (k : nat) (v : list Byte.byte) (o : list Byte.byte * list Byte.byte * list Byte.byte) :
  operands v = Some o → operands (v ++ zeros k) = Some o.
Proof.
  unfold operands. cbv zeta.
  destruct (padded_zeros 96 k v) as [j ->].
  pose proof (padded_length 96 v) as Hl.
  set (h := padded 96 v) in *.
  rewrite (take_app_le h) by lia.
  rewrite !(drop_app_le h) by lia.
  rewrite (take_app_le (drop 32 h)) by (rewrite length_drop; lia).
  rewrite (take_app_le (drop 64 h)) by (rewrite length_drop; lia).
  intros H.
  destruct (read_operand _ (drop 96 h)) as [[B d1]|] eqn:H1; [|done].
  destruct (read_operand_zeros _ j _ _ _ H1) as [j1 ->].
  cbn [mbind option_bind] in *.
  destruct (read_operand _ d1) as [[E d2]|] eqn:H2; [|done].
  destruct (read_operand_zeros _ j1 _ _ _ H2) as [j2 ->].
  cbn [mbind option_bind] in *.
  destruct (read_operand _ d2) as [[M d3]|] eqn:H3; [|done].
  destruct (read_operand_zeros _ j2 _ _ _ H3) as [j3 ->].
  done.
Qed.

(** X9. [Run] reads the bytes an input lacks as zero bytes, and nothing
    besides the bytes of the input: when it returns on an input, it
    returns the same on any input that has those bytes followed by zero
    bytes, whatever the capacities of the two slices and the growth
    policy of [append]. *)
Theorem Run_zero_extended (g g' : Z → Z → Z) (s s' : slice) (k : nat)
    (r : list Byte.byte * error) :
  slice_ok s → slice_ok s' →
  visible s' = visible s ++ zeros k →
  bigModexp.Run g s = Ok r →
  bigModexp.Run g' s' = Ok r.
Proof.
  intros Hs Hs' Hv. rewrite (Run_visible g s Hs), (Run_visible g' s' Hs'), Hv.
  destruct (operands (visible s)) as [o|] eqn:Ho; [|done].
  by rewrite (operands_zeros k _ o Ho).
Qed.

Lemma Run_zero_extended_witness :
  bigModexp.Run (λ _ n, 2 * n) modexp_whole = Ok (bytes_of [243], None).
Proof.
  apply (Run_zero_extended (λ _ n, n) (λ _ n, 2 * n) modexp_cut_short modexp_whole 1).
  - apply slice_of_ok.
  - apply slice_of_ok.
  - vm_compute. reflexivity.
  - vm_compute. reflexivity.
Defined.

(** ** The gas of [bigModexp] *)

(** The padding of [RequiredGas] keeps a capacity of 96. *)
Lemma pad_to_cap_96 (g : Z → Z → Z) (s : slice) :
  slice_ok s → cap_of s = 96 →
  ∃ s', bigModexp.pad_to g s (3 * 32) = Ok s' ∧ cap_of s' = 96 ∧ len s' = 96.
Proof.
  unfold slice_ok, cap_of. intros Hs Hc. unfold bigModexp.pad_to, make_bytes.
  destruct (Z.ltb_spec (len s) (3 * 32)) as [Hlt|Hge].
  - destruct (Z.ltb_spec (3 * 32 - len s) 0) as [|_]; [lia|].
    destruct (Z.ltb_spec int_max (3 * 32 - len s)) as [Hbig|_];
      [unfold int_max in Hbig; lia|].
    cbn [orb]. ok_bind. eexists. split; [done|].
    unfold append, cap_of, visible. cbn [len arr].
    replace (len s + (3 * 32 - len s)) with 96 by lia.
    destruct (Z.leb_spec 96 (Z.of_nat (length (arr s)))) as [_|Hout]; [|lia].
    cbn [len arr]. split; [|done].
    rewrite !length_app, !length_take, length_replicate, length_drop. lia.
  - exists s. split; [done|]. unfold cap_of. lia.
Qed.

(** X10. [RequiredGas] reads the modulus length from [input[65:97]],
    one byte past the 96 bytes of the header. On an input slice of
    capacity 96 (a header and nothing more, or a shorter input in an
    array of 96 bytes) that slice expression is out of range, and
    [RequiredGas] panics, whatever [math.BigMax] and
    [params.QuadCoeffDiv] are. *)
Theorem RequiredGas_capacity_96_panics (g BigMax : Z → Z → Z) (q : Z) (s : slice) :
  slice_ok s → cap_of s = 96 →
  bigModexp.RequiredGas g BigMax q s = Panic.
Proof.
  intros Hs Hc. unfold bigModexp.RequiredGas.
  destruct (pad_to_cap_96 g s Hs Hc) as (s1 & -> & Hc1 & Hl1). ok_bind.
  unfold reslice. rewrite Hc1. cbn. done.
Qed.

Lemma RequiredGas_capacity_96_panics_witness :
  bigModexp.RequiredGas (λ _ n, n) Z.max 100 modexp_header_only = Panic.
Proof.
  apply (RequiredGas_capacity_96_panics (λ _ n, n) Z.max 100 modexp_header_only).
  - apply slice_of_ok.
  - vm_compute. reflexivity.
Defined.

Lemma SetBytes_take_31 (n : Z) : 0 ≤ n < 2 ^ 256 → SetBytes (take 31 (word32 n)) = n / 256.
Proof.
  intros Hn. pose proof (word32_length n Hn) as Hl.
  pose proof (SetBytes_word32 n ltac:(lia)) as Hv.
  rewrite <- (take_drop 31 (word32 n)) in Hv.
  rewrite SetBytes_app in Hv.
  pose proof (SetBytes_range (drop 31 (word32 n))) as Hr.
  rewrite length_drop, Hl in Hv, Hr.
  change (Z.of_nat (32 - 31)) with 1 in *. change (256 ^ 1) with 256 in *.
  apply (Z.div_unique_pos n 256 _ (SetBytes (drop 31 (word32 n)))); lia.
Qed.

Lemma SetBytes_drop_1 (n : Z) :
  0 ≤ n < 2 ^ 256 → SetBytes (drop 1 (word32 n)) = n mod 2 ^ 248.
Proof.
  intros Hn. pose proof (word32_length n Hn) as Hl.
  pose proof (SetBytes_word32 n ltac:(lia)) as Hv.
  rewrite <- (take_drop 1 (word32 n)) in Hv.
  rewrite SetBytes_app in Hv.
  pose proof (SetBytes_range (drop 1 (word32 n))) as Hr.
  pose proof (SetBytes_range (take 1 (word32 n))) as Hr1.
  rewrite length_drop, Hl in Hv, Hr.
  change (Z.of_nat (32 - 1)) with 31 in *. change (256 ^ 31) with (2 ^ 248) in *.
  apply (Z.mod_unique_pos n (2 ^ 248) (SetBytes (take 1 (word32 n)))); lia.
Qed.

(** X11. On an input of three 32-byte header words declaring the
    lengths [bl], [el] and [ml], followed by at least one byte [d],
    [RequiredGas] does not price those lengths: it reads the base
    length from the first 31 bytes, which is [bl / 256], and the
    modulus length from the bytes 65 to 96, which is the low 31 bytes
    of [ml] followed by [d], the first byte after the header. The gas
    is the low 64 bits of [x * x * BigMax el 1 / QuadCoeffDiv] for [x]
    the [BigMax] of those two numbers. *)
Theorem RequiredGas_reads (g BigMax : Z → Z → Z) (q bl el ml : Z) (d : Byte.byte)
    (T : list Byte.byte) (s : slice) :
  0 ≤ bl < 2 ^ 256 → 0 ≤ el < 2 ^ 256 → 0 ≤ ml < 2 ^ 256 → 0 < q < 2 ^ 64 →
  slice_ok s → visible s = word32 bl ++ word32 el ++ word32 ml ++ d :: T →
  bigModexp.RequiredGas g BigMax q s =
    Ok (Uint64 (BigMax (bl / 256) (ml mod 2 ^ 248 * 256 + byte_val d)
                * BigMax (bl / 256) (ml mod 2 ^ 248 * 256 + byte_val d)
                * BigMax el 1 / q)).
Proof.
  intros Hbl Hel Hml Hq Hs Hv.
  pose proof (word32_length bl Hbl) as Hlb.
  pose proof (word32_length el Hel) as Hle.
  pose proof (word32_length ml Hml) as Hlm.
  pose proof (visible_length s Hs) as Hlen. rewrite Hv, !length_app in Hlen.
  cbn [length] in Hlen.
  unfold bigModexp.RequiredGas, bigModexp.pad_to.
  destruct (Z.ltb_spec (len s) (3 * 32)) as [Hlt|_]; [lia|]. ok_bind.
  destruct (reslice_spec s 0 31 Hs) as (w0 & -> & _ & _ & Hw0); [lia..|]. ok_bind.
  destruct (reslice_spec s 32 64 Hs) as (w1 & -> & _ & _ & Hw1); [lia..|]. ok_bind.
  destruct (reslice_spec s 65 97 Hs) as (w2 & -> & _ & _ & Hw2); [lia..|]. ok_bind.
  cbv zeta. unfold Div, uint64. rewrite (Z.mod_small q) by lia.
  destruct (Z.eqb_spec q 0) as [|_]; [lia|]. ok_bind.
  rewrite Hw0, Hw1, Hw2, Hv.
  change (Z.to_nat (31 - 0)) with 31%nat. change (Z.to_nat 0) with 0%nat.
  change (Z.to_nat (64 - 32)) with 32%nat. change (Z.to_nat 32) with 32%nat.
  change (Z.to_nat (97 - 65)) with 32%nat. change (Z.to_nat 65) with 65%nat.
  rewrite drop_0.
  rewrite (take_app_le (word32 bl)) by lia.
  rewrite (drop_app_length' (word32 bl) _ 32) by lia.
  rewrite (take_app_length' (word32 el)) by lia.
  replace (drop 65 (word32 bl ++ word32 el ++ word32 ml ++ d :: T))
    with (drop 1 (word32 ml) ++ d :: T).
  2:{ rewrite (app_assoc (word32 bl) (word32 el)).
      rewrite (drop_app_ge (word32 bl ++ word32 el)) by (rewrite length_app; lia).
      rewrite length_app, Hlb, Hle. change (65 - (32 + 32))%nat with 1%nat.
      by rewrite drop_app_le by lia. }
  replace (take 32 (drop 1 (word32 ml) ++ d :: T)) with (drop 1 (word32 ml) ++ [d]).
  2:{ rewrite take_app_ge by (rewrite length_drop; lia).
      rewrite length_drop, Hlm. change (32 - (32 - 1))%nat with 1%nat. done. }
  rewrite SetBytes_take_31, SetBytes_word32, SetBytes_snoc, SetBytes_drop_1 by lia.
  done.
Qed.

Lemma RequiredGas_reads_witness :
  bigModexp.RequiredGas (λ _ n, n) Z.max 100 modexp_3_5_7 =
    Ok (Uint64 (Z.max (1 / 256) (1 mod 2 ^ 248 * 256 + byte_val (byte_of 3))
                * Z.max (1 / 256) (1 mod 2 ^ 248 * 256 + byte_val (byte_of 3))
                * Z.max 1 1 / 100)).
Proof.
  apply (RequiredGas_reads (λ _ n, n) Z.max 100 1 1 1 (byte_of 3) (bytes_of [5; 7; 9])).
  - lia.
  - lia.
  - lia.
  - lia.
  - apply slice_of_ok.
  - vm_compute. reflexivity.
Defined.

(** ** Gas by the word *)

(** X12. The [RequiredGas] of [sha256hash], [ripemd160hash] and
    [dataCopy] charges the base gas plus the word gas for every started
    word of 32 bytes of the input: whenever that sum fits a [uint64] it
    is what the method returns, without wrapping; an empty input costs
    the base gas, and among inputs whose sum fits a longer input never
    costs less. *)
Theorem RequiredGas_by_word (wordGas baseGas : Z) (s : slice) :
  0 ≤ wordGas → 0 ≤ baseGas → slice_ok s → len s + 31 ≤ int_max →
  baseGas + wordGas * ((len s + 31) / 32) < 2 ^ 64 →
  sha256hash.RequiredGas wordGas baseGas s = baseGas + wordGas * ((len s + 31) / 32) ∧
  ripemd160hash.RequiredGas wordGas baseGas s = baseGas + wordGas * ((len s + 31) / 32) ∧
  dataCopy.RequiredGas wordGas baseGas s = baseGas + wordGas * ((len s + 31) / 32) ∧
  (len s = 0 → words_gas wordGas baseGas s = baseGas) ∧
  (∀ s', slice_ok s' → len s' ≤ len s →
     words_gas wordGas baseGas s' ≤ words_gas wordGas baseGas s).
Proof.
  intros HW HB Hs Hlen Hfit.
  assert (Hgas : ∀ s', slice_ok s' → len s' ≤ len s →
            words_gas wordGas baseGas s' = baseGas + wordGas * ((len s' + 31) / 32) ∧
            (len s' + 31) / 32 ≤ (len s + 31) / 32).
  { intros s' [Hs' _] Hle.
    assert (Hmono : (len s' + 31) / 32 ≤ (len s + 31) / 32)
      by (apply Z.div_le_mono; lia).
    assert (0 ≤ (len s' + 31) / 32) by (apply Z.div_pos; lia).
    split; [|done]. unfold words_gas, uint64.
    rewrite wrap_id by (unfold int_min, int_max in *; lia).
    rewrite (Z.mod_small (len s' + 31)) by (unfold int_max in *; lia).
    rewrite (Z.mod_small ((len s' + 31) / 32 * wordGas)) by nia.
    rewrite Z.mod_small by nia. lia. }
  destruct (Hgas s Hs ltac:(lia)) as [Heq _].
  unfold sha256hash.RequiredGas, ripemd160hash.RequiredGas, dataCopy.RequiredGas.
  split; [done|]. split; [done|]. split; [done|]. split.
  - intros H0. rewrite Heq, H0. change ((0 + 31) / 32) with 0. lia.
  - intros s' Hs' Hle. destruct (Hgas s' Hs' Hle) as [-> Hm]. rewrite Heq. nia.
Qed.

Lemma RequiredGas_by_word_witness :
  sha256hash.RequiredGas 12 60 modexp_3_5_7 = 60 + 12 * ((len modexp_3_5_7 + 31) / 32) ∧
  ripemd160hash.RequiredGas 12 60 modexp_3_5_7 = 60 + 12 * ((len modexp_3_5_7 + 31) / 32) ∧
  dataCopy.RequiredGas 12 60 modexp_3_5_7 = 60 + 12 * ((len modexp_3_5_7 + 31) / 32) ∧
  (len modexp_3_5_7 = 0 → words_gas 12 60 modexp_3_5_7 = 60) ∧
  (∀ s', slice_ok s' → len s' ≤ len modexp_3_5_7 →
     words_gas 12 60 s' ≤ words_gas 12 60 modexp_3_5_7).
Proof.
  apply (RequiredGas_by_word 12 60 modexp_3_5_7).
  - lia.
  - lia.
  - apply slice_of_ok.
  - vm_compute. discriminate.
  - vm_compute. reflexivity.
Defined.

(** ** Gas from outside the input *)

Lemma reslice_cap (s : slice) (lo hi : Z) :
  0 ≤ lo ≤ hi → hi ≤ cap_of s →
  reslice s lo hi = Ok (Slice (drop (Z.to_nat lo) (arr s)) (hi - lo)).
Proof.
  intros Hlo Hhi. unfold reslice.
  destruct (Z.leb_spec 0 lo); [|lia]. destruct (Z.leb_spec lo hi); [|lia].
  destruct (Z.leb_spec hi (cap_of s)); [|lia]. done.
Qed.

(** The padding of [RequiredGas] on an input of at most 96 bytes in an
    array of at least 96: the zero bytes are written into the array, and
    the array past them is left as it was. *)
Lemma pad_to_in_place (g : Z → Z → Z) (s : slice) :
  slice_ok s → len s ≤ 96 → 96 ≤ cap_of s →
  ∃ s1, bigModexp.pad_to g s (3 * 32) = Ok s1 ∧ len s1 = 96 ∧
    arr s1 = padded 96 (visible s) ++ drop 96 (arr s).
Proof.
  intros Hs Hlen Hcap. pose proof (visible_length s Hs) as Hvl.
  unfold slice_ok, cap_of in *. unfold bigModexp.pad_to, make_bytes.
  destruct (Z.ltb_spec (len s) (3 * 32)) as [Hlt|Hge].
  - destruct (Z.ltb_spec (3 * 32 - len s) 0) as [|_]; [lia|].
    destruct (Z.ltb_spec int_max (3 * 32 - len s)) as [Hbig|_];
      [unfold int_max in Hbig; lia|].
    cbn [orb]. ok_bind. eexists. split; [done|].
    unfold append, cap_of. cbn [len arr].
    replace (len s + (3 * 32 - len s)) with 96 by lia.
    destruct (Z.leb_spec 96 (Z.of_nat (length (arr s)))) as [_|Hout]; [|lia].
    cbn [len arr]. split; [done|].
    unfold padded, zeros, visible at 2. cbn [len arr].
    rewrite take_replicate, Nat.min_id, <- app_assoc.
    do 2 f_equal. f_equal. lia.
  - exists s. split; [done|]. split; [lia|].
    rewrite padded_ge by lia. unfold visible.
    replace (Z.to_nat (len s)) with 96%nat by lia. by rewrite take_drop.
Qed.

(** X13. On an input of at most 96 bytes in an array with room for more,
    [RequiredGas] reads a byte that is not part of the input: the
    modulus length it prices ends with the byte at index 96 of the
    backing array, whatever an earlier use of the array left there. So
    two slices with the same bytes can cost different gas. *)
Theorem RequiredGas_reads_spare (g BigMax : Z → Z → Z) (q bl el ml : Z) (d : Byte.byte)
    (s : slice) :
  0 ≤ bl < 2 ^ 256 → 0 ≤ el < 2 ^ 256 → 0 ≤ ml < 2 ^ 256 → 0 < q < 2 ^ 64 →
  slice_ok s → len s ≤ 96 → arr s !! 96%nat = Some d →
  padded 96 (visible s) = word32 bl ++ word32 el ++ word32 ml →
  bigModexp.RequiredGas g BigMax q s =
    Ok (Uint64 (BigMax (bl / 256) (ml mod 2 ^ 248 * 256 + byte_val d)
                * BigMax (bl / 256) (ml mod 2 ^ 248 * 256 + byte_val d)
                * BigMax el 1 / q)).
Proof.
  intros Hbl Hel Hml Hq Hs Hlen Hd Hv.
  pose proof (word32_length bl Hbl) as Hlb.
  pose proof (word32_length el Hel) as Hle.
  pose proof (word32_length ml Hml) as Hlm.
  assert (Hcap : 97 ≤ cap_of s).
  { apply lookup_lt_Some in Hd. unfold cap_of. lia. }
  destruct (pad_to_in_place g s Hs Hlen ltac:(lia)) as (s1 & Hp & Hl1 & Ha1).
  rewrite Hv, (drop_S _ _ _ Hd), <- !app_assoc in Ha1.
  assert (Hc1 : 97 ≤ cap_of s1).
  { unfold cap_of. rewrite Ha1, !length_app. cbn [length]. lia. }
  unfold bigModexp.RequiredGas. rewrite Hp. ok_bind.
  rewrite (reslice_cap s1 0 31), (reslice_cap s1 32 64), (reslice_cap s1 65 97) by lia.
  ok_bind. cbv zeta. unfold Div, uint64. rewrite (Z.mod_small q) by lia.
  destruct (Z.eqb_spec q 0) as [|_]; [lia|]. ok_bind.
  unfold visible. cbn [len arr]. rewrite Ha1.
  change (Z.to_nat (31 - 0)) with 31%nat. change (Z.to_nat 0) with 0%nat.
  change (Z.to_nat (64 - 32)) with 32%nat. change (Z.to_nat 32) with 32%nat.
  change (Z.to_nat (97 - 65)) with 32%nat. change (Z.to_nat 65) with 65%nat.
  rewrite drop_0.
  rewrite (take_app_le (word32 bl)) by lia.
  rewrite (drop_app_length' (word32 bl) _ 32) by lia.
  rewrite (take_app_length' (word32 el)) by lia.
  set (rest := drop 97 (arr s)).
  replace (drop 65 (word32 bl ++ word32 el ++ word32 ml ++ d :: rest))
    with (drop 1 (word32 ml) ++ d :: rest).
  2:{ rewrite (app_assoc (word32 bl) (word32 el)).
      rewrite (drop_app_ge (word32 bl ++ word32 el)) by (rewrite length_app; lia).
      rewrite length_app, Hlb, Hle. change (65 - (32 + 32))%nat with 1%nat.
      by rewrite drop_app_le by lia. }
  replace (take 32 (drop 1 (word32 ml) ++ d :: rest)) with (drop 1 (word32 ml) ++ [d]).
  2:{ rewrite take_app_ge by (rewrite length_drop; lia).
      rewrite length_drop, Hlm. change (32 - (32 - 1))%nat with 1%nat. done. }
  rewrite SetBytes_take_31, SetBytes_word32, SetBytes_snoc, SetBytes_drop_1 by lia.
  done.
Qed.

Lemma RequiredGas_reads_spare_witness :
  bigModexp.RequiredGas (λ _ n, n) Z.max 100 modexp_header_reused =
    Ok (Uint64 (Z.max (1 / 256) (1 mod 2 ^ 248 * 256 + byte_val (byte_of 200))
                * Z.max (1 / 256) (1 mod 2 ^ 248 * 256 + byte_val (byte_of 200))
                * Z.max 1 1 / 100)).
Proof.
  apply (RequiredGas_reads_spare (λ _ n, n) Z.max 100 1 1 1 (byte_of 200)
           modexp_header_reused).
  - lia.
  - lia.
  - lia.
  - lia.
  - vm_compute. split; discriminate.
  - vm_compute. discriminate.
  - reflexivity.
  - vm_compute. reflexivity.
Defined.

(** * Further properties of the worker loop *)

(** The receive of a worker on any channel that holds a task. *)
Lemma recv_from_head (r : chan_ref) (s : World) (t : Task) (q : list Task) :
  queue_of r s = Some (t :: q) →
  ∃ s1, recv_from r s = Ok (t, s1) ∧
    queue_of r s1 = Some q ∧
    delivered s1 = delivered s ∧ returns s1 = returns s ∧
    pool (bal s1) = pool (bal s) ∧ done (bal s1) = done (bal s) ∧
    pending <$> mem s1 = pending <$> mem s ∧ index <$> mem s1 = index <$> mem s.
Proof.
  intros Hq. destruct r as [|a]; cbn in Hq.
  - injection Hq as Hq. rewrite recv_from_shared, Hq.
    eexists. split; [done|]. cbn. done.
  - destruct (mem s !! a) as [ww|] eqn:Hww; [|done]. injection Hq as Hq. cbn in Hq.
    unfold recv_from. rewrite (deref_Some _ _ _ Hww). ok_bind.
    unfold recv. rewrite Hq. ok_bind.
    eexists. split; [done|].
    assert (Hlt : (a < length (mem s))%nat) by by eapply lookup_lt_Some.
    cbn. rewrite list_lookup_insert_eq by done. cbn.
    do 5 (split; [done|]).
    rewrite !list_fmap_insert. cbn.
    split; apply list_insert_id; by rewrite list_lookup_fmap, Hww.
Qed.

(** One turn of [Worker.work] on any channel whose oldest task returns
    and whose return channel takes the value. *)
Lemma Worker_work_turn (r : chan_ref) (s : World) (t : Task) (q : list Task) (e : error)
    (j : nat) :
  queue_of r s = Some (t :: q) → fn t = Some e →
  returns s !! c t = Some (Open (S j)) →
  ∃ s', Worker_work r s = Ok s' ∧
    queue_of r s' = Some q ∧
    delivered s' = delivered s ++ [(c t, e)] ∧
    returns s' = <[c t := Open j]> (returns s) ∧
    pool (bal s') = pool (bal s) ∧ done (bal s') = done (bal s) ∧
    pending <$> mem s' = pending <$> mem s ∧ index <$> mem s' = index <$> mem s.
Proof.
  intros Hq Hf Hopen.
  destruct (recv_from_head r s t q Hq)
    as (s1 & Hr & Hq1 & Hd1 & Hr1 & Hp1 & Hdn1 & Hpe1 & Hix1).
  unfold Worker_work, Worker_body. rewrite Hr. ok_bind. rewrite Hf.
  rewrite (send_return_Open _ _ _ j) by congruence.
  eexists. split; [done|]. cbn [delivered returns deliver bal mem].
  split; [by destruct r|]. rewrite Hd1, Hr1. done.
Qed.

(** X14. A worker takes the tasks of the channel it was started on in
    the order they were queued: when the first tasks of the channel
    return and the return channels can take their values, that many
    turns of [Worker.work] write their results on their return channels
    in queue order, each value as the function returned it, each using
    one place of its channel, and leave the rest of the queue; the turns
    change no pending count, no heap index, nothing of the pool and
    nothing of [done]. A task whose function never returns keeps the
    worker, and so does a task whose return channel, open or [nil],
    cannot take the value: the turn that takes it does not end. *)
Theorem Worker_work_fifo (r : chan_ref) (pre post : list Task) (s : World) :
  queue_of r s = Some (pre ++ post) →
  Forall (λ t, is_Some (fn t)) pre →
  takes_all s pre →
  ∃ s', work_turns r (length pre) s = Ok s' ∧
    queue_of r s' = Some post ∧
    delivered s' = delivered s ++ outcomes pre ∧
    length (outcomes pre) = length pre ∧
    (∀ ch, (room_at s' ch + due ch pre = room_at s ch)%nat) ∧
    pool (bal s') = pool (bal s) ∧ done (bal s') = done (bal s) ∧
    pending <$> mem s' = pending <$> mem s ∧ index <$> mem s' = index <$> mem s ∧
    (∀ t rest, post = t :: rest → fn t = None → Worker_work r s' = Blocked) ∧
    (∀ t rest, post = t :: rest →
       room_at s' (c t) = 0%nat → returns s' !! c t ≠ Some Closed →
       Worker_work r s' = Blocked).
Proof.
  revert s. induction pre as [|t pre IH]; intros s Hq Hpre Htakes.
  - exists s. cbn. rewrite app_nil_r. do 4 (split; [done|]).
    split; [intros ch; unfold due; cbn; lia|]. do 4 (split; [done|]).
    cbn [app] in Hq. split.
    + intros t rest -> Hf.
      destruct (recv_from_head r s t rest Hq) as (s1 & Hr & _).
      unfold Worker_work, Worker_body. rewrite Hr. ok_bind. by rewrite Hf.
    + intros t rest -> Hroom Hopen.
      destruct (recv_from_head r s t rest Hq) as (s1 & Hr & _ & _ & Hr1 & _).
      unfold Worker_work, Worker_body. rewrite Hr. ok_bind.
      destruct (fn t) as [e|]; [|done].
      apply send_return_parks; unfold room_at in *; by rewrite Hr1.
  - apply Forall_cons in Hpre as [[e Hf] Hpre].
    assert (Hdue : ∀ ch, due ch (t :: pre)
                   = ((if decide (ch = c t) then 1 else 0) + due ch pre)%nat).
    { intros ch. change (t :: pre) with ([t] ++ pre). rewrite due_app. f_equal.
      unfold due. rewrite (outcomes_returned t e Hf). apply written_on_one. }
    destruct (room_at_Open s (c t)) as [j Hopen].
    { pose proof (Htakes (c t)) as H. rewrite Hdue, decide_True in H by done. lia. }
    destruct (Worker_work_turn r s t (pre ++ post) e j Hq Hf Hopen)
      as (s1 & Hw & Hq1 & Hd1 & Hr1 & Hp1 & Hdn1 & Hpe1 & Hix1).
    assert (Hroom1 : ∀ ch, (room_at s1 ch + (if decide (ch = c t) then 1 else 0)
                            = room_at s ch)%nat).
    { intros ch. unfold room_at. rewrite Hr1.
      rewrite room_of_insert by (by eapply lookup_lt_Some).
      destruct (decide (ch = c t)) as [->|]; [|lia].
      unfold room_of. rewrite Hopen. lia. }
    destruct (IH s1 Hq1 Hpre)
      as (s' & Hw' & Hq' & Hd' & Hlen & Hroom' & Hp' & Hdn' & Hpe' & Hix' & Hstuck).
    { intros ch. pose proof (Htakes ch) as H. rewrite Hdue in H.
      pose proof (Hroom1 ch). lia. }
    exists s'. cbn [work_turns length]. rewrite Hw. ok_bind.
    split; [done|]. split; [done|]. split.
    { rewrite Hd', Hd1, (outcomes_cons t pre), (outcomes_returned t e Hf).
      by rewrite <- app_assoc. }
    split.
    { rewrite (outcomes_cons t pre), (outcomes_returned t e Hf). cbn. by rewrite Hlen. }
    split.
    { intros ch. rewrite Hdue. pose proof (Hroom' ch). pose proof (Hroom1 ch). lia. }
    split; [congruence|]. split; [congruence|]. split; [congruence|].
    split; [congruence|]. done.
Qed.

Lemma Worker_work_fifo_witness :
  ∃ s', work_turns (WorkerTasks 0%nat) (length [quick_task; failing_task]) one_worker_loaded
        = Ok s' ∧
    queue_of (WorkerTasks 0%nat) s' = Some [endless_task] ∧
    delivered s' = delivered one_worker_loaded ++ outcomes [quick_task; failing_task] ∧
    length (outcomes [quick_task; failing_task]) = length [quick_task; failing_task] ∧
    (∀ ch, (room_at s' ch + due ch [quick_task; failing_task]
            = room_at one_worker_loaded ch)%nat) ∧
    pool (bal s') = pool (bal one_worker_loaded) ∧
    done (bal s') = done (bal one_worker_loaded) ∧
    pending <$> mem s' = pending <$> mem one_worker_loaded ∧
    index <$> mem s' = index <$> mem one_worker_loaded ∧
    (∀ t rest, [endless_task] = t :: rest → fn t = None →
       Worker_work (WorkerTasks 0%nat) s' = Blocked) ∧
    (∀ t rest, [endless_task] = t :: rest →
       room_at s' (c t) = 0%nat → returns s' !! c t ≠ Some Closed →
       Worker_work (WorkerTasks 0%nat) s' = Blocked).
Proof.
  apply (Worker_work_fifo (WorkerTasks 0%nat) [quick_task; failing_task] [endless_task]
           one_worker_loaded).
  - vm_compute. reflexivity.
  - repeat constructor; by eexists.
  - apply takes_all_check. repeat constructor.
Defined.

(** * [heap.Init] on any pool *)

Lemma around_from_down (K : Z → Z) (n i0 i j : Z) :
  0 ≤ i0 ≤ i → 0 < j < n → parent j = i →
  around_from K n i0 i →
  (∀ k, 0 < k < n → parent k = i → K j ≤ K k) →
  K j < K i →
  around_from (λ k, K (transp i j k)) n i0 j ∧
  K (transp i j (parent j)) ≤ K (transp i j j).
Proof.
  intros Hi Hj Hpj [H1 H2] Hmin Hlt.
  pose proof (parent_lt j ltac:(lia)) as Hpj'. rewrite Hpj in *.
  assert (Ht : ∀ k, k ≠ j → k ≠ i → transp i j k = k).
  { intros k ? ?. unfold transp.
    destruct (Z.eqb_spec k i); [done|]. destruct (Z.eqb_spec k j); done. }
  assert (Hti : transp i j i = j).
  { unfold transp. by rewrite Z.eqb_refl. }
  assert (Htj : transp i j j = i).
  { unfold transp. destruct (Z.eqb_spec j i); [lia|]. by rewrite Z.eqb_refl. }
  split; [split|].
  - intros k Hk Hreg Hkj Hpkj.
    destruct (decide (k = i)) as [->|Hki].
    + rewrite Hti.
      pose proof (parent_lt i ltac:(lia)).
      rewrite Ht by lia. apply H2; [done..|lia].
    + rewrite (Ht k) by done.
      destruct (decide (parent k = i)) as [Hpk|Hpk].
      * rewrite Hpk, Hti. by apply Hmin.
      * rewrite Ht by done. by apply H1.
  - intros k Hk Hpk _. rewrite Hpj, Hti.
    pose proof (parent_lt k ltac:(lia)).
    rewrite Ht by lia.
    pose proof (H1 k Hk ltac:(lia) ltac:(lia) ltac:(lia)) as Hs. by rewrite Hpk in Hs.
  - rewrite Hti, Htj. lia.
Qed.

Lemma around_from_ext (K K' : Z → Z) (n i0 j : Z) :
  (∀ k, K' k = K k) → around_from K n i0 j → around_from K' n i0 j.
Proof. intros HK [H1 H2]. split; intros k; rewrite !HK; eauto. Qed.

(** [down] from [i0], when the part of the pool after [i0] is in order:
    the part from [i0] on is in order afterwards. *)
Lemma down_loop_from (n i0 : Z) (fuel : nat) :
  ∀ (m : Mem) (p : Pool) (i : Z),
    index_ok m p → 0 ≤ n ≤ Pool.Len p → 0 ≤ i0 ≤ i → (Z.to_nat (n - i) < fuel)%nat →
    around_from (key_at m p) n i0 i →
    (i0 < i → key_at m p (parent i) ≤ key_at m p i) →
    ∃ m' p' b, heap.down_loop fuel m p i0 i n = Ok (m', p', b) ∧
      load <$> m' = load <$> m ∧
      index_ok m' p' ∧
      p' ≡ₚ p ∧
      ordered_from (key_at m' p') n i0.
Proof.
  induction fuel as [|fuel IH]; intros m p i Hok Hn Hi Hfuel Har Hup; [lia|].
  cbn [heap.down_loop].
  assert (Hexit : below_children (key_at m p) n i →
    ∃ m' p' b, Ok (m, p, i0 <? i) = Ok (m', p', b) ∧
      load <$> m' = load <$> m ∧ index_ok m' p' ∧ p' ≡ₚ p ∧
      ordered_from (key_at m' p') n i0).
  { intros Hbc. exists m, p, (i0 <? i). split; [done|]. split; [done|].
    split; [done|]. split; [done|].
    intros k Hk Hreg. destruct Har as [H1 _].
    destruct (decide (k = i)) as [->|Hki].
    - apply Hup. pose proof (parent_lt i ltac:(lia)). lia.
    - destruct (decide (parent k = i)) as [Hpk|Hpk].
      + rewrite Hpk. by apply Hbc.
      + by apply H1. }
  destruct (Z.leb_spec n (2 * i + 1)) as [Hj1|Hj1]; cbn.
  { apply Hexit. intros k Hk Hpk. apply parent_spec in Hpk; lia. }
  destruct (Z.ltb_spec (2 * i + 1) 0) as [?|_]; [lia|]. cbn.
  set (j1 := 2 * i + 1) in *.
  set (K := key_at m p) in *.
  assert (∃ j, (if j1 + 1 <? n then Pool.Less m p (j1 + 1) j1 else Ok false)
               ≫= (λ rless : bool, mret (if rless then j1 + 1 else j1)) = Ok j ∧
               0 < j < n ∧ parent j = i ∧
               ∀ k, 0 < k < n → parent k = i → K j ≤ K k)
    as (j & Hsel & Hj & Hpj & Hmin).
  { assert (Hkids : ∀ k, 0 < k → parent k = i → k = j1 ∨ k = j1 + 1).
    { intros k Hk Hpk. apply parent_spec in Hpk; lia. }
    assert (parent j1 = i) by (apply parent_spec; lia).
    assert (parent (j1 + 1) = i) by (apply parent_spec; lia).
    destruct (Z.ltb_spec (j1 + 1) n) as [Hj2|Hj2].
    - rewrite Less_spec by (done || lia). cbn. fold K.
      destruct (Z.ltb_spec (K (j1 + 1)) (K j1)) as [Hlt|Hge].
      + exists (j1 + 1). split; [done|]. split; [lia|]. split; [done|].
        intros k Hk Hpk. destruct (Hkids k) as [->| ->]; lia.
      + exists j1. split; [done|]. split; [lia|]. split; [done|].
        intros k Hk Hpk. destruct (Hkids k) as [->| ->]; lia.
    - cbn. exists j1. split; [done|]. split; [lia|]. split; [done|].
      intros k Hk Hpk. destruct (Hkids k) as [->| ->]; lia. }
  destruct (if j1 + 1 <? n then Pool.Less m p (j1 + 1) j1 else Ok false)
    as [rless| | |] eqn:Hr; try discriminate Hsel.
  cbn in Hsel. injection Hsel as Hsel. cbn. rewrite Hsel.
  rewrite Less_spec by (done || lia). cbn. fold K.
  destruct (Z.ltb_spec (K j) (K i)) as [Hlt|Hge]; cbn.
  2:{ apply Hexit. intros k Hk Hpk. specialize (Hmin k Hk Hpk). lia. }
  destruct (Swap_spec m p i j Hok) as (m1 & p1 & -> & Hl1 & Hok1 & Hlen1 & Hptr1);
    [lia..|]. cbn.
  pose proof (key_at_ptr _ _ _ _ _ Hl1 Hptr1) as HK1.
  pose proof (parent_lt j ltac:(lia)) as Hparj.
  destruct (around_from_down K n i0 i j Hi Hj Hpj Har Hmin Hlt) as [Har1 Hup1].
  destruct (IH m1 p1 j) as (m' & p' & b & -> & Hl' & Hok' & Hperm' & Hord');
    [done| |lia|lia| | |].
  { unfold Pool.Len in *. lia. }
  { exact (around_from_ext _ _ _ _ _ HK1 Har1). }
  { intros _. by rewrite !HK1. }
  exists m', p', b. split; [done|]. split; [congruence|]. split; [done|].
  split; [|done].
  etrans; [done|]. eapply ptr_Permutation; [done..|apply transp_invol|done].
Qed.

(** The loop of [heap.Init], come down to position [k]. *)
Lemma Init_loop_spec (n : Z) (k : nat) :
  ∀ (m : Mem) (p : Pool),
    index_ok m p → n = Pool.Len p → Z.of_nat k ≤ n →
    ordered_from (key_at m p) n (Z.of_nat k) →
    ∃ m' p', heap.Init_loop k m p n = Ok (m', p') ∧
      load <$> m' = load <$> m ∧ index_ok m' p' ∧ p' ≡ₚ p ∧
      ordered (key_at m' p') n.
Proof.
  induction k as [|k IH]; intros m p Hok Hn Hk Hfrom.
  - exists m, p. split; [done|]. split; [done|]. split; [done|]. split; [done|].
    intros i Hi. apply Hfrom; [done|]. pose proof (parent_lt i ltac:(lia)). lia.
  - cbn [heap.Init_loop]. unfold heap.down.
    destruct (down_loop_from n (Z.of_nat k) (S (Z.to_nat n)) m p (Z.of_nat k))
      as (m1 & p1 & b & -> & Hl1 & Hok1 & Hperm1 & Hord1); [done|lia|lia|lia| |lia|].
    { split; [|lia]. intros i Hi Hreg Hne Hpne. apply Hfrom; [done|lia]. }
    ok_bind.
    destruct (IH m1 p1) as (m' & p' & -> & Hl' & Hok' & Hperm' & Hord');
      [done| |lia| |].
    { unfold Pool.Len in *. by rewrite (Permutation_length Hperm1). }
    { intros i Hi Hreg. by apply Hord1. }
    exists m', p'. split; [done|]. split; [congruence|]. split; [done|].
    split; [by etrans|done].
Qed.

(** X15. [heap.Init], which [New] calls on its pool, makes a heap of any
    index-consistent pool, ordered or not: it returns, the pool holds
    the same workers, no worker's id, channel or pending count has
    changed, every worker's [index] is its position, and the pending
    count at the parent of every position is at most the one at the
    position. *)
Theorem heap_Init_heapifies (m : Mem) (p : Pool) :
  index_ok m p →
  ∃ m' p', heap.Init m p = Ok (m', p') ∧
    load <$> m' = load <$> m ∧
    p' ≡ₚ p ∧
    index_ok m' p' ∧
    heap_ordered m' p'.
Proof.
  intros Hok. unfold heap.Init. cbv zeta.
  assert (Hlen : 0 ≤ Pool.Len p) by (unfold Pool.Len; lia).
  pose proof (Z.quot_pos (Pool.Len p) 2 Hlen ltac:(lia)) as Hq.
  assert (Hhalf : Pool.Len p ÷ 2 ≤ Pool.Len p).
  { rewrite Z.quot_div_nonneg by lia. apply Z.div_le_upper_bound; lia. }
  destruct (Init_loop_spec (Pool.Len p) (Z.to_nat (Pool.Len p ÷ 2)) m p Hok)
    as (m' & p' & Hi & Hl & Hok' & Hperm & Hord); [done|lia| |].
  { intros k Hk Hreg. rewrite Z2Nat.id in Hreg by done. exfalso.
    pose proof (parent_spec k (parent k) ltac:(lia)) as [Hp _].
    specialize (Hp eq_refl).
    rewrite Z.quot_div_nonneg in Hreg by lia.
    pose proof (Z.div_mod (Pool.Len p) 2 ltac:(lia)).
    pose proof (Z.mod_pos_bound (Pool.Len p) 2 ltac:(lia)). lia. }
  exists m', p'. split; [done|]. split; [done|]. split; [done|]. split; [done|].
  unfold heap_ordered. unfold Pool.Len in *. by rewrite (Permutation_length Hperm).
Qed.

Lemma heap_Init_heapifies_witness :
  ∃ m' p', heap.Init unordered_mem unordered_pool = Ok (m', p') ∧
    load <$> m' = load <$> unordered_mem ∧
    p' ≡ₚ unordered_pool ∧
    index_ok m' p' ∧
    heap_ordered m' p'.
Proof.
  apply (heap_Init_heapifies unordered_mem unordered_pool).
  apply index_okb_sound. vm_compute. reflexivity.
Defined.
